(** * Tube mesh generation: a shallow embedding of
      [scaffoldmaker/utils/tubemesh.py]

    The Python module builds a tubular mesh by mapping a segment profile
    onto a sampled central line, smoothing the derivatives along the tube,
    offsetting the inner surface through the wall and interpolating the
    layers in between.  This file embeds the three functions of the module

      - [generatetubemesh]
      - [getOuterCoordinatesAndCurvatureFromInner]
      - [interpolatefromInnerAndOuter]

    as Rocq functions and proves properties of them.

    Conventions of the embedding:

      - a Python [float] is an IEEE-754 binary64 number, modelled by
        [spec_float] with the operations of [SpecFloat] at precision 53;
      - a Python [int] is a [Z];
      - a 3-vector (a Python list that the source only reads at the indices
        0, 1, 2 or maps over) is a record of three floats, a 3x3 matrix a
        record of three rows;
      - a Python list is a [list], read with [Py.index], which follows
        Python for negative and out-of-range indices;
      - a statement that can raise returns a [Py.result]; the local
        variables of [generatetubemesh] are threaded through its loops in
        the record [Locals], a variable that may be unbound being an
        [option];
      - the functions that the module imports from [interpolation],
        [vector], [matrix] and [math] are the fields of the class
        [Imports]: every definition and theorem is parametric in them. *)

From Stdlib Require Import ZArith List Bool Lia.
From Stdlib Require String.
From Stdlib Require Import Floats.SpecFloat.
Import ListNotations.
Local Open Scope Z_scope.

(** ** Python control: exceptions, list indexing, [range], [for] *)

Module Py.

Inductive exn : Set :=
| IndexError
| ZeroDivisionError
| UnboundLocalError
| ValueError
| OverflowError
| OtherError.

Inductive result (A : Type) : Type :=
| Ok (a : A)
| Raise (e : exn).

Arguments Ok {A} a.
Arguments Raise {A} e.

Definition bind {A B : Type} (c : result A) (k : A -> result B) : result B :=
  match c with
  | Ok a => k a
  | Raise e => Raise e
  end.

(** [range(n)] *)
Definition range (n : Z) : list Z := map Z.of_nat (seq 0 (Z.to_nat n)).

(** [l[i]]: negative indices count from the end, anything outside
    [-len, len) raises [IndexError]. *)
Definition index {A : Type} (l : list A) (i : Z) : result A :=
  let len := Z.of_nat (length l) in
  let j := if i <? 0 then i + len else i in
  if (0 <=? j) && (j <? len) then
    match nth_error l (Z.to_nat j) with
    | Some a => Ok a
    | None => Raise IndexError
    end
  else Raise IndexError.

Fixpoint replace_nth {A : Type} (n : nat) (l : list A) (v : A) : list A :=
  match l, n with
  | [], _ => []
  | _ :: t, O => v :: t
  | h :: t, S n' => h :: replace_nth n' t v
  end.

(** [l[i] = v] *)
Definition store {A : Type} (l : list A) (i : Z) (v : A) : result (list A) :=
  let len := Z.of_nat (length l) in
  let j := if i <? 0 then i + len else i in
  if (0 <=? j) && (j <? len) then Ok (replace_nth (Z.to_nat j) l v)
  else Raise IndexError.

(** Reading a local variable that may not have been assigned yet. *)
Definition load {A : Type} (v : option A) : result A :=
  match v with
  | Some a => Ok a
  | None => Raise UnboundLocalError
  end.

(** [a % b] on ints: the sign follows the divisor, as [Z.modulo]. *)
Definition mod_ (a b : Z) : result Z :=
  if b =? 0 then Raise ZeroDivisionError else Ok (a mod b).

(** [for x in xs: s = body(x, s)] *)
Fixpoint for_ {S : Type} (xs : list Z) (body : Z -> S -> result S) (s : S)
  : result S :=
  match xs with
  | [] => Ok s
  | x :: xs' => bind (body x s) (for_ xs' body)
  end.

End Py.

Import Py.

Notation "'let*' x ':=' c 'in' k" := (Py.bind c (fun x => k))
  (at level 10, x name, c at level 100, k at level 200).
Notation "'let*' ' p ':=' c 'in' k" :=
  (Py.bind c (fun x => match x with p => k end))
  (at level 10, p pattern, c at level 100, k at level 200).

(** ** Python floats: IEEE-754 binary64 *)

Module F64.

Definition prec : Z := 53.
Definition emax : Z := 1024.

Definition float : Set := spec_float.

Definition add : float -> float -> float := SFadd prec emax.
Definition sub : float -> float -> float := SFsub prec emax.
Definition mul : float -> float -> float := SFmul prec emax.
Definition div : float -> float -> float := SFdiv prec emax.
Definition sqrt : float -> float := SFsqrt prec emax.
Definition neg : float -> float := SFopp.

(** Conversion of an int that takes part in float arithmetic (round to
    nearest even; exact below [2^53]). *)
Definition of_int (z : Z) : float := binary_normalize prec emax z 0 false.

Definition zero : float := S754_zero false.
Definition one : float := Eval cbv in of_int 1.
Definition two : float := Eval cbv in of_int 2.
Definition three : float := Eval cbv in of_int 3.
Definition half : float := Eval cbv in div (of_int 1) (of_int 2).

(** [x > y], [x <= y] *)
Definition gtb (x y : float) : bool := SFltb y x.
Definition leb (x y : float) : bool := SFleb x y.

Definition is_zero (x : float) : bool :=
  match x with
  | S754_zero _ => true
  | _ => false
  end.

Definition is_nan (x : float) : bool :=
  match x with
  | S754_nan => true
  | _ => false
  end.

(** Neither an infinity nor a NaN. *)
Definition is_finite (x : float) : bool :=
  match x with
  | S754_zero _ | S754_finite _ _ _ => true
  | _ => false
  end.

(** [x / y] on floats: Python raises where IEEE returns an infinity or a
    NaN. *)
Definition truediv (x y : float) : result float :=
  if is_zero y then Raise ZeroDivisionError else Ok (div x y).

(** An int that takes part in float arithmetic is converted first, and
    the conversion raises [OverflowError] ("int too large to convert to
    float") for an int that rounds beyond the largest float: one of
    magnitude [2^1024 - 2^970] (half an ulp above the largest float, a
    tie that rounds to even, upwards) or more. *)
Definition float_limit : Z := 2 ^ 1024 - 2 ^ 970.

Definition fits_float (n : Z) : bool := Z.abs n <? float_limit.

Definition to_float (n : Z) : result float :=
  if fits_float n then Ok (of_int n) else Raise OverflowError.

(** [x / n] with [n] an int: [n] is converted, then the divisor is zero
    exactly when [n] is. *)
Definition truediv_int (x : float) (n : Z) : result float :=
  let* d := to_float n in
  if n =? 0 then Raise ZeroDivisionError else Ok (div x d).

(** [x * n] with [n] an int. *)
Definition mul_int (x : float) (n : Z) : result float :=
  let* d := to_float n in
  Ok (mul x d).

(** The quotient of two ints rounded once, to nearest even: with [k]
    chosen so that the integer quotient of [|a| * 2^k] by [|b|] has more
    than [prec + 2] bits, that quotient with a last bit set when the
    division leaves a remainder rounds as the exact quotient does. *)
Definition rounded_quotient (a b : Z) : float :=
  let negative := xorb (a <? 0) (b <? 0) in
  let k := Z.max 0 (prec + 3 + Z.log2 (Z.abs b) - Z.log2 (Z.abs a)) in
  let q := Z.abs a * 2 ^ k / Z.abs b in
  let sticky := if Z.abs a * 2 ^ k mod Z.abs b =? 0 then 0 else 1 in
  let m := 2 * q + sticky in
  binary_normalize prec emax (if negative then - m else m) (- k - 1)
                   negative.

(** [a / b] on two ints ([from __future__ import division]): the
    correctly rounded quotient; [ZeroDivisionError] for a zero divisor,
    [OverflowError] ("integer division result too large for a float") for
    a quotient that rounds beyond the largest float. *)
Definition long_true_divide (a b : Z) : result float :=
  if b =? 0 then Raise ZeroDivisionError
  else if float_limit * Z.abs b <=? Z.abs a then Raise OverflowError
  else Ok (rounded_quotient a b).

(** The quotient of two small counts, as the float division of the
    converted operands: both are exact below [2^53], and the quotient is
    then the correctly rounded one.  The sampler modelled below uses it
    for the ratios of its element counts. *)
Definition int_truediv (a b : Z) : result float :=
  if b =? 0 then Raise ZeroDivisionError else Ok (div (of_int a) (of_int b)).

Arguments add : simpl never.
Arguments sub : simpl never.
Arguments mul : simpl never.
Arguments div : simpl never.
Arguments sqrt : simpl never.
Arguments neg : simpl never.
Arguments of_int : simpl never.
Arguments mul_int : simpl never.
Arguments gtb : simpl never.
Arguments leb : simpl never.

End F64.

Import F64.

(** ** 3-vectors and 3x3 matrices *)

Record vec3 : Set := V3 { c0 : float; c1 : float; c2 : float }.

(** [v[i]] for [i] in [range(3)] *)
Definition comp (v : vec3) (i : Z) : float :=
  if i =? 0 then c0 v else if i =? 1 then c1 v else c2 v.

(** [[f(i) for i in range(3)]] *)
Definition build3 (f : Z -> float) : vec3 := V3 (f 0) (f 1) (f 2).

(** [[f(c) for c in v]] *)
Definition vmap (f : float -> float) (v : vec3) : vec3 :=
  V3 (f (c0 v)) (f (c1 v)) (f (c2 v)).

(** [[f(c) for c in v]] where [f] can raise *)
Definition vmapM (f : float -> result float) (v : vec3) : result vec3 :=
  let* a := f (c0 v) in
  let* b := f (c1 v) in
  let* c := f (c2 v) in
  Ok (V3 a b c).

Record mat3 : Set := M3 { r0 : vec3; r1 : vec3; r2 : vec3 }.

(** [m[j]] for [j] in [range(3)] *)
Definition row (m : mat3) (j : Z) : vec3 :=
  if j =? 0 then r0 m else if j =? 1 then r1 m else r2 m.

(** [[m[j][0]*v[0] + m[j][1]*v[1] + m[j][2]*v[2] for j in range(3)]] *)
Definition matvec (m : mat3) (v : vec3) : vec3 :=
  build3 (fun j =>
    add (add (mul (comp (row m j) 0) (comp v 0))
             (mul (comp (row m j) 1) (comp v 1)))
        (mul (comp (row m j) 2) (comp v 2))).

(** [[ [1, 0, 0], [0, 1, 0], [0, 0, 1] ]]: the int entries take part in
    float arithmetic only, where they are [1.0] and [0.0]. *)
Definition identity3 : mat3 :=
  M3 (V3 one zero zero) (V3 zero one zero) (V3 zero zero one).

Definition zero3 : vec3 := V3 zero zero zero.

(** ** The imported functions *)

(** The functions of [scaffoldmaker.utils.interpolation] (imported as
    [interp]), [scaffoldmaker.utils.vector], [scaffoldmaker.utils.matrix]
    and [math] that the module calls.  Each is a function of its arguments
    that returns a value or raises. *)
Class Imports : Type := {
  sampleCubicHermiteCurves :
    list vec3 -> list vec3 -> Z ->
    result (list vec3 * list vec3 * list Z * list float * list float);
  interpolateSampleCubicHermite :
    list vec3 -> list vec3 -> list Z -> list float -> list float ->
    result (list vec3 * list vec3);
  smoothCubicHermiteDerivativesLine :
    list vec3 -> list vec3 -> result (list vec3);
  getCubicHermiteCurvatureSimple :
    vec3 -> vec3 -> vec3 -> vec3 -> float -> result float;
  interpolateCubicHermite :
    vec3 -> vec3 -> vec3 -> vec3 -> float -> result vec3;
  normalise : vec3 -> result vec3;
  crossproduct3 : vec3 -> vec3 -> result vec3;
  magnitude : vec3 -> result float;
  dotproduct : vec3 -> vec3 -> result float;
  getRotationMatrixFromAxisAngle : vec3 -> float -> result mat3;
  acos : float -> result float
}.

(** ** [getOuterCoordinatesAndCurvatureFromInner] *)

Section Surfaces.

Context `{Imports}.

(** The choice between the symmetric and the one-sided curvature, with the
    short-circuit evaluation of [and] and the [elif] chain of the source.
    The chain has no [else]: were no branch taken, [curvatureAround] would
    be unbound at the [append] (the three tests on booleans are
    exhaustive, see [curvatureAroundAt_bound]). *)
Definition curvatureAroundAt (transitElementList : list bool)
    (elementsCountAround n1 : Z) (kappam kappap : float) : result float :=
  let* t1 := index transitElementList n1 in
  let* both :=
    if negb t1 then
      let* p := mod_ (n1 - 1) elementsCountAround in
      let* t0 := index transitElementList p in
      Ok (negb t0)
    else Ok false in
  if both then Ok (mul half (add kappam kappap))
  else
    let* t1' := index transitElementList n1 in
    if t1' then Ok kappam
    else
      let* p := mod_ (n1 - 1) elementsCountAround in
      let* t0 := index transitElementList p in
      if t0 then Ok kappap else Raise UnboundLocalError.

(** The outer point of one vertex:
    [[xInner[n][i] + d3Inner[n][i]*wallThickness for i in range(3)]] *)
Definition offsetPoint (x d3 : vec3) (wallThickness : float) : vec3 :=
  build3 (fun i => add (comp x i) (mul (comp d3 i) wallThickness)).

(** [prevIdx = n - 1 if (n1 != 0) else (n2 + 1)*elementsCountAround - 1] *)
Definition prevIndex (elementsCountAround n2 n1 : Z) : Z :=
  let n := n2 * elementsCountAround + n1 in
  if negb (n1 =? 0) then n - 1 else (n2 + 1) * elementsCountAround - 1.

(** [nextIdx = n + 1 if (n1 < elementsCountAround - 1)
               else n2*elementsCountAround] *)
Definition nextIndex (elementsCountAround n2 n1 : Z) : Z :=
  let n := n2 * elementsCountAround + n1 in
  if n1 <? elementsCountAround - 1 then n + 1 else n2 * elementsCountAround.

Definition getOuterCoordinatesAndCurvatureFromInner
    (xInner d1Inner d3Inner : list vec3) (wallThickness : float)
    (elementsCountAlong elementsCountAround : Z)
    (transitElementList : list bool)
  : result (list vec3 * list float) :=
  for_ (range (elementsCountAlong + 1)) (fun n2 =>
    for_ (range elementsCountAround) (fun n1 '(xOuter, curvatureInner) =>
      let n := n2 * elementsCountAround + n1 in
      let* xn := index xInner n in
      let* d3n := index d3Inner n in
      let x := offsetPoint xn d3n wallThickness in
      let prevIdx := prevIndex elementsCountAround n2 n1 in
      let nextIdx := nextIndex elementsCountAround n2 n1 in
      let* norm := index d3Inner n in
      let* xPrev := index xInner prevIdx in
      let* d1Prev := index d1Inner prevIdx in
      let* xHere := index xInner n in
      let* d1Here := index d1Inner n in
      let* kappam :=
        getCubicHermiteCurvatureSimple xPrev d1Prev xHere d1Here one in
      let* xHere' := index xInner n in
      let* d1Here' := index d1Inner n in
      let* xNext := index xInner nextIdx in
      let* d1Next := index d1Inner nextIdx in
      let* kappap :=
        getCubicHermiteCurvatureSimple xHere' d1Here' xNext d1Next zero in
      let* curvatureAround :=
        curvatureAroundAt transitElementList elementsCountAround n1
                          kappam kappap in
      Ok (xOuter ++ [x], curvatureInner ++ [curvatureAround])))
    ([], []).

(** ** [interpolatefromInnerAndOuter] *)

(** [1.0 + thickness*xi3 * curvatureInner[n]] *)
Definition circumferentialFactor (thickness xi3 curvature : float) : float :=
  add one (mul (mul thickness xi3) curvature).

(** [1.0 + curvature*distance] *)
Definition longitudinalFactor (curvature distance : float) : float :=
  add one (mul curvature distance).

Definition interpolatefromInnerAndOuter
    (xInner xOuter : list vec3) (thickness xi3 : float) (sx : list vec3)
    (curvatureInner curvatureAlong : list float)
    (d1Inner d2Inner d3InnerUnit : list vec3)
    (elementsCountAround elementsCountAlong elementsCountThroughWall : Z)
  : result (list vec3 * list vec3 * list vec3 * list vec3 * list float) :=
  for_ (range (elementsCountAlong + 1)) (fun n2 =>
    for_ (range elementsCountAround)
      (fun n1 '(xList, dx_ds1List, dx_ds2List, dx_ds3List, factorList) =>
        let n := n2 * elementsCountAround + n1 in
        let* norm := index d3InnerUnit n in
        let* innerx := index xInner n in
        let* outerx := index xOuter n in
        let dWall := vmap (fun c => mul thickness c) norm in
        let* x := interpolateCubicHermite innerx dWall outerx dWall xi3 in
        let xList := xList ++ [x] in
        let* kappa := index curvatureInner n in
        let factor := circumferentialFactor thickness xi3 kappa in
        let* d1n := index d1Inner n in
        let dx_ds1 := vmap (fun c => mul factor c) d1n in
        let dx_ds1List := dx_ds1List ++ [dx_ds1] in
        let* curvature := index curvatureAlong n in
        let* sxn2 := index sx n2 in
        let* distance :=
          magnitude (build3 (fun i => sub (comp x i) (comp sxn2 i))) in
        let factor := longitudinalFactor curvature distance in
        let* d2n := index d2Inner n in
        let dx_ds2 := vmap (fun c => mul factor c) d2n in
        let dx_ds2List := dx_ds2List ++ [dx_ds2] in
        let factorList := factorList ++ [factor] in
        let* dx_ds3 :=
          vmapM (fun c => truediv_int (mul c thickness)
                                      elementsCountThroughWall) norm in
        let dx_ds3List := dx_ds3List ++ [dx_ds3] in
        Ok (xList, dx_ds1List, dx_ds2List, dx_ds3List, factorList)))
    ([], [], [], [], []).

End Surfaces.

(** ** [generatetubemesh]: arguments, locals, result *)

Record Args : Type := {
  elementsCountAround : Z;
  elementsCountAlongSegment : Z;
  elementsCountThroughWall : Z;
  segmentCountAlong : Z;
  cx : list vec3;
  cd1 : list vec3;
  cd2 : list vec3;
  cd12 : list vec3;
  xInner : list vec3;
  d1Inner : list vec3;
  d2Inner : list vec3;
  wallThickness : float;
  segmentAxis : vec3;
  segmentLength : float;
  useCrossDerivatives : bool;
  useCubicHermiteThroughWall : bool;
  annotationGroups : list String.string;
  annotationArray : list String.string;
  transitElementList : list bool;
  uList : list float;
  arcLengthOuterMidLength : float;
  firstNodeIdentifier : Z;
  firstElementIdentifier : Z
}.

(** The locals of the frame alignment.  [rotFrame], [midRot] and
    [translateMatrix] are assigned inside the branches of the test on the
    cross product, [rotFrame2] at the first point of a rotated station;
    all four are unbound on entry. *)
Record Frame : Set := {
  rotFrame : option mat3;
  midRot : option vec3;
  translateMatrix : option vec3;
  rotFrame2 : option mat3
}.

(** The inner surface mapped onto the central line. *)
Record Inner : Set := {
  xInnerList : list vec3;
  d1InnerList : list vec3;
  d2InnerList : list vec3;
  d3InnerUnitList : list vec3
}.

(** The smoothed derivatives along the tube and the curvature of the
    central line. *)
Record Smooth : Set := {
  smoothd2Raw : list (list vec3);
  smoothd2InnerList : list vec3;
  curvatureAlong : list float
}.

(** The nodes of all layers through the wall.  [factorList] is first
    assigned inside the loop over the layers. *)
Record Wall : Set := {
  xList : list vec3;
  dx_ds1List : list vec3;
  dx_ds2List : list vec3;
  dx_ds3List : list vec3;
  factorList : option (list float)
}.

(** One call of [setNodeParameters] per value label is recorded as one
    entry per node (and version). *)
Record NodeParameters : Set := {
  np_identifier : Z;
  np_version : Z;
  np_value : vec3;
  np_d_ds1 : vec3;
  np_d_ds2 : vec3;
  np_d_ds3 : option vec3
}.

(** What the function writes to the Zinc region: the node parameters of
    the three coordinate fields, the elements with their node identifiers,
    the elements added to annotation groups and the elements merged with
    the open-tube template. *)
Record Region : Type := {
  coordinatesNodes : list NodeParameters;
  elements : list (Z * list Z);
  groupElements : list (String.string * Z);
  textureNodes : list NodeParameters;
  flatNodes : list NodeParameters;
  mergedElements : list (Z * bool * list Z)
}.

Record Locals : Type := {
  frame : Frame;
  inner : Inner;
  smooth : Smooth;
  wall : Wall;
  d1List : list vec3;
  nodeIdentifier : Z;
  elementIdentifier : Z;
  region : Region
}.

Definition with_frame (f : Frame) (L : Locals) : Locals :=
  {| frame := f; inner := inner L; smooth := smooth L; wall := wall L;
     d1List := d1List L; nodeIdentifier := nodeIdentifier L;
     elementIdentifier := elementIdentifier L; region := region L |}.

Definition with_inner (i : Inner) (L : Locals) : Locals :=
  {| frame := frame L; inner := i; smooth := smooth L; wall := wall L;
     d1List := d1List L; nodeIdentifier := nodeIdentifier L;
     elementIdentifier := elementIdentifier L; region := region L |}.

Definition with_smooth (s : Smooth) (L : Locals) : Locals :=
  {| frame := frame L; inner := inner L; smooth := s; wall := wall L;
     d1List := d1List L; nodeIdentifier := nodeIdentifier L;
     elementIdentifier := elementIdentifier L; region := region L |}.

Definition with_wall (w : Wall) (L : Locals) : Locals :=
  {| frame := frame L; inner := inner L; smooth := smooth L; wall := w;
     d1List := d1List L; nodeIdentifier := nodeIdentifier L;
     elementIdentifier := elementIdentifier L; region := region L |}.

Definition with_d1List (l : list vec3) (L : Locals) : Locals :=
  {| frame := frame L; inner := inner L; smooth := smooth L; wall := wall L;
     d1List := l; nodeIdentifier := nodeIdentifier L;
     elementIdentifier := elementIdentifier L; region := region L |}.

Definition with_nodeIdentifier (n : Z) (L : Locals) : Locals :=
  {| frame := frame L; inner := inner L; smooth := smooth L; wall := wall L;
     d1List := d1List L; nodeIdentifier := n;
     elementIdentifier := elementIdentifier L; region := region L |}.

Definition with_elementIdentifier (n : Z) (L : Locals) : Locals :=
  {| frame := frame L; inner := inner L; smooth := smooth L; wall := wall L;
     d1List := d1List L; nodeIdentifier := nodeIdentifier L;
     elementIdentifier := n; region := region L |}.

Definition with_region (r : Region) (L : Locals) : Locals :=
  {| frame := frame L; inner := inner L; smooth := smooth L; wall := wall L;
     d1List := d1List L; nodeIdentifier := nodeIdentifier L;
     elementIdentifier := elementIdentifier L; region := r |}.

(** The locals after the initialisations of lines 106-122. *)
Definition initialLocals (a : Args) : Locals :=
  {| frame := {| rotFrame := None; midRot := None;
                 translateMatrix := None; rotFrame2 := None |};
     inner := {| xInnerList := []; d1InnerList := []; d2InnerList := [];
                 d3InnerUnitList := [] |};
     smooth := {| smoothd2Raw := []; smoothd2InnerList := [];
                  curvatureAlong := [] |};
     wall := {| xList := []; dx_ds1List := []; dx_ds2List := [];
                dx_ds3List := []; factorList := None |};
     d1List := [];
     nodeIdentifier := firstNodeIdentifier a;
     elementIdentifier := firstElementIdentifier a;
     region := {| coordinatesNodes := []; elements := []; groupElements := [];
                  textureNodes := []; flatNodes := [];
                  mergedElements := [] |} |}.

(** The returned tuple
    [annotationGroups, nodeIdentifier, elementIdentifier, xList,
     dx_ds1List, dx_ds2List, dx_ds3List, sx, curvatureAlong, factorList],
    together with what was written to the region. *)
Record Output : Type := {
  out_annotationGroups : list String.string;
  out_nodeIdentifier : Z;
  out_elementIdentifier : Z;
  out_xList : list vec3;
  out_dx_ds1List : list vec3;
  out_dx_ds2List : list vec3;
  out_dx_ds3List : list vec3;
  out_sx : list vec3;
  out_curvatureAlong : list float;
  out_factorList : list float;
  out_region : Region
}.

(** ** [generatetubemesh]: the stages *)

Section Generate.

Context `{Imports}.

(** *** Mapping the faces of the segment profile to the central line
        (lines 124-181) *)

(** [newVector]: [sd2] projected onto the plane normal to the tangent
    through [midRot], as a vector from [midRot] (lines 153-157);
    [dist] is [vector.dotproduct(v, unitTangent)]. *)
Definition planarProjection (sd2n2 unitTangent midRot : vec3) (dist : float)
  : vec3 :=
  let pt := build3 (fun j => add (comp midRot j) (comp sd2n2 j)) in
  let ptOnPlane :=
    build3 (fun j => sub (comp pt j) (mul dist (comp unitTangent j))) in
  build3 (fun j => sub (comp ptOnPlane j) (comp midRot j)).

(** The rotation about the tangent that aligns the first point of a
    station with the projection of [sd2] onto the plane normal to [sd1]
    (the block under [if n1 == 0], lines 152-168). *)
Definition secondRotation (sd2n2 unitTangent midRot xRot1 : vec3)
  : result mat3 :=
  let v := sd2n2 in
  let* dist := dotproduct v unitTangent in
  let newVector := planarProjection sd2n2 unitTangent midRot dist in
  let* firstVector :=
    normalise (build3 (fun j => sub (comp xRot1 j) (comp midRot j))) in
  let* unitNew := normalise newVector in
  let* cosTheta := dotproduct unitNew firstVector in
  let* thetaRot2 := acos cosTheta in
  let* unitNew' := normalise newVector in
  let* cp2 := crossproduct3 unitNew' firstVector in
  let* m2 := magnitude cp2 in
  if gtb m2 zero then
    let* cp2 := normalise cp2 in
    let* signThetaRot2 := dotproduct unitTangent cp2 in
    let axisRot2 := unitTangent in
    getRotationMatrixFromAxisAngle axisRot2
      (mul (neg signThetaRot2) thetaRot2)
  else Ok identity3.

(** The body of [for n1 in range(elementsCountAround)] (lines 143-181). *)
Definition alignPoint (a : Args) (sd2 : list vec3) (unitTangent cp : vec3)
    (n2 nAlongSegment n1 : Z) (L : Locals) : result Locals :=
  let n := nAlongSegment * elementsCountAround a + n1 in
  let* x := index (xInner a) n in
  let* d1 := index (d1Inner a) n in
  let* d2 := index (d2Inner a) n in
  let* m := magnitude cp in
  let* '(xRot2, d1Rot2, d2Rot2, fr) :=
    if gtb m zero then
      let* rot := load (rotFrame (frame L)) in
      let xRot1 := matvec rot x in
      let d1Rot1 := matvec rot d1 in
      let d2Rot1 := matvec rot d2 in
      let* fr :=
        if n1 =? 0 then
          let* sd2n2 := index sd2 n2 in
          let* mid := load (midRot (frame L)) in
          let* rot2 := secondRotation sd2n2 unitTangent mid xRot1 in
          Ok {| rotFrame := rotFrame (frame L);
                midRot := midRot (frame L);
                translateMatrix := translateMatrix (frame L);
                rotFrame2 := Some rot2 |}
        else Ok (frame L) in
      let* rot2 := load (rotFrame2 fr) in
      Ok (matvec rot2 xRot1, matvec rot2 d1Rot1, matvec rot2 d2Rot1, fr)
    else Ok (x, d1, d2, frame L) in
  let* translate := load (translateMatrix fr) in
  let xTranslate :=
    build3 (fun j => add (comp xRot2 j) (comp translate j)) in
  let* u1 := normalise d1Rot2 in
  let* u2 := normalise d2Rot2 in
  let* c := crossproduct3 u1 u2 in
  let* d3Unit := normalise c in
  Ok (with_frame fr
       (with_inner
          {| xInnerList := xInnerList (inner L) ++ [xTranslate];
             d1InnerList := d1InnerList (inner L) ++ [d1Rot2];
             d2InnerList := d2InnerList (inner L) ++ [d2Rot2];
             d3InnerUnitList := d3InnerUnitList (inner L) ++ [d3Unit] |} L)).

(** The first rotation and the translation of one station (lines 133-140):
    only the branch of a non-zero cross product assigns
    [translateMatrix]. *)
Definition alignFrame (a : Args) (sx : list vec3)
    (segmentMid unitTangent cp : vec3) (n2 : Z) (fr : Frame)
  : result Frame :=
  let* m := magnitude cp in
  if gtb m zero then
    let* axisRot := normalise cp in
    let* cosTheta := dotproduct (segmentAxis a) unitTangent in
    let* thetaRot := acos cosTheta in
    let* rot := getRotationMatrixFromAxisAngle axisRot thetaRot in
    let mid := matvec rot segmentMid in
    let* sxn2 := index sx n2 in
    let translate := build3 (fun j => sub (comp sxn2 j) (comp mid j)) in
    Ok {| rotFrame := Some rot; midRot := Some mid;
          translateMatrix := Some translate; rotFrame2 := rotFrame2 fr |}
  else
    Ok {| rotFrame := rotFrame fr; midRot := Some segmentMid;
          translateMatrix := translateMatrix fr; rotFrame2 := rotFrame2 fr |}.

(** The body of [for nAlongSegment in range(elementsCountAlongSegment + 1)]
    (lines 127-181). *)
Definition alignStation (a : Args) (sx sd1 sd2 : list vec3)
    (nSegment nAlongSegment : Z) (L : Locals) : result Locals :=
  let n2 := nSegment * elementsCountAlongSegment a + nAlongSegment in
  if (nSegment =? 0) || ((nSegment >? 0) && (nAlongSegment >? 0)) then
    let* q := truediv_int (segmentLength a) (elementsCountAlongSegment a) in
    let* z := mul_int q nAlongSegment in
    let segmentMid := V3 zero zero z in
    let* sd1n2 := index sd1 n2 in
    let* unitTangent := normalise sd1n2 in
    let* cp := crossproduct3 (segmentAxis a) unitTangent in
    let* fr := alignFrame a sx segmentMid unitTangent cp n2 (frame L) in
    for_ (range (elementsCountAround a))
         (alignPoint a sd2 unitTangent cp n2 nAlongSegment)
         (with_frame fr L)
  else Ok L.

Definition mapFacesToCentralLine (a : Args) (sx sd1 sd2 : list vec3)
    (L : Locals) : result Locals :=
  for_ (range (segmentCountAlong a)) (fun nSegment =>
    for_ (range (elementsCountAlongSegment a + 1))
         (alignStation a sx sd1 sd2 nSegment)) L.

(** *** Smoothing the derivatives along the tube (lines 183-191) *)

(** [nx] and [nd2] of one angular index. *)
Definition gatherFiber (elementsCountAround elementsCountAlong n1 : Z)
    (i : Inner) : result (list vec3 * list vec3) :=
  for_ (range (elementsCountAlong + 1)) (fun n2 '(nx, nd2) =>
    let n := n2 * elementsCountAround + n1 in
    let* x := index (xInnerList i) n in
    let* d := index (d2InnerList i) n in
    Ok (nx ++ [x], nd2 ++ [d])) ([], []).

Definition smoothFiber (a : Args) (elementsCountAlong n1 : Z) (L : Locals)
  : result Locals :=
  let* '(nx, nd2) :=
    gatherFiber (elementsCountAround a) elementsCountAlong n1 (inner L) in
  let* smoothd2 := smoothCubicHermiteDerivativesLine nx nd2 in
  Ok (with_smooth
        {| smoothd2Raw := smoothd2Raw (smooth L) ++ [smoothd2];
           smoothd2InnerList := smoothd2InnerList (smooth L);
           curvatureAlong := curvatureAlong (smooth L) |} L).

Definition smoothDerivativesAlong (a : Args) (elementsCountAlong : Z)
    (L : Locals) : result Locals :=
  for_ (range (elementsCountAround a)) (smoothFiber a elementsCountAlong) L.

(** *** Curvature along the central line (lines 193-205) *)

Definition curvatureAt (sx sd1 : list vec3) (elementsCountAlong n2 : Z)
  : result float :=
  if n2 =? 0 then
    let* x0 := index sx n2 in
    let* t0 := index sd1 n2 in
    let* x1 := index sx (n2 + 1) in
    let* t1 := index sd1 (n2 + 1) in
    getCubicHermiteCurvatureSimple x0 t0 x1 t1 zero
  else if n2 =? elementsCountAlong then
    let* x0 := index sx (n2 - 1) in
    let* t0 := index sd1 (n2 - 1) in
    let* x1 := index sx n2 in
    let* t1 := index sd1 n2 in
    getCubicHermiteCurvatureSimple x0 t0 x1 t1 one
  else
    let* xm := index sx (n2 - 1) in
    let* tm := index sd1 (n2 - 1) in
    let* x0 := index sx n2 in
    let* t0 := index sd1 n2 in
    let* km := getCubicHermiteCurvatureSimple xm tm x0 t0 one in
    let* x0' := index sx n2 in
    let* t0' := index sd1 n2 in
    let* xp := index sx (n2 + 1) in
    let* tp := index sd1 (n2 + 1) in
    let* kp := getCubicHermiteCurvatureSimple x0' t0' xp tp zero in
    Ok (mul half (add km kp)).

Definition curvatureAlongLine (a : Args) (sx sd1 : list vec3)
    (elementsCountAlong : Z) (L : Locals) : result Locals :=
  for_ (range (elementsCountAlong + 1)) (fun n2 =>
    for_ (range (elementsCountAround a)) (fun n1 L =>
      let* fiber := index (smoothd2Raw (smooth L)) n1 in
      let* d2 := index fiber n2 in
      let* curvature := curvatureAt sx sd1 elementsCountAlong n2 in
      Ok (with_smooth
            {| smoothd2Raw := smoothd2Raw (smooth L);
               smoothd2InnerList := smoothd2InnerList (smooth L) ++ [d2];
               curvatureAlong := curvatureAlong (smooth L) ++ [curvature] |}
            L))) L.

(** *** Interpolating the nodes through the wall (lines 210-219) *)

(** One layer: [factorList] is assigned the list of this layer, the four
    other lists are extended. *)
Definition interpolateLayer (a : Args) (sx xOuterList : list vec3)
    (curvatureInner : list float) (elementsCountAlong n3 : Z) (L : Locals)
  : result Locals :=
  let* q := long_true_divide 1 (elementsCountThroughWall a) in
  let* xi3 := mul_int q n3 in
  let* '(x, dx_ds1, dx_ds2, dx_ds3, factors) :=
    interpolatefromInnerAndOuter
      (xInnerList (inner L)) xOuterList (wallThickness a) xi3 sx
      curvatureInner (curvatureAlong (smooth L))
      (d1InnerList (inner L)) (smoothd2InnerList (smooth L))
      (d3InnerUnitList (inner L))
      (elementsCountAround a) elementsCountAlong
      (elementsCountThroughWall a) in
  Ok (with_wall
        {| xList := xList (wall L) ++ x;
           dx_ds1List := dx_ds1List (wall L) ++ dx_ds1;
           dx_ds2List := dx_ds2List (wall L) ++ dx_ds2;
           dx_ds3List := dx_ds3List (wall L) ++ dx_ds3;
           factorList := Some factors |} L).

Definition interpolateThroughWall (a : Args) (sx xOuterList : list vec3)
    (curvatureInner : list float) (elementsCountAlong : Z) (L : Locals)
  : result Locals :=
  for_ (range (elementsCountThroughWall a + 1))
       (interpolateLayer a sx xOuterList curvatureInner elementsCountAlong) L.

(** *** Creating the nodes (lines 221-234) *)

Definition addCoordinatesNode (p : NodeParameters) (r : Region) : Region :=
  {| coordinatesNodes := coordinatesNodes r ++ [p];
     elements := elements r; groupElements := groupElements r;
     textureNodes := textureNodes r; flatNodes := flatNodes r;
     mergedElements := mergedElements r |}.

Definition createNodes (L : Locals) : result Locals :=
  for_ (range (Z.of_nat (length (xList (wall L))))) (fun n L =>
    let* x := index (xList (wall L)) n in
    let* d1 := index (dx_ds1List (wall L)) n in
    let* d2 := index (dx_ds2List (wall L)) n in
    let* d3 := index (dx_ds3List (wall L)) n in
    let p := {| np_identifier := nodeIdentifier L; np_version := 1;
                np_value := x; np_d_ds1 := d1; np_d_ds2 := d2;
                np_d_ds3 := Some d3 |} in
    Ok (with_nodeIdentifier (nodeIdentifier L + 1)
          (with_region (addCoordinatesNode p (region L)) L))) L.

(** *** Creating the elements (lines 246-264) *)

(** The eight node identifiers of element [(e3, e2, e1)]. *)
Definition elementNodeIdentifiers (elementsCountAround now e3 e2 e1 : Z)
  : result (list Z) :=
  let* w := mod_ (e1 + 1) elementsCountAround in
  let bni11 := e3 * now + e2 * elementsCountAround + e1 + 1 in
  let bni12 := e3 * now + e2 * elementsCountAround + w + 1 in
  let* w' := mod_ (e1 + 1) elementsCountAround in
  let bni21 := e3 * now + (e2 + 1) * elementsCountAround + e1 + 1 in
  let bni22 := e3 * now + (e2 + 1) * elementsCountAround + w' + 1 in
  Ok [bni11; bni12; bni21; bni22;
      bni11 + now; bni12 + now; bni21 + now; bni22 + now].

Definition addElement (e : Z * list Z) (groups : list (String.string * Z))
    (r : Region) : Region :=
  {| coordinatesNodes := coordinatesNodes r;
     elements := elements r ++ [e];
     groupElements := groupElements r ++ groups;
     textureNodes := textureNodes r; flatNodes := flatNodes r;
     mergedElements := mergedElements r |}.

(** [for annotationGroup in annotationGroups:
       if annotationArray[e1] == annotationGroup._name: ...] *)
Fixpoint annotate (groups : list String.string)
    (annotationArray : list String.string) (e1 elementIdentifier : Z)
  : result (list (String.string * Z)) :=
  match groups with
  | [] => Ok []
  | g :: groups' =>
      let* name := index annotationArray e1 in
      let* rest := annotate groups' annotationArray e1 elementIdentifier in
      Ok (if String.eqb name g then (g, elementIdentifier) :: rest else rest)
  end.

Definition createElements (a : Args) (elementsCountAlong : Z) (L : Locals)
  : result Locals :=
  let L := with_elementIdentifier (firstElementIdentifier a) L in
  let now := (elementsCountAlong + 1) * elementsCountAround a in
  for_ (range (elementsCountThroughWall a)) (fun e3 =>
    for_ (range elementsCountAlong) (fun e2 =>
      for_ (range (elementsCountAround a)) (fun e1 L =>
        let* ids := elementNodeIdentifiers (elementsCountAround a) now
                                           e3 e2 e1 in
        let* groups :=
          annotate (annotationGroups a) (annotationArray a) e1
                   (elementIdentifier L) in
        Ok (with_elementIdentifier (elementIdentifier L + 1)
              (with_region
                 (addElement (elementIdentifier L, ids) groups (region L))
                 L))))) L.

(** *** Texture and flat coordinates (lines 296-402) *)

(** The derivative around of the unwrapped coordinates: the difference of
    [uList] over the interval before node [n1] (after it for the first
    node), scaled by [scale] (nothing for the texture coordinates,
    [* arcLengthOuterMidLength] for the flat coordinates). *)
Definition derivativesAround (scale : float -> float) (uList : list float)
    (d1List : list vec3) : result (list vec3) :=
  for_ (range (Z.of_nat (length uList))) (fun n1 d1List =>
    let* du :=
      if n1 >? 0 then
        let* u := index uList n1 in
        let* uPrev := index uList (n1 - 1) in
        Ok (scale (sub u uPrev))
      else
        let* uNext := index uList (n1 + 1) in
        let* u := index uList n1 in
        Ok (scale (sub uNext u)) in
    Ok (d1List ++ [V3 du zero zero])) d1List.

(** [for i in range(len(transitElementList)):
       if transitElementList[i]: d1List[i+1] = d1List[i+2]] *)
Definition modifyTransitionDerivatives (transitElementList : list bool)
    (d1List : list vec3) : result (list vec3) :=
  for_ (range (Z.of_nat (length transitElementList))) (fun i d1List =>
    let* t := index transitElementList i in
    if t then
      let* d := index d1List (i + 2) in
      store d1List (i + 1) d
    else Ok d1List) d1List.

Definition addTextureNode (p : NodeParameters) (r : Region) : Region :=
  {| coordinatesNodes := coordinatesNodes r; elements := elements r;
     groupElements := groupElements r;
     textureNodes := textureNodes r ++ [p]; flatNodes := flatNodes r;
     mergedElements := mergedElements r |}.

Definition addFlatNode (p : NodeParameters) (r : Region) : Region :=
  {| coordinatesNodes := coordinatesNodes r; elements := elements r;
     groupElements := groupElements r;
     textureNodes := textureNodes r; flatNodes := flatNodes r ++ [p];
     mergedElements := mergedElements r |}.

Definition textureCoordinates (a : Args) (elementsCountAlong : Z)
    (L : Locals) : result Locals :=
  let* dv := truediv_int one elementsCountAlong in
  let d2 := V3 zero dv zero in
  let* l := derivativesAround (fun d => d) (uList a) (d1List L) in
  let L := with_d1List l L in
  let* l := modifyTransitionDerivatives (transitElementList a) (d1List L) in
  let L := with_d1List l L in
  let L := with_nodeIdentifier (firstNodeIdentifier a) L in
  for_ (range (elementsCountThroughWall a + 1)) (fun n3 =>
    for_ (range (elementsCountAlong + 1)) (fun n2 =>
      for_ (range (elementsCountAround a)) (fun n1 L =>
        let* u0 := index (uList a) n1 in
        let* q2 := truediv_int one elementsCountAlong in
        let* u1 := mul_int q2 n2 in
        let* q3 := truediv_int one (elementsCountThroughWall a) in
        let* u2 := mul_int q3 n3 in
        let u := V3 u0 u1 u2 in
        let* d1 := index (d1List L) n1 in
        let p1 := {| np_identifier := nodeIdentifier L; np_version := 1;
                     np_value := u; np_d_ds1 := d1; np_d_ds2 := d2;
                     np_d_ds3 := None |} in
        let r := addTextureNode p1 (region L) in
        let* r :=
          if n1 =? 0 then
            let* q2 := truediv_int one elementsCountAlong in
            let* u1 := mul_int q2 n2 in
            let* q3 := truediv_int one (elementsCountThroughWall a) in
            let* u2 := mul_int q3 n3 in
            let u := V3 one u1 u2 in
            let* d1 := index (d1List L) (-1) in
            Ok (addTextureNode
                  {| np_identifier := nodeIdentifier L; np_version := 2;
                     np_value := u; np_d_ds1 := d1; np_d_ds2 := d2;
                     np_d_ds3 := None |} r)
          else Ok r in
        Ok (with_nodeIdentifier (nodeIdentifier L + 1)
              (with_region r L))))) L.

Definition flatCoordinates (a : Args) (elementsCountAlong : Z)
    (L : Locals) : result Locals :=
  let* totalLengthAlong :=
    mul_int (segmentLength a) (segmentCountAlong a) in
  let* dv := truediv_int totalLengthAlong elementsCountAlong in
  let d2 := V3 zero dv zero in
  let L := with_d1List [] L in
  let* l :=
    derivativesAround (fun d => mul d (arcLengthOuterMidLength a))
                      (uList a) (d1List L) in
  let L := with_d1List l L in
  let* l := modifyTransitionDerivatives (transitElementList a) (d1List L) in
  let L := with_d1List l L in
  let L := with_nodeIdentifier (firstNodeIdentifier a) L in
  for_ (range (elementsCountThroughWall a + 1)) (fun n3 =>
    for_ (range (elementsCountAlong + 1)) (fun n2 =>
      for_ (range (elementsCountAround a)) (fun n1 L =>
        let* u0 := index (uList a) n1 in
        let* q2 := truediv_int totalLengthAlong elementsCountAlong in
        let* x1 := mul_int q2 n2 in
        let* q3 :=
          truediv_int (wallThickness a) (elementsCountThroughWall a) in
        let* x2 := mul_int q3 n3 in
        let x := V3 (mul u0 (arcLengthOuterMidLength a)) x1 x2 in
        let* d1 := index (d1List L) n1 in
        let p1 := {| np_identifier := nodeIdentifier L; np_version := 1;
                     np_value := x; np_d_ds1 := d1; np_d_ds2 := d2;
                     np_d_ds3 := None |} in
        let r := addFlatNode p1 (region L) in
        let* r :=
          if n1 =? 0 then
            let* q2 := truediv_int totalLengthAlong elementsCountAlong in
            let* x1 := mul_int q2 n2 in
            let* q3 :=
              truediv_int (wallThickness a) (elementsCountThroughWall a) in
            let* x2 := mul_int q3 n3 in
            let x := V3 (arcLengthOuterMidLength a) x1 x2 in
            let* d1 := index (d1List L) (-1) in
            Ok (addFlatNode
                  {| np_identifier := nodeIdentifier L; np_version := 2;
                     np_value := x; np_d_ds1 := d1; np_d_ds2 := d2;
                     np_d_ds3 := None |} r)
          else Ok r in
        Ok (with_nodeIdentifier (nodeIdentifier L + 1)
              (with_region r L))))) L.

(** *** The unwrapped fields over the elements (lines 404-421) *)

Definition addMergedElement (e : Z * bool * list Z) (r : Region) : Region :=
  {| coordinatesNodes := coordinatesNodes r; elements := elements r;
     groupElements := groupElements r;
     textureNodes := textureNodes r; flatNodes := flatNodes r;
     mergedElements := mergedElements r ++ [e] |}.

Definition mergeElements (a : Args) (elementsCountAlong : Z) (L : Locals)
  : result Locals :=
  let L := with_elementIdentifier (firstElementIdentifier a) L in
  let now := (elementsCountAlong + 1) * elementsCountAround a in
  for_ (range (elementsCountThroughWall a)) (fun e3 =>
    for_ (range elementsCountAlong) (fun e2 =>
      for_ (range (elementsCountAround a)) (fun e1 L =>
        let onOpening := e1 >? elementsCountAround a - 2 in
        let* ids := elementNodeIdentifiers (elementsCountAround a) now
                                           e3 e2 e1 in
        Ok (with_elementIdentifier (elementIdentifier L + 1)
              (with_region
                 (addMergedElement (elementIdentifier L, onOpening, ids)
                                   (region L)) L))))) L.

(** *** The function *)

Definition generatetubemesh (a : Args) : result Output :=
  let elementsCountAlong :=
    elementsCountAlongSegment a * segmentCountAlong a in
  let* '(sx, sd1, se, sxi, ssf) :=
    sampleCubicHermiteCurves (cx a) (cd1 a) elementsCountAlong in
  let* '(sd2, _) :=
    interpolateSampleCubicHermite (cd2 a) (cd12 a) se sxi ssf in
  let L := initialLocals a in
  let* L := mapFacesToCentralLine a sx sd1 sd2 L in
  let* L := smoothDerivativesAlong a elementsCountAlong L in
  let* L := curvatureAlongLine a sx sd1 elementsCountAlong L in
  let* '(xOuterList, curvatureInner) :=
    getOuterCoordinatesAndCurvatureFromInner
      (xInnerList (inner L)) (d1InnerList (inner L))
      (d3InnerUnitList (inner L)) (wallThickness a) elementsCountAlong
      (elementsCountAround a) (transitElementList a) in
  let* L :=
    interpolateThroughWall a sx xOuterList curvatureInner
                           elementsCountAlong L in
  let* L := createNodes L in
  let* L := createElements a elementsCountAlong L in
  let* L := textureCoordinates a elementsCountAlong L in
  let* L := flatCoordinates a elementsCountAlong L in
  let* L := mergeElements a elementsCountAlong L in
  let* factors := load (factorList (wall L)) in
  Ok {| out_annotationGroups := annotationGroups a;
        out_nodeIdentifier := nodeIdentifier L;
        out_elementIdentifier := elementIdentifier L;
        out_xList := xList (wall L);
        out_dx_ds1List := dx_ds1List (wall L);
        out_dx_ds2List := dx_ds2List (wall L);
        out_dx_ds3List := dx_ds3List (wall L);
        out_sx := sx;
        out_curvatureAlong := curvatureAlong (smooth L);
        out_factorList := factors;
        out_region := region L |}.

End Generate.

(** * The imported functions, modelled

    The module [Model] gives one instance of [Imports], used to run the
    functions on concrete inputs.  The theorems below hold for every
    instance; only the statements that name [modelImports] depend on
    it. *)

Module Model.

(** Modelled from the spec: [vector.crossproduct3], the cross product of
    two 3-vectors (the source of [scaffoldmaker.utils.vector] is not part
    of the files at hand). *)
Definition crossproduct3 (a b : vec3) : vec3 :=
  V3 (sub (mul (c1 a) (c2 b)) (mul (c2 a) (c1 b)))
     (sub (mul (c2 a) (c0 b)) (mul (c0 a) (c2 b)))
     (sub (mul (c0 a) (c1 b)) (mul (c1 a) (c0 b))).

(** Modelled from the spec: [vector.dotproduct], the dot product. *)
Definition dotproduct (a b : vec3) : float :=
  add (add (mul (c0 a) (c0 b)) (mul (c1 a) (c1 b))) (mul (c2 a) (c2 b)).

(** Modelled from the spec: [vector.magnitude], the Euclidean length. *)
Definition magnitude (v : vec3) : float := sqrt (dotproduct v v).

(** Modelled from the spec: [vector.normalise], the vector divided by its
    length; the division raises for a vector of length zero. *)
Definition normalise (v : vec3) : result vec3 :=
  let mag := magnitude v in
  vmapM (fun c => truediv c mag) v.

(** The combination [f1*v1 + f2*d1 + f3*v2 + f4*d2] of a cubic Hermite
    curve, component by component. *)
Definition hermiteCombination (f1 f2 f3 f4 : float) (v1 d1 v2 d2 : vec3)
  : vec3 :=
  build3 (fun i =>
    add (add (add (mul f1 (comp v1 i)) (mul f2 (comp d1 i)))
             (mul f3 (comp v2 i)))
        (mul f4 (comp d2 i))).

(** Modelled from the spec: [interp.interpolateCubicHermite], the point at
    [xi] of the cubic Hermite curve from [v1] to [v2] with the
    derivatives [d1] and [d2] at its ends. *)
Definition interpolateCubicHermite (v1 d1 v2 d2 : vec3) (xi : float)
  : vec3 :=
  let xi2 := mul xi xi in
  let xi3 := mul xi2 xi in
  let f1 := add (sub one (mul three xi2)) (mul two xi3) in
  let f2 := add (sub xi (mul two xi2)) xi3 in
  let f3 := sub (mul three xi2) (mul two xi3) in
  let f4 := add (neg xi2) xi3 in
  hermiteCombination f1 f2 f3 f4 v1 d1 v2 d2.

(** Modelled from the spec: the derivative of that curve with respect to
    [xi] (the tangent, not normalised). *)
Definition interpolateCubicHermiteDerivative (v1 d1 v2 d2 : vec3)
    (xi : float) : vec3 :=
  let xi2 := mul xi xi in
  let six := of_int 6 in
  let f1 := add (mul (neg six) xi) (mul six xi2) in
  let f2 := add (sub one (mul (of_int 4) xi)) (mul three xi2) in
  let f3 := sub (mul six xi) (mul six xi2) in
  let f4 := add (mul (neg two) xi) (mul three xi2) in
  hermiteCombination f1 f2 f3 f4 v1 d1 v2 d2.

(** Modelled from the spec: the second derivative of that curve. *)
Definition interpolateCubicHermiteSecondDerivative (v1 d1 v2 d2 : vec3)
    (xi : float) : vec3 :=
  let six := of_int 6 in
  let f1 := add (neg six) (mul (of_int 12) xi) in
  let f2 := add (neg (of_int 4)) (mul six xi) in
  let f3 := sub six (mul (of_int 12) xi) in
  let f4 := add (neg two) (mul six xi) in
  hermiteCombination f1 f2 f3 f4 v1 d1 v2 d2.

(** Modelled from the spec: [interp.getCubicHermiteCurvatureSimple], the
    curvature of the cubic Hermite curve at [xi], the length of the cross
    product of the first and second derivative over the cube of the
    length of the first. *)
Definition getCubicHermiteCurvatureSimple (v1 d1 v2 d2 : vec3) (xi : float)
  : result float :=
  let tangent := interpolateCubicHermiteDerivative v1 d1 v2 d2 xi in
  let dTangent := interpolateCubicHermiteSecondDerivative v1 d1 v2 d2 xi in
  let cp := crossproduct3 tangent dTangent in
  let mag := magnitude tangent in
  truediv (magnitude cp) (mul (mul mag mag) mag).

(** Modelled from the spec: [interp.sampleCubicHermiteCurves], the Curve
    Sampler of section 4.1.  The curve through the points [cx] with the
    derivatives [cd1] is resampled at [elementsCountOut + 1] stations,
    uniformly distributed by the curve's own parametrization: station [k]
    lies at the fraction [k / elementsCountOut] of the input elements.
    The tangent of a station is the derivative of the curve there with
    respect to the parameter of the output elements; it is not
    normalised.  Returned with the positions and tangents are, for each
    station, the input element, the [xi] within it and the scale factor
    of the derivative.  (The arc-length iteration of the library is not
    described by the spec and not modelled.) *)
Definition sampleStation (cx cd1 : list vec3) (elementsCountOut k : Z)
  : result (vec3 * vec3 * Z * float * float) :=
  let elementsCountIn := Z.of_nat (length cx) - 1 in
  let* scale := int_truediv elementsCountIn elementsCountOut in
  let e := if k * elementsCountIn / elementsCountOut <? elementsCountIn
           then k * elementsCountIn / elementsCountOut
           else elementsCountIn - 1 in
  let* xi :=
    if k * elementsCountIn / elementsCountOut <? elementsCountIn
    then int_truediv ((k * elementsCountIn) mod elementsCountOut)
                     elementsCountOut
    else Ok one in
  let* v1 := index cx e in
  let* d1 := index cd1 e in
  let* v2 := index cx (e + 1) in
  let* d2 := index cd1 (e + 1) in
  let x := interpolateCubicHermite v1 d1 v2 d2 xi in
  let d := vmap (fun c => mul scale c)
                (interpolateCubicHermiteDerivative v1 d1 v2 d2 xi) in
  Ok (x, d, e, xi, scale).

Definition sampleCubicHermiteCurves (cx cd1 : list vec3)
    (elementsCountOut : Z)
  : result (list vec3 * list vec3 * list Z * list float * list float) :=
  for_ (range (elementsCountOut + 1))
    (fun k '(sx, sd1, se, sxi, ssf) =>
       let* '(x, d, e, xi, scale) :=
         sampleStation cx cd1 elementsCountOut k in
       Ok (sx ++ [x], sd1 ++ [d], se ++ [e], sxi ++ [xi], ssf ++ [scale]))
    ([], [], [], [], []).

(** Modelled from the spec: [interp.interpolateSampleCubicHermite], which
    interpolates a second field (here the cross direction [cd2] with its
    rate of change [cd12]) at the stations found by the sampler. *)
Definition interpolateSampleCubicHermite (v d : list vec3) (se : list Z)
    (sxi ssf : list float) : result (list vec3 * list vec3) :=
  for_ (range (Z.of_nat (length se)))
    (fun k '(sv, sd) =>
       let* e := index se k in
       let* xi := index sxi k in
       let* scale := index ssf k in
       let* v1 := index v e in
       let* d1 := index d e in
       let* v2 := index v (e + 1) in
       let* d2 := index d (e + 1) in
       Ok (sv ++ [interpolateCubicHermite v1 d1 v2 d2 xi],
           sd ++ [vmap (fun c => mul scale c)
                       (interpolateCubicHermiteDerivative v1 d1 v2 d2 xi)]))
    ([], []).

(** Modelled from the spec: [interp.smoothCubicHermiteDerivativesLine],
    the Derivative Smoother of section 4.3: a derivative for every point
    of the fiber, the end points from the one segment they have, the
    interior points from the two neighbouring segments (their mean).  A
    fiber of fewer than two points keeps its derivatives.  (The
    iteration of the library is not described by the spec and not
    modelled.) *)
Definition smoothCubicHermiteDerivativesLine (nx nd1 : list vec3)
  : result (list vec3) :=
  let count := Z.of_nat (length nx) in
  if count <? 2 then Ok nd1
  else
    for_ (range count)
      (fun n md1 =>
         let* lo := index nx (if n =? 0 then n else n - 1) in
         let* hi := index nx (if n =? count - 1 then n else n + 1) in
         let w := if (n =? 0) || (n =? count - 1) then one else half in
         Ok (md1 ++ [build3 (fun i =>
                       mul w (sub (comp hi i) (comp lo i)))]))
      [].

(** The partial sums of the power series of the cosine (from [k = 0],
    [term = 1]) and the sine (from [k = 1], [term = x]). *)
Fixpoint powerSeries (n : nat) (k : Z) (term acc x2 : float) : float :=
  match n with
  | O => acc
  | S n' =>
      let term' := neg (div (mul term x2) (of_int ((k + 1) * (k + 2)))) in
      powerSeries n' (k + 2) term' (add acc term') x2
  end.

Definition cos (x : float) : float := powerSeries 14 0 one one (mul x x).
Definition sin (x : float) : float := powerSeries 14 1 x x (mul x x).

Definition pi : float :=
  Eval cbv in div (of_int 884279719003555) (of_int 281474976710656).

(** The angle of [0, pi] whose cosine is [x], by bisection. *)
Fixpoint bisectAcos (n : nat) (lo hi x : float) : float :=
  let mid := mul half (add lo hi) in
  match n with
  | O => mid
  | S n' =>
      if gtb (cos mid) x then bisectAcos n' mid hi x
      else bisectAcos n' lo mid x
  end.

(** [math.acos]: a NaN for a NaN, [ValueError] outside [-1, 1]; inside,
    the value is computed by bisection on the series of the cosine and
    stands for the one of the C library. *)
Definition acos (x : float) : result float :=
  if is_nan x then Ok x
  else if leb (neg one) x && leb x one
       then Ok (bisectAcos 60 zero pi x)
       else Raise ValueError.

(** Modelled from the spec: [matrix.getRotationMatrixFromAxisAngle], the
    matrix of the rotation by the angle [theta] about the unit vector
    [axis] (the sine and cosine are those of the series above). *)
Definition getRotationMatrixFromAxisAngle (axis : vec3) (theta : float)
  : mat3 :=
  let c := cos theta in
  let s := sin theta in
  let t := sub one c in
  let x := c0 axis in
  let y := c1 axis in
  let z := c2 axis in
  M3 (V3 (add c (mul t (mul x x)))
         (sub (mul t (mul x y)) (mul s z))
         (add (mul t (mul x z)) (mul s y)))
     (V3 (add (mul t (mul y x)) (mul s z))
         (add c (mul t (mul y y)))
         (sub (mul t (mul y z)) (mul s x)))
     (V3 (sub (mul t (mul z x)) (mul s y))
         (add (mul t (mul z y)) (mul s x))
         (add c (mul t (mul z z)))).

End Model.

(** The instance of [Imports] made of these functions. *)
#[export] Instance modelImports : Imports := {|
  sampleCubicHermiteCurves := Model.sampleCubicHermiteCurves;
  interpolateSampleCubicHermite := Model.interpolateSampleCubicHermite;
  smoothCubicHermiteDerivativesLine :=
    Model.smoothCubicHermiteDerivativesLine;
  getCubicHermiteCurvatureSimple := Model.getCubicHermiteCurvatureSimple;
  interpolateCubicHermite :=
    fun v1 d1 v2 d2 xi => Ok (Model.interpolateCubicHermite v1 d1 v2 d2 xi);
  normalise := Model.normalise;
  crossproduct3 := fun a b => Ok (Model.crossproduct3 a b);
  magnitude := fun v => Ok (Model.magnitude v);
  dotproduct := fun a b => Ok (Model.dotproduct a b);
  getRotationMatrixFromAxisAngle :=
    fun axis theta =>
      Ok (Model.getRotationMatrixFromAxisAngle axis theta);
  acos := Model.acos
|}.

(** * Concrete inputs

    Small inputs on which the functions are run with [modelImports]. *)

Module Example.

Definition v3 (a b c : Z) : vec3 := V3 (of_int a) (of_int b) (of_int c).

(** The four points of a ring of radius 1 about the z axis, their
    derivatives around the ring (the third one of length 2) and their
    outward unit normals. *)
Definition ringX : list vec3 :=
  [v3 1 0 0; v3 0 1 0; v3 (-1) 0 0; v3 0 (-1) 0].
Definition ringD1 : list vec3 :=
  [v3 0 1 0; v3 (-1) 0 0; v3 0 (-2) 0; v3 1 0 0].
Definition ringD3 : list vec3 := ringX.

(** The interval from the second to the third point is a transition. *)
Definition ringTransit : list bool := [false; true; false; false].

(** The outer ring and the curvature for a wall of thickness [0.5]. *)
Definition ringOuter : list vec3 * list float :=
  Eval vm_compute in
    match getOuterCoordinatesAndCurvatureFromInner
            ringX ringD1 ringD3 half 0 4 ringTransit with
    | Ok out => out
    | Raise _ => ([], [])
    end.

(** One vertex at distance 1 from the central line, a wall of thickness
    zero, the curvature [2.0] around and [1.0] along. *)
Definition flatLayer
  : result (list vec3 * list vec3 * list vec3 * list vec3 * list float) :=
  interpolatefromInnerAndOuter
    [v3 1 0 0] [v3 1 0 0] zero half [v3 0 0 0] [two] [one]
    [v3 0 1 0] [v3 0 0 1] [v3 1 0 0] 1 0 1.

Definition flatLayerLists
  : list vec3 * list vec3 * list vec3 * list vec3 * list float :=
  Eval vm_compute in
    match flatLayer with
    | Ok out => out
    | Raise _ => ([], [], [], [], [])
    end.

(** The locals after two stations of two points each have been mapped
    onto a central line: the points of the second station lie 1 further
    along x; the derivatives along are not yet smoothed. *)
Definition twoFibers : Locals :=
  with_inner
    {| xInnerList := [v3 0 1 0; v3 0 (-1) 0; v3 1 1 0; v3 1 (-1) 0];
       d1InnerList := [v3 0 0 1; v3 0 0 (-1); v3 0 0 1; v3 0 0 (-1)];
       d2InnerList := [v3 3 0 0; v3 3 0 0; v3 5 0 0; v3 5 0 0];
       d3InnerUnitList := [v3 0 1 0; v3 0 (-1) 0; v3 0 1 0; v3 0 (-1) 0] |}
    {| frame := {| rotFrame := None; midRot := None;
                   translateMatrix := None; rotFrame2 := None |};
       inner := {| xInnerList := []; d1InnerList := []; d2InnerList := [];
                   d3InnerUnitList := [] |};
       smooth := {| smoothd2Raw := []; smoothd2InnerList := [];
                    curvatureAlong := [] |};
       wall := {| xList := []; dx_ds1List := []; dx_ds2List := [];
                  dx_ds3List := []; factorList := None |};
       d1List := []; nodeIdentifier := 1; elementIdentifier := 1;
       region := {| coordinatesNodes := []; elements := [];
                    groupElements := []; textureNodes := [];
                    flatNodes := []; mergedElements := [] |} |}.

(** The arguments of a call with two points around and one element
    along; only the counts matter to the smoothing. *)
Definition twoFibersArgs : Args :=
  {| elementsCountAround := 2; elementsCountAlongSegment := 1;
     elementsCountThroughWall := 1; segmentCountAlong := 1;
     cx := []; cd1 := []; cd2 := []; cd12 := [];
     xInner := []; d1Inner := []; d2Inner := [];
     wallThickness := half; segmentAxis := v3 0 0 1; segmentLength := one;
     useCrossDerivatives := false; useCubicHermiteThroughWall := true;
     annotationGroups := []; annotationArray := [];
     transitElementList := [false; false]; uList := [zero; half; one];
     arcLengthOuterMidLength := one;
     firstNodeIdentifier := 1; firstElementIdentifier := 1 |}.

Definition twoFibersSmoothed : Locals :=
  Eval vm_compute in
    match smoothDerivativesAlong twoFibersArgs 1 twoFibers with
    | Ok L => L
    | Raise _ => twoFibers
    end.

(** The second rotation of a station whose first point lies where the
    projection of the cross direction points: the tangent along x, the
    cross direction along y, the first rotated point on the y axis. *)
Definition alignedSecondRotation : result mat3 :=
  secondRotation (v3 0 1 0) (v3 1 0 0) (v3 0 0 0) (v3 0 2 0).

(** The second rotation of a station whose first rotated point and cross
    direction are both (3, 3, 0), with the tangent along z and the centre
    at the origin: the two unit vectors of the block are equal. *)
Definition parallelSecondRotation : result mat3 :=
  secondRotation (v3 3 3 0) (v3 0 0 1) (v3 0 0 0) (v3 3 3 0).

(** [vector.normalise([3, 3, 0])], the unit vector of both. *)
Definition parallelUnit : vec3 :=
  Eval vm_compute in
    match normalise (v3 3 3 0) with Ok u => u | Raise _ => v3 0 0 0 end.

(** The dot product of that unit vector with itself, the argument of
    [math.acos]: 1.0000000000000002. *)
Definition parallelCosine : float :=
  Eval vm_compute in
    match dotproduct parallelUnit parallelUnit with
    | Ok c => c
    | Raise _ => zero
    end.

(** A tube of four points around, two segments of one element each and one
    element through the wall, along a straight central line from the
    origin in the direction [direction], with the segment axis along z.
    The profile is a ring of radius 1 about the z axis at z = 0 and
    z = 1. *)
Definition straightTube (origin direction : vec3) : Args :=
  {| elementsCountAround := 4; elementsCountAlongSegment := 1;
     elementsCountThroughWall := 1; segmentCountAlong := 2;
     cx := [origin;
            build3 (fun i => add (comp origin i) (comp direction i))];
     cd1 := [direction; direction];
     cd2 := [v3 0 1 0; v3 0 1 0]; cd12 := [v3 0 0 0; v3 0 0 0];
     xInner := [v3 1 0 0; v3 0 1 0; v3 (-1) 0 0; v3 0 (-1) 0;
                v3 1 0 1; v3 0 1 1; v3 (-1) 0 1; v3 0 (-1) 1];
     d1Inner := [v3 0 1 0; v3 (-1) 0 0; v3 0 (-1) 0; v3 1 0 0;
                 v3 0 1 0; v3 (-1) 0 0; v3 0 (-1) 0; v3 1 0 0];
     d2Inner := [v3 0 0 1; v3 0 0 1; v3 0 0 1; v3 0 0 1;
                 v3 0 0 1; v3 0 0 1; v3 0 0 1; v3 0 0 1];
     wallThickness := half;
     segmentAxis := v3 0 0 1; segmentLength := one;
     useCrossDerivatives := false; useCubicHermiteThroughWall := true;
     annotationGroups := []; annotationArray := [];
     transitElementList := [false; false; false; false];
     uList := [zero; div one (of_int 4); half; div three (of_int 4); one];
     arcLengthOuterMidLength := of_int 8;
     firstNodeIdentifier := 1; firstElementIdentifier := 1 |}.

(** The central line along x: every station is rotated. *)
Definition tubeAlongX : Args := straightTube (v3 0 0 0) (v3 2 0 0).

(** The central line along z, the segment axis: no station is rotated. *)
Definition tubeAlongAxis : Args := straightTube (v3 0 0 0) (v3 0 0 2).

(** A central line of one element that leaves [(5, 0, 0)] along x and
    arrives at [(6, 0, 1)] along z: the first station is rotated, the
    tangent of the second is the segment axis. *)
Definition bentTube : Args :=
  {| elementsCountAround := 4; elementsCountAlongSegment := 1;
     elementsCountThroughWall := 1; segmentCountAlong := 1;
     cx := [v3 5 0 0; v3 6 0 1];
     cd1 := [v3 2 0 0; v3 0 0 2];
     cd2 := [v3 0 1 0; v3 0 1 0]; cd12 := [v3 0 0 0; v3 0 0 0];
     xInner := xInner tubeAlongX; d1Inner := d1Inner tubeAlongX;
     d2Inner := d2Inner tubeAlongX;
     wallThickness := half;
     segmentAxis := v3 0 0 1; segmentLength := one;
     useCrossDerivatives := false; useCubicHermiteThroughWall := true;
     annotationGroups := []; annotationArray := [];
     transitElementList := [false; false; false; false];
     uList := uList tubeAlongX;
     arcLengthOuterMidLength := of_int 8;
     firstNodeIdentifier := 1; firstElementIdentifier := 1 |}.

(** The inner surface of [bentTube] mapped onto its central line. *)
Definition bentTubeMapped : result Locals :=
  let* '(sx, sd1, se, sxi, ssf) :=
    sampleCubicHermiteCurves (cx bentTube) (cd1 bentTube) 1 in
  let* '(sd2, _) :=
    interpolateSampleCubicHermite (cd2 bentTube) (cd12 bentTube)
                                  se sxi ssf in
  mapFacesToCentralLine bentTube sx sd1 sd2 (initialLocals bentTube).

(** A tube like [tubeAlongX] along a central line that turns from the
    x direction to the y direction in the plane normal to the segment
    axis: its curvature is not zero and no tangent is along the axis. *)
Definition curvedTube : Args :=
  {| elementsCountAround := 4; elementsCountAlongSegment := 1;
     elementsCountThroughWall := 1; segmentCountAlong := 2;
     cx := [v3 0 0 0; v3 2 2 0];
     cd1 := [v3 4 0 0; v3 0 4 0];
     cd2 := [v3 0 0 1; v3 0 0 1]; cd12 := [v3 0 0 0; v3 0 0 0];
     xInner := xInner tubeAlongX; d1Inner := d1Inner tubeAlongX;
     d2Inner := d2Inner tubeAlongX;
     wallThickness := half;
     segmentAxis := v3 0 0 1; segmentLength := one;
     useCrossDerivatives := false; useCubicHermiteThroughWall := true;
     annotationGroups := []; annotationArray := [];
     transitElementList := [false; false; false; false];
     uList := uList tubeAlongX;
     arcLengthOuterMidLength := of_int 8;
     firstNodeIdentifier := 1; firstElementIdentifier := 1 |}.


(** Five parameters around, of four intervals of unequal width, and the
    flags of the intervals: the first two are transitions. *)
Definition unevenU : list float :=
  [zero; div one (of_int 8); div three (of_int 8); half; one].
Definition twoTransitions : list bool := [true; true; false; false].

(** The claim's reading of the pass over the flags, for comparison with
    what the code does: the interval after [i] that is not a transition,
    skipping the flagged ones. *)
Fixpoint nextUnflagged (fuel : nat) (transit : list bool) (j : Z)
  : option Z :=
  match fuel with
  | O => None
  | S fuel' =>
      match index transit j with
      | Ok false => Some j
      | Ok true => nextUnflagged fuel' transit (j + 1)
      | Raise _ => None
      end
  end.

Definition nextNonTransitionInterval (transit : list bool) (i : Z)
  : option Z :=
  nextUnflagged (length transit) transit (i + 1).

(** The derivatives around of the texture coordinates for [unevenU],
    before and after the pass over the flags. *)
Definition unevenD1 : list vec3 :=
  Eval vm_compute in
    match derivativesAround (fun d => d) unevenU [] with
    | Ok l => l
    | Raise _ => []
    end.

Definition unevenD1Modified : list vec3 :=
  Eval vm_compute in
    match modifyTransitionDerivatives twoTransitions unevenD1 with
    | Ok l => l
    | Raise _ => []
    end.

(** The tube along x with a central line of length 4, and what the
    sampler returns for its two elements along. *)
Definition longTube : Args := straightTube (v3 0 0 0) (v3 4 0 0).

Definition longTubeSamples
  : list vec3 * list vec3 * list Z * list float * list float :=
  Eval vm_compute in
    match sampleCubicHermiteCurves (cx longTube) (cd1 longTube) (1 * 2) with
    | Ok out => out
    | Raise _ => ([], [], [], [], [])
    end.

(** The profile of [tubeAlongX] mapped onto three stations along x. *)
Definition tubeAlongXMapped : Locals :=
  Eval vm_compute in
    match mapFacesToCentralLine tubeAlongX
            [v3 0 0 0; v3 1 0 0; v3 2 0 0] [v3 1 0 0; v3 1 0 0; v3 1 0 0]
            [v3 0 1 0; v3 0 1 0; v3 0 1 0] (initialLocals tubeAlongX) with
    | Ok L => L
    | Raise _ => initialLocals tubeAlongX
    end.

(** [twoFibersSmoothed] after the loop over the stations, for a central
    line along x. *)
Definition twoFibersCurved : Locals :=
  Eval vm_compute in
    match curvatureAlongLine twoFibersArgs [v3 0 0 0; v3 1 0 0]
                             [v3 1 0 0; v3 1 0 0] 1 twoFibersSmoothed with
    | Ok L => L
    | Raise _ => twoFibersSmoothed
    end.

(** What [generatetubemesh] returns for the tube along x. *)
Definition tubeAlongXOutput : Output :=
  Eval vm_compute in
    match generatetubemesh tubeAlongX with
    | Ok out => out
    | Raise _ =>
        {| out_annotationGroups := []; out_nodeIdentifier := 0;
           out_elementIdentifier := 0; out_xList := [];
           out_dx_ds1List := []; out_dx_ds2List := [];
           out_dx_ds3List := []; out_sx := []; out_curvatureAlong := [];
           out_factorList := [];
           out_region := region (initialLocals tubeAlongX) |}
    end.

(** What [generatetubemesh] returns for the curved tube. *)
Definition curvedTubeOutput : Output :=
  Eval vm_compute in
    match generatetubemesh curvedTube with
    | Ok out => out
    | Raise _ =>
        {| out_annotationGroups := []; out_nodeIdentifier := 0;
           out_elementIdentifier := 0; out_xList := [];
           out_dx_ds1List := []; out_dx_ds2List := [];
           out_dx_ds3List := []; out_sx := []; out_curvatureAlong := [];
           out_factorList := [];
           out_region := region (initialLocals curvedTube) |}
    end.

(** Locals with two entries in the lists of the wall and the next node
    identifier 7. *)
Definition twoEntries : Locals :=
  with_nodeIdentifier 7
    (with_wall
       {| xList := [v3 1 0 0; v3 0 1 0];
          dx_ds1List := [v3 0 0 1; v3 0 0 2];
          dx_ds2List := [v3 0 0 3; v3 0 0 3];
          dx_ds3List := [v3 0 0 4; v3 0 0 4];
          factorList := None |} twoFibers).

(** The elements of a tube of two points around, one element along and
    one through the wall, and the same elements visited again. *)
Definition twoFibersElements : Locals :=
  Eval vm_compute in
    match createElements twoFibersArgs 1 twoFibers with
    | Ok L => L
    | Raise _ => twoFibers
    end.

Definition twoFibersMerged : Locals :=
  Eval vm_compute in
    match mergeElements twoFibersArgs 1 twoFibers with
    | Ok L => L
    | Raise _ => twoFibers
    end.

(** The same tube after the nodes of the texture coordinates. *)
Definition twoFibersTexture : Locals :=
  Eval vm_compute in
    match textureCoordinates twoFibersArgs 1 twoFibers with
    | Ok L => L
    | Raise _ => twoFibers
    end.

(** The first station of [tubeAlongX] mapped onto a central line along
    x. *)
Definition tubeAlongXStation : Locals :=
  Eval vm_compute in
    match alignStation tubeAlongX
            [v3 0 0 0; v3 1 0 0; v3 2 0 0] [v3 1 0 0; v3 1 0 0; v3 1 0 0]
            [v3 0 1 0; v3 0 1 0; v3 0 1 0] 0 0 (initialLocals tubeAlongX) with
    | Ok L => L
    | Raise _ => initialLocals tubeAlongX
    end.

End Example.

(** * Properties *)

(** ** Lists, [range] and [for] loops *)

Lemma bind_Ok {A B : Type} (c : result A) (k : A -> result B) (b : B) :
  Py.bind c k = Ok b -> exists a, c = Ok a /\ k a = Ok b.
Proof.
  destruct c as [a|e]; simpl; intros Hk; [eauto | discriminate].
Qed.

Lemma index_nonneg {A : Type} (l : list A) (i : Z) (a : A) :
  0 <= i -> (index l i = Ok a <-> nth_error l (Z.to_nat i) = Some a).
Proof.
  intros Hi. unfold index.
  destruct (Z.ltb_spec i 0) as [?|_]; [lia|].
  destruct (Z.leb_spec 0 i) as [_|?]; [|lia]. simpl.
  destruct (Z.ltb_spec i (Z.of_nat (length l))) as [Hlt|Hge].
  - destruct (nth_error l (Z.to_nat i)) eqn:E.
    + split; congruence.
    + apply nth_error_None in E. lia.
  - split; [discriminate|].
    intros E. assert (nth_error l (Z.to_nat i) <> None) as N by congruence.
    apply nth_error_Some in N. lia.
Qed.

Lemma index_in_range {A : Type} (l : list A) (i : Z) :
  0 <= i < Z.of_nat (length l) -> exists a, index l i = Ok a.
Proof.
  intros Hi. destruct (nth_error l (Z.to_nat i)) eqn:E.
  - exists a. apply index_nonneg; [lia | exact E].
  - apply nth_error_None in E. lia.
Qed.

Lemma index_Ok_range {A : Type} (l : list A) (i : Z) (a : A) :
  0 <= i -> index l i = Ok a -> i < Z.of_nat (length l).
Proof.
  intros Hi E. apply index_nonneg in E; [|exact Hi].
  assert (nth_error l (Z.to_nat i) <> None) as N by congruence.
  apply nth_error_Some in N. lia.
Qed.

Lemma index_app_old {A : Type} (l t : list A) (i : Z) :
  0 <= i < Z.of_nat (length l) -> index (l ++ t) i = index l i.
Proof.
  intros Hi. destruct (index_in_range l i Hi) as [a Ha]. rewrite Ha.
  apply index_nonneg; [lia|]. apply index_nonneg in Ha; [|lia].
  rewrite nth_error_app1; [exact Ha | lia].
Qed.

Lemma index_app_new {A : Type} (l : list A) (a : A) (i : Z) :
  i = Z.of_nat (length l) -> index (l ++ [a]) i = Ok a.
Proof.
  intros ->. apply index_nonneg; [lia|].
  rewrite Nat2Z.id, nth_error_app2, Nat.sub_diag; [reflexivity | lia].
Qed.

Lemma range_nonpos (n : Z) : n <= 0 -> range n = [].
Proof.
  intros Hn. unfold range. replace (Z.to_nat n) with O by lia. reflexivity.
Qed.

Lemma range_succ (n : Z) : 0 <= n -> range (n + 1) = range n ++ [n].
Proof.
  intros Hn. unfold range.
  replace (Z.to_nat (n + 1)) with (S (Z.to_nat n)) by lia.
  rewrite seq_S, map_app. simpl. rewrite Z2Nat.id by lia. reflexivity.
Qed.

Lemma length_range (n : Z) : length (range n) = Z.to_nat n.
Proof. unfold range. now rewrite length_map, length_seq. Qed.

Lemma for_app {S : Type} (xs ys : list Z) (body : Z -> S -> result S)
    (s : S) :
  for_ (xs ++ ys) body s = Py.bind (for_ xs body s) (for_ ys body).
Proof.
  revert s. induction xs as [|x xs IH]; intros s; simpl; [reflexivity|].
  destruct (body x s); simpl; [apply IH | reflexivity].
Qed.

(** An invariant indexed by the number of completed iterations. *)
Lemma for_range_ind {S : Type} (P : Z -> S -> Prop) (n : Z)
    (body : Z -> S -> result S) (s0 sN : S) :
  P 0 s0 ->
  (forall i s s', 0 <= i < n -> P i s -> body i s = Ok s' -> P (i + 1) s') ->
  for_ (range n) body s0 = Ok sN ->
  P (Z.max 0 n) sN.
Proof.
  intros H0 Hstep.
  destruct (Z.le_gt_cases n 0) as [Hn|Hn].
  - rewrite range_nonpos by exact Hn. simpl. intros [= <-].
    now replace (Z.max 0 n) with 0 by lia.
  - replace (Z.max 0 n) with (Z.of_nat (Z.to_nat n)) by lia.
    assert (Z.of_nat (Z.to_nat n) <= n) as Hk by lia.
    replace n with (Z.of_nat (Z.to_nat n)) at 1 by lia.
    revert Hk sN. generalize (Z.to_nat n) as k. clear Hn.
    induction k as [|k IH]; intros Hk sN.
    + simpl. intros [= <-]. exact H0.
    + rewrite Nat2Z.inj_succ, <- Z.add_1_r in *.
      rewrite range_succ by lia. rewrite for_app. intros Hrun.
      apply bind_Ok in Hrun as (s & Hs & Hlast). simpl in Hlast.
      destruct (body (Z.of_nat k) s) as [s'|] eqn:Hb; simpl in Hlast;
        [|discriminate].
      injection Hlast as <-.
      apply (Hstep (Z.of_nat k) s); [lia | apply IH; [lia | exact Hs] | exact Hb].
Qed.

(** The same for a loop that is shown to complete. *)
Lemma for_range_total {S : Type} (P : Z -> S -> Prop) (n : Z)
    (body : Z -> S -> result S) (s0 : S) :
  P 0 s0 ->
  (forall i s, 0 <= i < n -> P i s ->
     exists s', body i s = Ok s' /\ P (i + 1) s') ->
  exists sN, for_ (range n) body s0 = Ok sN /\ P (Z.max 0 n) sN.
Proof.
  intros H0 Hstep.
  destruct (Z.le_gt_cases n 0) as [Hn|Hn].
  - rewrite range_nonpos by exact Hn. exists s0. split; [reflexivity|].
    now replace (Z.max 0 n) with 0 by lia.
  - assert (forall k : nat, Z.of_nat k <= n ->
              exists sN, for_ (range (Z.of_nat k)) body s0 = Ok sN /\
                         P (Z.of_nat k) sN) as Hall.
    { induction k as [|k IH]; intros Hk.
      - exists s0. split; [reflexivity | exact H0].
      - rewrite Nat2Z.inj_succ, <- Z.add_1_r in *.
        destruct IH as (s & Hs & HP); [lia|].
        destruct (Hstep (Z.of_nat k) s) as (s' & Hb & HP');
          [lia | exact HP |].
        exists s'. split; [|exact HP'].
        rewrite range_succ by lia. rewrite for_app, Hs. simpl.
        now rewrite Hb. }
    specialize (Hall (Z.to_nat n)).
    replace (Z.of_nat (Z.to_nat n)) with n in Hall by lia.
    replace (Z.max 0 n) with n by lia. apply Hall. lia.
Qed.

(** Two nested loops, with the invariant indexed by the number of
    completed iterations of the inner body in row-major order. *)
Lemma for2_range_ind {S : Type} (P : Z -> S -> Prop) (n m : Z)
    (body : Z -> Z -> S -> result S) (s0 sN : S) :
  0 <= m ->
  P 0 s0 ->
  (forall i j s s', 0 <= i < n -> 0 <= j < m ->
     P (i * m + j) s -> body i j s = Ok s' -> P (i * m + j + 1) s') ->
  for_ (range n) (fun i => for_ (range m) (body i)) s0 = Ok sN ->
  P (Z.max 0 n * m) sN.
Proof.
  intros Hm H0 Hstep Hrun.
  apply (for_range_ind (fun i s => P (i * m) s) n) in Hrun; auto.
  intros i s s' Hi HP Hin.
  apply (for_range_ind (fun j s => P (i * m + j) s) m) in Hin.
  - replace ((i + 1) * m) with (i * m + Z.max 0 m) by lia. exact Hin.
  - now rewrite Z.add_0_r.
  - intros j t t' Hj HPj Hb. rewrite Z.add_assoc. eapply Hstep; eauto.
Qed.

Lemma for2_range_total {S : Type} (P : Z -> S -> Prop) (n m : Z)
    (body : Z -> Z -> S -> result S) (s0 : S) :
  0 <= m ->
  P 0 s0 ->
  (forall i j s, 0 <= i < n -> 0 <= j < m -> P (i * m + j) s ->
     exists s', body i j s = Ok s' /\ P (i * m + j + 1) s') ->
  exists sN,
    for_ (range n) (fun i => for_ (range m) (body i)) s0 = Ok sN /\
    P (Z.max 0 n * m) sN.
Proof.
  intros Hm H0 Hstep.
  apply (for_range_total (fun i s => P (i * m) s) n); auto.
  intros i s Hi HP.
  destruct (for_range_total (fun j s => P (i * m + j) s) m (body i) s)
    as (s' & Hrun & HP').
  - now rewrite Z.add_0_r.
  - intros j t Hj HPj. rewrite Z.add_assoc. apply Hstep; auto.
  - exists s'. split; [exact Hrun|].
    replace ((i + 1) * m) with (i * m + Z.max 0 m) by lia. exact HP'.
Qed.

Lemma for2_range_returns {S : Type} (P : Z -> S -> Prop) (n m : Z)
    (body : Z -> Z -> S -> result S) (s0 : S) :
  0 <= m ->
  P 0 s0 ->
  (forall i j s, 0 <= i < n -> 0 <= j < m -> P (i * m + j) s ->
     exists s', body i j s = Ok s' /\ P (i * m + j + 1) s') ->
  exists sN, for_ (range n) (fun i => for_ (range m) (body i)) s0 = Ok sN.
Proof.
  intros Hm H0 Hstep.
  destruct (for2_range_total P n m body s0 Hm H0 Hstep) as (sN & Hs & _).
  eauto.
Qed.

Lemma row_major_unique (m a b c d : Z) :
  0 <= b < m -> 0 <= d < m -> a * m + b = c * m + d -> a = c /\ b = d.
Proof. intros Hb Hd E. assert (a = c) by nia. subst. lia. Qed.

(** Every successful step of a sequence of [let*] is named. *)
Ltac inv_bind H :=
  repeat (let v := fresh "v" in
          let E := fresh "E" in
          apply bind_Ok in H as (v & E & H); cbv beta in H).

(** Two successful evaluations of the same expression gave the same
    value. *)
Ltac dedup :=
  repeat match goal with
  | H1 : ?a = Ok ?x, H2 : ?a = Ok ?y |- _ =>
      first [ constr_eq x y; clear H2
            | rewrite H1 in H2; injection H2 as <- ]
  end.

(** ** The outer surface and the curvature around
       ([getOuterCoordinatesAndCurvatureFromInner]) *)

Section OuterSurface.

Context `{Imports}.

(** What is chosen for a vertex, by the flag [t1] of its own interval and
    the flag [t0] of the interval before it. *)
Lemma curvatureAroundAt_cases transit eCAround n1 kappam kappap c :
  curvatureAroundAt transit eCAround n1 kappam kappap = Ok c ->
  exists t1 t0,
    index transit n1 = Ok t1 /\
    (t1 = false -> index transit ((n1 - 1) mod eCAround) = Ok t0) /\
    c = (if t1 then kappam
         else if t0 then kappap else mul half (add kappam kappap)).
Proof.
  unfold curvatureAroundAt. intros Hc.
  apply bind_Ok in Hc as (t1 & Et1 & Hc). rewrite Et1 in Hc. simpl in Hc.
  destruct t1; simpl in Hc.
  - injection Hc as <-. exists true, false. repeat split; auto. discriminate.
  - unfold mod_ in Hc. destruct (eCAround =? 0); [discriminate|].
    simpl in Hc.
    destruct (index transit ((n1 - 1) mod eCAround)) as [t0|] eqn:Et0;
      [|discriminate].
    simpl in Hc. exists false, t0. split; [exact Et1|]. split; [auto|].
    destruct t0; simpl in Hc; congruence.
Qed.

(** The [elif] chain always binds [curvatureAround] when all flags of the
    angular indices can be read. *)
Lemma curvatureAroundAt_bound transit eCAround n1 kappam kappap :
  0 < eCAround <= Z.of_nat (length transit) -> 0 <= n1 < eCAround ->
  exists c, curvatureAroundAt transit eCAround n1 kappam kappap = Ok c.
Proof.
  intros Hm Hn. unfold curvatureAroundAt, mod_.
  destruct (index_in_range transit n1) as [t1 E1]; [lia|].
  assert (0 <= (n1 - 1) mod eCAround < eCAround) as Hmod
    by (apply Z.mod_pos_bound; lia).
  destruct (index_in_range transit ((n1 - 1) mod eCAround)) as [t0 E0];
    [lia|].
  destruct (Z.eqb_spec eCAround 0) as [?|_]; [lia|].
  rewrite E1. simpl. destruct t1; simpl; [eauto|].
  rewrite E0. simpl. destruct t0; simpl; eauto.
Qed.

Variables (xInner d1Inner d3Inner : list vec3) (wt : float).
Variables (eCAlong eCAround : Z) (transit : list bool).

(** What the two returned lists hold for the vertex of station [n2] and
    angular index [n1]. *)
Definition vertexOf (s : list vec3 * list float) (n2 n1 : Z) : Prop :=
  let n := n2 * eCAround + n1 in
  exists x d1 d3 xPrev d1Prev xNext d1Next kappam kappap c,
    index xInner n = Ok x /\ index d1Inner n = Ok d1 /\
    index d3Inner n = Ok d3 /\
    index xInner (prevIndex eCAround n2 n1) = Ok xPrev /\
    index d1Inner (prevIndex eCAround n2 n1) = Ok d1Prev /\
    index xInner (nextIndex eCAround n2 n1) = Ok xNext /\
    index d1Inner (nextIndex eCAround n2 n1) = Ok d1Next /\
    getCubicHermiteCurvatureSimple xPrev d1Prev x d1 one = Ok kappam /\
    getCubicHermiteCurvatureSimple x d1 xNext d1Next zero = Ok kappap /\
    curvatureAroundAt transit eCAround n1 kappam kappap = Ok c /\
    index (fst s) n = Ok (offsetPoint x d3 wt) /\
    index (snd s) n = Ok c.

(** The invariant of the two loops after [k] vertices. *)
Definition outerInv (k : Z) (s : list vec3 * list float) : Prop :=
  Z.of_nat (length (fst s)) = k /\ Z.of_nat (length (snd s)) = k /\
  forall n2 n1, 0 <= n2 -> 0 <= n1 < eCAround ->
    n2 * eCAround + n1 < k -> vertexOf s n2 n1.

Lemma getOuter_invariant xOuter curvatureInner :
  getOuterCoordinatesAndCurvatureFromInner xInner d1Inner d3Inner wt
    eCAlong eCAround transit = Ok (xOuter, curvatureInner) ->
  0 <= eCAround ->
  outerInv (Z.max 0 (eCAlong + 1) * eCAround) (xOuter, curvatureInner).
Proof.
  unfold getOuterCoordinatesAndCurvatureFromInner. intros Hrun Hm.
  revert Hrun. apply for2_range_ind with (P := outerInv); [lia | |].
  - repeat split; simpl; try lia; intros a b Ha Hb Hab; nia.
  - intros i j [xO cI] s' Hi Hj (Hlx & Hlc & Hall) Hb.
    inv_bind Hb. injection Hb as <-.
    repeat split; simpl in *.
    + rewrite length_app; simpl; lia.
    + rewrite length_app; simpl; lia.
    + intros a b Ha Hb Hab.
      destruct (Z.eq_dec (a * eCAround + b) (i * eCAround + j))
        as [Heq|Hne].
      * apply row_major_unique in Heq as [-> ->]; [|lia|lia].
        dedup. unfold vertexOf. simpl.
        do 10 eexists. repeat split; try eassumption;
          apply index_app_new; lia.
      * assert (0 <= a * eCAround) by nia.
        destruct (Hall a b) as
          (x & d1 & d3 & xP & dP & xN & dN & km & kp & c & Hv);
          [lia|lia|lia|].
        simpl in Hv. decompose [and] Hv.
        exists x, d1, d3, xP, dP, xN, dN, km, kp, c.
        simpl. repeat split; auto; rewrite index_app_old; auto; lia.
Qed.

Lemma getOuter_vertices xOuter curvatureInner :
  getOuterCoordinatesAndCurvatureFromInner xInner d1Inner d3Inner wt
    eCAlong eCAround transit = Ok (xOuter, curvatureInner) ->
  forall n2 n1, 0 <= n2 <= eCAlong -> 0 <= n1 < eCAround ->
  vertexOf (xOuter, curvatureInner) n2 n1.
Proof.
  intros Hrun n2 n1 Hn2 Hn1.
  destruct (getOuter_invariant _ _ Hrun) as (_ & _ & Hall); [lia|].
  apply Hall; [lia | lia |].
  replace (Z.max 0 (eCAlong + 1)) with (eCAlong + 1) by lia. nia.
Qed.

Lemma getOuter_lengths xOuter curvatureInner :
  getOuterCoordinatesAndCurvatureFromInner xInner d1Inner d3Inner wt
    eCAlong eCAround transit = Ok (xOuter, curvatureInner) ->
  0 <= eCAround ->
  Z.of_nat (length xOuter) = Z.max 0 (eCAlong + 1) * eCAround /\
  Z.of_nat (length curvatureInner) = Z.max 0 (eCAlong + 1) * eCAround.
Proof.
  intros Hrun Hm.
  destruct (getOuter_invariant _ _ Hrun Hm) as (Hx & Hc & _). auto.
Qed.

(** The inputs cover every vertex: the three lists have an entry for each
    of the [(elementsCountAlong + 1) * elementsCountAround] vertices and
    there is a flag for each angular index. *)
Definition surfaceCovered : Prop :=
  0 <= eCAlong /\ 0 < eCAround /\
  (eCAlong + 1) * eCAround <= Z.of_nat (length xInner) /\
  (eCAlong + 1) * eCAround <= Z.of_nat (length d1Inner) /\
  (eCAlong + 1) * eCAround <= Z.of_nat (length d3Inner) /\
  eCAround <= Z.of_nat (length transit).

Lemma getOuter_returns :
  surfaceCovered ->
  (forall a b c d xi, exists k,
      getCubicHermiteCurvatureSimple a b c d xi = Ok k) ->
  exists out,
    getOuterCoordinatesAndCurvatureFromInner xInner d1Inner d3Inner wt
      eCAlong eCAround transit = Ok out.
Proof.
  intros (HA & HM & Hx & Hd1 & Hd3 & Ht) Hk.
  unfold getOuterCoordinatesAndCurvatureFromInner.
  apply for2_range_returns with (P := fun _ _ => True); [lia | exact I |].
  intros i j [xO cI] Hi Hj _.
  assert (0 <= i * eCAround) by nia.
  assert ((i + 1) * eCAround <= (eCAlong + 1) * eCAround) by nia.
  assert (0 <= prevIndex eCAround i j < (eCAlong + 1) * eCAround).
  { unfold prevIndex. destruct (Z.eqb_spec j 0); simpl; lia. }
  assert (0 <= nextIndex eCAround i j < (eCAlong + 1) * eCAround).
  { unfold nextIndex. destruct (Z.ltb_spec j (eCAround - 1)); simpl; lia. }
  cbv zeta.
  destruct (index_in_range xInner (i * eCAround + j)) as [x Ex]; [lia|].
  destruct (index_in_range d1Inner (i * eCAround + j)) as [d1 Ed1]; [lia|].
  destruct (index_in_range d3Inner (i * eCAround + j)) as [d3 Ed3]; [lia|].
  destruct (index_in_range xInner (prevIndex eCAround i j)) as [xp Exp];
    [lia|].
  destruct (index_in_range d1Inner (prevIndex eCAround i j)) as [dp Edp];
    [lia|].
  destruct (index_in_range xInner (nextIndex eCAround i j)) as [xn Exn];
    [lia|].
  destruct (index_in_range d1Inner (nextIndex eCAround i j)) as [dn Edn];
    [lia|].
  destruct (Hk xp dp x d1 one) as [km Ekm].
  destruct (Hk x d1 xn dn zero) as [kp Ekp].
  destruct (curvatureAroundAt_bound transit eCAround j km kp) as [c Ec];
    [lia | lia |].
  rewrite Ex, Ed3, Exp, Edp, Ed1. simpl.
  rewrite Ekm, Exn, Edn. simpl. rewrite Ekp. simpl. rewrite Ec. simpl.
  eauto.
Qed.

End OuterSurface.

(** C1.  For every vertex (station [n2], angular index [n1]) of the inner
    surface, the outer position that
    [getOuterCoordinatesAndCurvatureFromInner] computes is the inner
    position plus the through-wall normal scaled by the wall thickness,
    component by component: [xInner[n][i] + d3Inner[n][i]*wallThickness].
    The function returns whenever the inputs cover every vertex and the
    curvature helper returns. *)
Theorem outer_position_is_inner_plus_normal_times_thickness `{Imports}
    (xInner d1Inner d3Inner : list vec3) (wallThickness : float)
    (elementsCountAlong elementsCountAround : Z)
    (transitElementList : list bool) :
  (surfaceCovered xInner d1Inner d3Inner elementsCountAlong
                  elementsCountAround transitElementList ->
   (forall a b c d xi, exists k,
       getCubicHermiteCurvatureSimple a b c d xi = Ok k) ->
   exists out,
     getOuterCoordinatesAndCurvatureFromInner xInner d1Inner d3Inner
       wallThickness elementsCountAlong elementsCountAround
       transitElementList = Ok out) /\
  (forall xOuter curvatureInner,
     getOuterCoordinatesAndCurvatureFromInner xInner d1Inner d3Inner
       wallThickness elementsCountAlong elementsCountAround
       transitElementList = Ok (xOuter, curvatureInner) ->
     forall n2 n1,
       0 <= n2 <= elementsCountAlong -> 0 <= n1 < elementsCountAround ->
       exists x d3,
         index xInner (n2 * elementsCountAround + n1) = Ok x /\
         index d3Inner (n2 * elementsCountAround + n1) = Ok d3 /\
         index xOuter (n2 * elementsCountAround + n1) =
           Ok (V3 (add (c0 x) (mul (c0 d3) wallThickness))
                  (add (c1 x) (mul (c1 d3) wallThickness))
                  (add (c2 x) (mul (c2 d3) wallThickness)))).
Proof.
  split.
  - apply getOuter_returns.
  - intros xOuter curvatureInner Hrun n2 n1 Hn2 Hn1.
    destruct (getOuter_vertices _ _ _ _ _ _ _ _ _ Hrun n2 n1 Hn2 Hn1)
      as (x & d1 & d3 & xP & dP & xN & dN & km & kp & c & Hv).
    simpl in Hv. decompose [and] Hv. exists x, d3. auto.
Qed.

Lemma outer_position_on_ring :
  exists x d3,
    index Example.ringX 1 = Ok x /\ index Example.ringD3 1 = Ok d3 /\
    index (fst Example.ringOuter) 1 =
      Ok (V3 (add (c0 x) (mul (c0 d3) half))
             (add (c1 x) (mul (c1 d3) half))
             (add (c2 x) (mul (c2 d3) half))).
Proof.
  assert (getOuterCoordinatesAndCurvatureFromInner
            Example.ringX Example.ringD1 Example.ringD3 half 0 4
            Example.ringTransit
          = Ok (fst Example.ringOuter, snd Example.ringOuter)) as Hrun
    by (vm_compute; reflexivity).
  apply (proj2 (outer_position_is_inner_plus_normal_times_thickness
                  Example.ringX Example.ringD1 Example.ringD3 half 0 4
                  Example.ringTransit) _ _ Hrun 0 1); lia.
Defined.

(** C4.  For every vertex (station [n2], angular index [n1]): when
    neither the angular interval [n1] nor the interval before it,
    [(n1 - 1) % elementsCountAround], is flagged as a transition, the
    curvature around is the mean [0.5*(kappam + kappap)] of the two
    one-sided curvatures; when only interval [n1] is flagged it is
    [kappam], the curvature over the interval before the vertex; when
    only the interval before is flagged it is [kappap], the curvature
    over interval [n1]: in both cases the one-sided estimate of the side
    that is not a transition. *)
Theorem curvature_around_by_transition_flags `{Imports}
    (xInner d1Inner d3Inner : list vec3) (wallThickness : float)
    (elementsCountAlong elementsCountAround : Z)
    (transitElementList : list bool) :
  (surfaceCovered xInner d1Inner d3Inner elementsCountAlong
                  elementsCountAround transitElementList ->
   (forall a b c d xi, exists k,
       getCubicHermiteCurvatureSimple a b c d xi = Ok k) ->
   exists out,
     getOuterCoordinatesAndCurvatureFromInner xInner d1Inner d3Inner
       wallThickness elementsCountAlong elementsCountAround
       transitElementList = Ok out) /\
  (forall xOuter curvatureInner,
     getOuterCoordinatesAndCurvatureFromInner xInner d1Inner d3Inner
       wallThickness elementsCountAlong elementsCountAround
       transitElementList = Ok (xOuter, curvatureInner) ->
     forall n2 n1,
       0 <= n2 <= elementsCountAlong -> 0 <= n1 < elementsCountAround ->
       let n := n2 * elementsCountAround + n1 in
       let prevIdx := prevIndex elementsCountAround n2 n1 in
       let nextIdx := nextIndex elementsCountAround n2 n1 in
       let before := (n1 - 1) mod elementsCountAround in
       exists x d1 xPrev d1Prev xNext d1Next kappam kappap,
         index xInner n = Ok x /\ index d1Inner n = Ok d1 /\
         index xInner prevIdx = Ok xPrev /\
         index d1Inner prevIdx = Ok d1Prev /\
         index xInner nextIdx = Ok xNext /\
         index d1Inner nextIdx = Ok d1Next /\
         getCubicHermiteCurvatureSimple xPrev d1Prev x d1 one = Ok kappam /\
         getCubicHermiteCurvatureSimple x d1 xNext d1Next zero = Ok kappap /\
         (index transitElementList n1 = Ok false ->
          index transitElementList before = Ok false ->
          index curvatureInner n = Ok (mul half (add kappam kappap))) /\
         (index transitElementList n1 = Ok true ->
          index transitElementList before = Ok false ->
          index curvatureInner n = Ok kappam) /\
         (index transitElementList n1 = Ok false ->
          index transitElementList before = Ok true ->
          index curvatureInner n = Ok kappap)).
Proof.
  split.
  - apply getOuter_returns.
  - intros xOuter curvatureInner Hrun n2 n1 Hn2 Hn1. cbv zeta.
    destruct (getOuter_vertices _ _ _ _ _ _ _ _ _ Hrun n2 n1 Hn2 Hn1)
      as (x & d1 & d3 & xP & dP & xN & dN & km & kp & c & Hv).
    simpl in Hv.
    destruct Hv as (Hx & Hd1 & _ & HxP & HdP & HxN & HdN & Hkm & Hkp &
                    Hc & _ & Hidx).
    exists x, d1, xP, dP, xN, dN, km, kp.
    apply curvatureAroundAt_cases in Hc as (t1 & t0 & E1 & E0 & ->).
    repeat split; auto; intros F1 F0; rewrite E1 in F1; injection F1 as ->;
      try (rewrite (E0 eq_refl) in F0; injection F0 as ->); exact Hidx.
Qed.

Lemma curvature_around_on_ring :
  exists x d1 xNext d1Next kappap,
    index Example.ringX 2 = Ok x /\ index Example.ringD1 2 = Ok d1 /\
    index Example.ringX 3 = Ok xNext /\
    index Example.ringD1 3 = Ok d1Next /\
    Model.getCubicHermiteCurvatureSimple x d1 xNext d1Next zero
      = Ok kappap /\
    index (snd Example.ringOuter) 2 = Ok kappap.
Proof.
  assert (getOuterCoordinatesAndCurvatureFromInner
            Example.ringX Example.ringD1 Example.ringD3 half 0 4
            Example.ringTransit
          = Ok (fst Example.ringOuter, snd Example.ringOuter)) as Hrun
    by (vm_compute; reflexivity).
  destruct (proj2 (curvature_around_by_transition_flags
                     Example.ringX Example.ringD1 Example.ringD3 half 0 4
                     Example.ringTransit)
                  _ _ Hrun 0 2 ltac:(lia) ltac:(lia))
    as (x & d1 & xP & dP & xN & dN & km & kp & Hx & Hd1 & HxP & HdP & HxN &
        HdN & Hkm & Hkp & _ & _ & Hbefore).
  exists x, d1, xN, dN, kp.
  repeat split; auto.
Defined.

(** ** One layer through the wall ([interpolatefromInnerAndOuter]) *)

(** With a thickness of zero the factor of the derivative around is
    [1.0 + 0.0] whatever the finite depth and curvature. *)
Lemma circumferentialFactor_zero_thickness (thickness xi3 curvature : float) :
  is_zero thickness = true -> is_finite xi3 = true ->
  is_finite curvature = true ->
  circumferentialFactor thickness xi3 curvature = one.
Proof.
  destruct thickness; try discriminate.
  destruct xi3 as [sx| | |sx mx ex]; try discriminate;
    destruct curvature as [sc| | |sc mc ec]; try discriminate;
    reflexivity.
Qed.

(** The factor of the derivative along is [1.0 + 0.0] when the curvature
    along is zero and the distance finite. *)
Lemma longitudinalFactor_zero_curvature (curvature distance : float) :
  is_zero curvature = true -> is_finite distance = true ->
  longitudinalFactor curvature distance = one.
Proof.
  destruct curvature; try discriminate.
  destruct distance; try discriminate; reflexivity.
Qed.

(** A division by an int returns the quotient by the converted int when
    the int is not zero and converts to a float. *)
Lemma truediv_int_fits (x : float) (n : Z) :
  n <> 0 -> fits_float n = true ->
  truediv_int x n = Ok (div x (of_int n)).
Proof.
  intros Hn Hf. unfold truediv_int, to_float. rewrite Hf. simpl.
  destruct (Z.eqb_spec n 0) as [?|_]; [contradiction | reflexivity].
Qed.



Lemma vmapM_truediv_int_returns (t : float) (n : Z) (v : vec3) :
  n <> 0 -> fits_float n = true ->
  exists d, vmapM (fun c => truediv_int (mul c t) n) v = Ok d.
Proof.
  intros Hn Hf. unfold vmapM. rewrite !truediv_int_fits by assumption.
  simpl. eauto.
Qed.

Section Layer.
Context `{Imports}.
Variables (xInner xOuter : list vec3) (thickness xi3 : float) (sx : list vec3).
Variables (curvatureInner curvatureAlong : list float).
Variables (d1Inner d2Inner d3InnerUnit : list vec3).
Variables (eCAround eCAlong eCTW : Z).

Definition LayerLists : Type :=
  (list vec3 * list vec3 * list vec3 * list vec3 * list float)%type.

Definition layerX (s : LayerLists) : list vec3 := fst (fst (fst (fst s))).
Definition layerD1 (s : LayerLists) : list vec3 := snd (fst (fst (fst s))).
Definition layerD2 (s : LayerLists) : list vec3 := snd (fst (fst s)).
Definition layerD3 (s : LayerLists) : list vec3 := snd (fst s).
Definition layerFactors (s : LayerLists) : list float := snd s.

Definition layerVertex (s : LayerLists) (n2 n1 : Z) : Prop :=
  let n := n2 * eCAround + n1 in
  exists norm innerx outerx x kappa d1 curvature sxn2 distance d2 d3,
    index d3InnerUnit n = Ok norm /\
    index xInner n = Ok innerx /\
    index xOuter n = Ok outerx /\
    interpolateCubicHermite innerx (vmap (fun c => mul thickness c) norm)
      outerx (vmap (fun c => mul thickness c) norm) xi3 = Ok x /\
    index curvatureInner n = Ok kappa /\
    index d1Inner n = Ok d1 /\
    index curvatureAlong n = Ok curvature /\
    index sx n2 = Ok sxn2 /\
    magnitude (build3 (fun i => sub (comp x i) (comp sxn2 i)))
      = Ok distance /\
    index d2Inner n = Ok d2 /\
    vmapM (fun c => truediv_int (mul c thickness) eCTW) norm = Ok d3 /\
    index (layerX s) n = Ok x /\
    index (layerD1 s) n =
      Ok (vmap (fun c => mul (circumferentialFactor thickness xi3 kappa) c)
               d1) /\
    index (layerD2 s) n =
      Ok (vmap (fun c => mul (longitudinalFactor curvature distance) c)
               d2) /\
    index (layerD3 s) n = Ok d3 /\
    index (layerFactors s) n = Ok (longitudinalFactor curvature distance).

Definition layerInv (k : Z) (s : LayerLists) : Prop :=
  Z.of_nat (length (layerX s)) = k /\
  Z.of_nat (length (layerD1 s)) = k /\
  Z.of_nat (length (layerD2 s)) = k /\
  Z.of_nat (length (layerD3 s)) = k /\
  Z.of_nat (length (layerFactors s)) = k /\
  forall n2 n1, 0 <= n2 -> 0 <= n1 < eCAround ->
    n2 * eCAround + n1 < k -> layerVertex s n2 n1.

Lemma interpolate_invariant out :
  interpolatefromInnerAndOuter xInner xOuter thickness xi3 sx
    curvatureInner curvatureAlong d1Inner d2Inner d3InnerUnit
    eCAround eCAlong eCTW = Ok out ->
  0 <= eCAround ->
  layerInv (Z.max 0 (eCAlong + 1) * eCAround) out.
Proof.
  unfold interpolatefromInnerAndOuter. intros Hrun Hm.
  revert Hrun. apply for2_range_ind with (P := layerInv); [lia | |].
  - unfold layerInv, layerX, layerD1, layerD2, layerD3, layerFactors.
    repeat split; simpl; try lia; intros a b Ha Hb Hab; nia.
  - intros i j [[[[xL d1L] d2L] d3L] fL] s' Hi Hj Hinv Hb.
    unfold layerInv, layerX, layerD1, layerD2, layerD3, layerFactors in Hinv.
    simpl in Hinv.
    destruct Hinv as (Hl1 & Hl2 & Hl3 & Hl4 & Hl5 & Hall).
    inv_bind Hb. injection Hb as <-.
    unfold layerInv, layerX, layerD1, layerD2, layerD3, layerFactors.
    simpl. rewrite !length_app. simpl.
    repeat split; try lia.
    intros a b Ha Hb Hab.
    destruct (Z.eq_dec (a * eCAround + b) (i * eCAround + j))
      as [Heq|Hne].
    + apply row_major_unique in Heq as [-> ->]; [|lia|lia].
      unfold layerVertex, layerX, layerD1, layerD2, layerD3, layerFactors.
      simpl.
      do 11 eexists. repeat split; try eassumption;
        apply index_app_new; lia.
    + assert (0 <= a * eCAround) by nia.
      destruct (Hall a b) as
        (norm & ix & ox & x & k & d1 & cv & sxn & dist & d2 & d3 & Hv);
        [lia|lia|lia|].
      unfold layerX, layerD1, layerD2, layerD3, layerFactors in Hv.
      simpl in Hv. decompose [and] Hv.
      unfold layerVertex, layerX, layerD1, layerD2, layerD3, layerFactors.
      simpl.
      exists norm, ix, ox, x, k, d1, cv, sxn, dist, d2, d3.
      repeat split; auto; rewrite index_app_old; auto; lia.
Qed.

Lemma interpolate_vertices out :
  interpolatefromInnerAndOuter xInner xOuter thickness xi3 sx
    curvatureInner curvatureAlong d1Inner d2Inner d3InnerUnit
    eCAround eCAlong eCTW = Ok out ->
  forall n2 n1, 0 <= n2 <= eCAlong -> 0 <= n1 < eCAround ->
  layerVertex out n2 n1.
Proof.
  intros Hrun n2 n1 Hn2 Hn1.
  destruct (interpolate_invariant _ Hrun) as (_ & _ & _ & _ & _ & Hall);
    [lia|].
  apply Hall; [lia | lia |].
  replace (Z.max 0 (eCAlong + 1)) with (eCAlong + 1) by lia. nia.
Qed.

Lemma interpolate_lengths out :
  interpolatefromInnerAndOuter xInner xOuter thickness xi3 sx
    curvatureInner curvatureAlong d1Inner d2Inner d3InnerUnit
    eCAround eCAlong eCTW = Ok out ->
  let count := Z.max 0 (eCAlong + 1) * Z.max 0 eCAround in
  Z.of_nat (length (layerX out)) = count /\
  Z.of_nat (length (layerD1 out)) = count /\
  Z.of_nat (length (layerD2 out)) = count /\
  Z.of_nat (length (layerD3 out)) = count /\
  Z.of_nat (length (layerFactors out)) = count.
Proof.
  intros Hrun. cbv zeta.
  destruct (Z.le_gt_cases 0 eCAround) as [Hm|Hm].
  - destruct (interpolate_invariant _ Hrun Hm) as (H1 & H2 & H3 & H4 & H5 & _).
    replace (Z.max 0 eCAround) with eCAround by lia. auto.
  - unfold interpolatefromInnerAndOuter in Hrun.
    apply (for_range_ind (fun _ s => s = ([], [], [], [], []))) in Hrun.
    + subst out. replace (Z.max 0 eCAround) with 0 by lia.
      unfold layerX, layerD1, layerD2, layerD3, layerFactors. simpl.
      repeat split; lia.
    + reflexivity.
    + intros i s s' _ -> Hin. rewrite range_nonpos in Hin by lia.
      simpl in Hin. congruence.
Qed.

(** The inputs cover every vertex, and the division by the number of
    elements through the wall returns: the number is not zero and converts
    to a float. *)
Definition layerCovered : Prop :=
  let count := (eCAlong + 1) * eCAround in
  0 <= eCAlong /\ 0 < eCAround /\
  eCTW <> 0 /\ fits_float eCTW = true /\
  count <= Z.of_nat (length xInner) /\
  count <= Z.of_nat (length xOuter) /\
  count <= Z.of_nat (length curvatureInner) /\
  count <= Z.of_nat (length curvatureAlong) /\
  count <= Z.of_nat (length d1Inner) /\
  count <= Z.of_nat (length d2Inner) /\
  count <= Z.of_nat (length d3InnerUnit) /\
  eCAlong + 1 <= Z.of_nat (length sx).

Lemma interpolate_returns :
  layerCovered ->
  (forall v1 d1 v2 d2 xi, exists x,
      interpolateCubicHermite v1 d1 v2 d2 xi = Ok x) ->
  (forall v, exists m, magnitude v = Ok m) ->
  exists out,
    interpolatefromInnerAndOuter xInner xOuter thickness xi3 sx
      curvatureInner curvatureAlong d1Inner d2Inner d3InnerUnit
      eCAround eCAlong eCTW = Ok out.
Proof.
  intros (HA & HM & HT & HF & H1 & H2 & H3 & H4 & H5 & H6 & H7 & H8) Hh
         Hmag.
  cbv zeta in *.
  unfold interpolatefromInnerAndOuter.
  apply for2_range_returns with (P := fun _ _ => True); [lia | exact I |].
  intros i j [[[[xL d1L] d2L] d3L] fL] Hi Hj _.
  assert (0 <= i * eCAround) by nia.
  assert ((i + 1) * eCAround <= (eCAlong + 1) * eCAround) by nia.
  cbv zeta.
  destruct (index_in_range d3InnerUnit (i * eCAround + j)) as [nm En];
    [lia|].
  destruct (index_in_range xInner (i * eCAround + j)) as [ix Ei]; [lia|].
  destruct (index_in_range xOuter (i * eCAround + j)) as [ox Eo]; [lia|].
  destruct (index_in_range curvatureInner (i * eCAround + j)) as [k Ek];
    [lia|].
  destruct (index_in_range d1Inner (i * eCAround + j)) as [d1 Ed1]; [lia|].
  destruct (index_in_range curvatureAlong (i * eCAround + j)) as [cv Ecv];
    [lia|].
  destruct (index_in_range sx i) as [sxi Esx]; [lia|].
  destruct (index_in_range d2Inner (i * eCAround + j)) as [d2 Ed2]; [lia|].
  destruct (Hh ix (vmap (fun c => mul thickness c) nm) ox
               (vmap (fun c => mul thickness c) nm) xi3) as [x Ex].
  destruct (Hmag (build3 (fun i0 => sub (comp x i0) (comp sxi i0))))
    as [dist Edist].
  destruct (vmapM_truediv_int_returns thickness eCTW nm HT HF)
    as [d3 Ed3].
  rewrite En, Ei, Eo. simpl. rewrite Ex. simpl.
  rewrite Ek, Ed1, Ecv, Esx. simpl. rewrite Edist. simpl.
  rewrite Ed2. simpl. rewrite Ed3. simpl. eauto.
Qed.

End Layer.

(** C2, amended.  With a wall thickness of zero and a finite through-wall
    fraction [xi3], at every vertex: the factor of the derivative around,
    [1.0 + thickness*xi3*curvatureInner[n]], is exactly [1.0] when the
    curvature around is finite; the factor of the derivative along is
    [1.0 + curvatureAlong[n]*distance], where [distance] is the length of
    the offset of the interpolated point from the point [sx[n2]] of the
    central line, and it is exactly [1.0] when that curvature is zero and
    the distance finite.  The call returns whenever the inputs cover every
    vertex, the two helpers return and the number of elements through the
    wall is not zero and converts to a float. *)
Theorem scale_factors_at_zero_thickness `{Imports}
    (xInner xOuter : list vec3) (thickness xi3 : float) (sx : list vec3)
    (curvatureInner curvatureAlong : list float)
    (d1Inner d2Inner d3InnerUnit : list vec3)
    (elementsCountAround elementsCountAlong elementsCountThroughWall : Z) :
  is_zero thickness = true ->
  is_finite xi3 = true ->
  (layerCovered xInner xOuter sx curvatureInner curvatureAlong
                d1Inner d2Inner d3InnerUnit
                elementsCountAround elementsCountAlong
                elementsCountThroughWall ->
   (forall v1 d1 v2 d2 xi, exists x,
       interpolateCubicHermite v1 d1 v2 d2 xi = Ok x) ->
   (forall v, exists m, magnitude v = Ok m) ->
   exists out,
     interpolatefromInnerAndOuter xInner xOuter thickness xi3 sx
       curvatureInner curvatureAlong d1Inner d2Inner d3InnerUnit
       elementsCountAround elementsCountAlong elementsCountThroughWall
     = Ok out) /\
  (forall xList dx_ds1List dx_ds2List dx_ds3List factorList,
     interpolatefromInnerAndOuter xInner xOuter thickness xi3 sx
       curvatureInner curvatureAlong d1Inner d2Inner d3InnerUnit
       elementsCountAround elementsCountAlong elementsCountThroughWall
     = Ok (xList, dx_ds1List, dx_ds2List, dx_ds3List, factorList) ->
     forall n2 n1,
       0 <= n2 <= elementsCountAlong -> 0 <= n1 < elementsCountAround ->
       let n := n2 * elementsCountAround + n1 in
       exists kappa d1 x sxn2 distance curvature d2,
         index curvatureInner n = Ok kappa /\
         index d1Inner n = Ok d1 /\
         index dx_ds1List n =
           Ok (vmap (fun c =>
                       mul (circumferentialFactor thickness xi3 kappa) c)
                    d1) /\
         (is_finite kappa = true ->
          circumferentialFactor thickness xi3 kappa = one /\
          is_finite (circumferentialFactor thickness xi3 kappa) = true) /\
         index xList n = Ok x /\
         index sx n2 = Ok sxn2 /\
         magnitude (build3 (fun i => sub (comp x i) (comp sxn2 i)))
           = Ok distance /\
         index curvatureAlong n = Ok curvature /\
         index d2Inner n = Ok d2 /\
         index factorList n = Ok (longitudinalFactor curvature distance) /\
         index dx_ds2List n =
           Ok (vmap (fun c =>
                       mul (longitudinalFactor curvature distance) c) d2) /\
         (is_zero curvature = true -> is_finite distance = true ->
          longitudinalFactor curvature distance = one)).
Proof.
  intros Hzero Hxi. split.
  - apply interpolate_returns.
  - intros xL d1L d2L d3L fL Hrun n2 n1 Hn2 Hn1. cbv zeta.
    destruct (interpolate_vertices _ _ _ _ _ _ _ _ _ _ _ _ _ _ Hrun
                                   n2 n1 Hn2 Hn1)
      as (norm & ix & ox & x & k & d1 & cv & sxn & dist & d2 & d3 & Hv).
    unfold layerX, layerD1, layerD2, layerD3, layerFactors in Hv.
    simpl in Hv. decompose [and] Hv.
    exists k, d1, x, sxn, dist, cv, d2.
    repeat split; auto.
    + now apply circumferentialFactor_zero_thickness.
    + rewrite circumferentialFactor_zero_thickness by assumption.
      reflexivity.
    + apply longitudinalFactor_zero_curvature.
Qed.

Lemma scale_factors_on_flat_layer :
  exists kappa d1,
    index [two] 0 = Ok kappa /\
    index [Example.v3 0 1 0] 0 = Ok d1 /\
    index (layerD1 Example.flatLayerLists) 0 =
      Ok (vmap (fun c => mul (circumferentialFactor zero half kappa) c) d1) /\
    circumferentialFactor zero half kappa = one.
Proof.
  assert (Example.flatLayer = Ok Example.flatLayerLists) as Hrun
    by (vm_compute; reflexivity).
  destruct (proj2 (scale_factors_at_zero_thickness
                     [Example.v3 1 0 0] [Example.v3 1 0 0] zero half
                     [Example.v3 0 0 0] [two] [one]
                     [Example.v3 0 1 0] [Example.v3 0 0 1]
                     [Example.v3 1 0 0] 1 0 1 eq_refl eq_refl)
                  _ _ _ _ _ Hrun 0 0 ltac:(lia) ltac:(lia))
    as (k & d1 & x & sxn & dist & cv & d2 & Hk & Hd1 & HL & Hone & _).
  exists k, d1. repeat split; auto.
  apply Hone. apply index_nonneg in Hk; [|lia]. simpl in Hk.
  injection Hk as <-. reflexivity.
Defined.

(** C2 as stated fails for the factor of the derivative along: with a
    thickness of zero and the finite curvatures [2.0] around and [1.0]
    along, the factor of the vertex at distance 1 from the central line is
    [2.0]. *)
Lemma longitudinal_factor_two_at_zero_thickness :
  is_zero zero = true /\ is_finite half = true /\
  is_finite two = true /\ is_finite one = true /\
  exists out,
    Example.flatLayer = Ok out /\
    index (layerFactors out) 0 = Ok two /\
    two <> one.
Proof.
  repeat split.
  exists Example.flatLayerLists. repeat split.
  discriminate.
Qed.

(** ** Smoothing the derivatives along the tube *)

Section Smoothing.
Context `{Imports}.

(** The fiber of an angular index holds the entries
    [n2 * elementsCountAround + n1] of the two lists, station by
    station. *)
Lemma gatherFiber_entries eCAround eCAlong n1 (i : Inner) nx nd2 :
  gatherFiber eCAround eCAlong n1 i = Ok (nx, nd2) ->
  Z.of_nat (length nx) = Z.max 0 (eCAlong + 1) /\
  Z.of_nat (length nd2) = Z.max 0 (eCAlong + 1) /\
  forall n2, 0 <= n2 <= eCAlong ->
    index nx n2 = index (xInnerList i) (n2 * eCAround + n1) /\
    index nd2 n2 = index (d2InnerList i) (n2 * eCAround + n1).
Proof.
  unfold gatherFiber. intros Hrun.
  apply (for_range_ind
           (fun k s =>
              Z.of_nat (length (fst s)) = k /\
              Z.of_nat (length (snd s)) = k /\
              forall n2, 0 <= n2 < k ->
                index (fst s) n2 = index (xInnerList i) (n2 * eCAround + n1) /\
                index (snd s) n2 = index (d2InnerList i) (n2 * eCAround + n1)))
    in Hrun.
  - simpl in Hrun. destruct Hrun as (H1 & H2 & H3).
    repeat split; auto; apply H3; lia.
  - simpl. repeat split; lia.
  - intros k [px pd] s' Hk (H1 & H2 & H3) Hb. simpl in *.
    inv_bind Hb. injection Hb as <-. simpl.
    rewrite !length_app. simpl. repeat split; try lia.
    + destruct (Z.eq_dec n2 k) as [->|Hne].
      * rewrite E. apply index_app_new. lia.
      * rewrite index_app_old by lia. apply H3. lia.
    + destruct (Z.eq_dec n2 k) as [->|Hne].
      * rewrite E0. apply index_app_new. lia.
      * rewrite index_app_old by lia. apply H3. lia.
Qed.

Lemma smoothFiber_effect a eCAlong n1 L L' :
  smoothFiber a eCAlong n1 L = Ok L' ->
  exists nx nd2 smoothd2,
    gatherFiber (elementsCountAround a) eCAlong n1 (inner L) = Ok (nx, nd2) /\
    smoothCubicHermiteDerivativesLine nx nd2 = Ok smoothd2 /\
    L' = with_smooth
           {| smoothd2Raw := smoothd2Raw (smooth L) ++ [smoothd2];
              smoothd2InnerList := smoothd2InnerList (smooth L);
              curvatureAlong := curvatureAlong (smooth L) |} L.
Proof.
  unfold smoothFiber. intros Hb.
  apply bind_Ok in Hb as ([nx nd2] & Eg & Hb).
  apply bind_Ok in Hb as (sm & Es & Hb). injection Hb as <-.
  exists nx, nd2, sm. auto.
Qed.

(** The invariant of the loop over the angular indices: only
    [smoothd2Raw] has changed, by one smoothed fiber per index. *)
Definition smoothInv (a : Args) (eCAlong : Z) (L : Locals) (k : Z)
    (s : Locals) : Prop :=
  s = with_smooth (smooth s) L /\
  smoothd2InnerList (smooth s) = smoothd2InnerList (smooth L) /\
  curvatureAlong (smooth s) = curvatureAlong (smooth L) /\
  Z.of_nat (length (smoothd2Raw (smooth s))) =
    Z.of_nat (length (smoothd2Raw (smooth L))) + k /\
  forall n1, 0 <= n1 < k ->
    exists nx nd2 smoothd2,
      gatherFiber (elementsCountAround a) eCAlong n1 (inner L)
        = Ok (nx, nd2) /\
      smoothCubicHermiteDerivativesLine nx nd2 = Ok smoothd2 /\
      index (smoothd2Raw (smooth s))
            (Z.of_nat (length (smoothd2Raw (smooth L))) + n1) = Ok smoothd2.

Lemma smoothDerivativesAlong_invariant a eCAlong L L' :
  smoothDerivativesAlong a eCAlong L = Ok L' ->
  smoothInv a eCAlong L (Z.max 0 (elementsCountAround a)) L'.
Proof.
  unfold smoothDerivativesAlong.
  apply for_range_ind with (P := smoothInv a eCAlong L).
  - unfold smoothInv. repeat split; try lia. destruct L; reflexivity.
  - intros i s s' Hi (Hs & H1 & H2 & H3 & H4) Hb.
    apply smoothFiber_effect in Hb as (nx & nd2 & sm & Eg & Es & ->).
    unfold smoothInv. simpl. rewrite length_app. simpl.
    repeat split; auto; try lia.
    + rewrite Hs. reflexivity.
    + intros n1 Hn1. destruct (Z.eq_dec n1 i) as [->|Hne].
      * exists nx, nd2, sm. repeat split; auto.
        -- rewrite Hs in Eg. exact Eg.
        -- apply index_app_new. lia.
      * destruct (H4 n1) as (nx' & nd' & sm' & E1 & E2 & E3); [lia|].
        exists nx', nd', sm'. repeat split; auto.
        rewrite index_app_old; [exact E3 | lia].
Qed.

Lemma gatherFiber_returns eCAround eCAlong n1 (i : Inner) :
  0 <= eCAlong -> 0 <= n1 < eCAround ->
  (eCAlong + 1) * eCAround <= Z.of_nat (length (xInnerList i)) ->
  (eCAlong + 1) * eCAround <= Z.of_nat (length (d2InnerList i)) ->
  exists out, gatherFiber eCAround eCAlong n1 i = Ok out.
Proof.
  intros HA Hn Hx Hd. unfold gatherFiber.
  destruct (for_range_total (fun _ _ => True) (eCAlong + 1)
              (fun n2 '(nx, nd2) =>
                 let n := n2 * eCAround + n1 in
                 let* x := index (xInnerList i) n in
                 let* d := index (d2InnerList i) n in
                 Ok (nx ++ [x], nd2 ++ [d])) ([], []))
    as (out & Hout & _); [exact I | | eauto].
  intros k [nx nd2] Hk _. cbv zeta.
  assert (0 <= k * eCAround) by nia.
  assert ((k + 1) * eCAround <= (eCAlong + 1) * eCAround) by nia.
  destruct (index_in_range (xInnerList i) (k * eCAround + n1)) as [x Ex];
    [lia|].
  destruct (index_in_range (d2InnerList i) (k * eCAround + n1)) as [d Ed];
    [lia|].
  rewrite Ex, Ed. simpl. eauto.
Qed.

Lemma smoothDerivativesAlong_returns a eCAlong L :
  0 <= eCAlong ->
  (eCAlong + 1) * elementsCountAround a
    <= Z.of_nat (length (xInnerList (inner L))) ->
  (eCAlong + 1) * elementsCountAround a
    <= Z.of_nat (length (d2InnerList (inner L))) ->
  (forall nx nd2, exists smoothd2,
      smoothCubicHermiteDerivativesLine nx nd2 = Ok smoothd2) ->
  exists L', smoothDerivativesAlong a eCAlong L = Ok L'.
Proof.
  intros HA Hx Hd Hs. unfold smoothDerivativesAlong.
  destruct (for_range_total (fun _ s => inner s = inner L)
              (elementsCountAround a) (smoothFiber a eCAlong) L)
    as (L' & HL' & _); [reflexivity | | eauto].
  intros i s Hi Hin. unfold smoothFiber. rewrite Hin.
  destruct (gatherFiber_returns (elementsCountAround a) eCAlong i (inner L))
    as ([nx nd2] & Eg); auto.
  destruct (Hs nx nd2) as [sm Es].
  rewrite Eg. simpl. rewrite Es. simpl. eexists. split; [reflexivity|].
  exact Hin.
Qed.

End Smoothing.

(** C5.  The smoothing of the derivatives along the tube changes no
    position: after it [xInnerList] (and the whole inner surface as it was
    mapped onto the central line) is what it was before, so for every
    angular index the positions of the fiber, the entries
    [n2 * elementsCountAround + n1] of [xInnerList], are the same before
    and after; what the stage adds is, per angular index, the list of
    derivatives that [smoothCubicHermiteDerivativesLine] returns for the
    fiber.  The stage returns whenever the inner surface covers every
    vertex and the smoothing helper returns. *)
Theorem smoothing_changes_derivatives_not_positions `{Imports}
    (a : Args) (elementsCountAlong : Z) (L : Locals) :
  (0 <= elementsCountAlong ->
   (elementsCountAlong + 1) * elementsCountAround a
     <= Z.of_nat (length (xInnerList (inner L))) ->
   (elementsCountAlong + 1) * elementsCountAround a
     <= Z.of_nat (length (d2InnerList (inner L))) ->
   (forall nx nd2, exists smoothd2,
       smoothCubicHermiteDerivativesLine nx nd2 = Ok smoothd2) ->
   exists L', smoothDerivativesAlong a elementsCountAlong L = Ok L') /\
  (forall L',
     smoothDerivativesAlong a elementsCountAlong L = Ok L' ->
     xInnerList (inner L') = xInnerList (inner L) /\
     inner L' = inner L /\
     forall n1, 0 <= n1 < elementsCountAround a ->
       exists nx nd2 smoothd2,
         gatherFiber (elementsCountAround a) elementsCountAlong n1
                     (inner L) = Ok (nx, nd2) /\
         gatherFiber (elementsCountAround a) elementsCountAlong n1
                     (inner L') = Ok (nx, nd2) /\
         (forall n2, 0 <= n2 <= elementsCountAlong ->
            index nx n2 =
            index (xInnerList (inner L'))
                  (n2 * elementsCountAround a + n1)) /\
         smoothCubicHermiteDerivativesLine nx nd2 = Ok smoothd2 /\
         index (smoothd2Raw (smooth L'))
               (Z.of_nat (length (smoothd2Raw (smooth L))) + n1)
           = Ok smoothd2).
Proof.
  split.
  - apply smoothDerivativesAlong_returns.
  - intros L' Hrun.
    apply smoothDerivativesAlong_invariant in Hrun
      as (Hs & _ & _ & _ & Hall).
    assert (inner L' = inner L) as Hin by (rewrite Hs; reflexivity).
    split; [now rewrite Hin|]. split; [exact Hin|].
    intros n1 Hn1.
    destruct (Hall n1) as (nx & nd2 & sm & Eg & Es & Ei); [lia|].
    exists nx, nd2, sm. rewrite Hin. repeat split; auto.
    intros n2 Hn2.
    apply (gatherFiber_entries _ _ _ _ _ _ Eg). exact Hn2.
Qed.

Lemma smoothing_on_two_fibers :
  xInnerList (inner Example.twoFibersSmoothed)
    = xInnerList (inner Example.twoFibers) /\
  smoothd2Raw (smooth Example.twoFibersSmoothed)
    = [[Example.v3 1 0 0; Example.v3 1 0 0];
       [Example.v3 1 0 0; Example.v3 1 0 0]].
Proof.
  assert (smoothDerivativesAlong Example.twoFibersArgs 1 Example.twoFibers
          = Ok Example.twoFibersSmoothed) as Hrun
    by (vm_compute; reflexivity).
  split.
  - apply (proj2 (smoothing_changes_derivatives_not_positions
                    Example.twoFibersArgs 1 Example.twoFibers) _ Hrun).
  - vm_compute. reflexivity.
Defined.

(** ** The frame of a station *)

(** When the test of line 162 is reached and the cross product of the two
    in-plane alignment vectors of the second rotation (the normalised
    projection of the cross direction and the normalised direction of the
    first rotated point) has a magnitude that is not greater than zero,
    the second rotation is the identity matrix.  The statements before the
    test, [math.acos] of line 161 among them, are assumed to have
    returned. *)
Lemma second_rotation_is_identity_for_parallel_vectors `{Imports}
    (sd2n2 unitTangent midRot xRot1 : vec3)
    (dist cosTheta thetaRot2 m2 : float) (firstVector unitNew cp2 : vec3) :
  dotproduct sd2n2 unitTangent = Ok dist ->
  normalise (build3 (fun j => sub (comp xRot1 j) (comp midRot j)))
    = Ok firstVector ->
  normalise (planarProjection sd2n2 unitTangent midRot dist) = Ok unitNew ->
  dotproduct unitNew firstVector = Ok cosTheta ->
  acos cosTheta = Ok thetaRot2 ->
  crossproduct3 unitNew firstVector = Ok cp2 ->
  magnitude cp2 = Ok m2 ->
  gtb m2 zero = false ->
  secondRotation sd2n2 unitTangent midRot xRot1 = Ok identity3.
Proof.
  intros Hd Hf Hn Hc Ha Hx Hm Hz. unfold secondRotation.
  rewrite Hd. simpl. rewrite Hf. simpl. rewrite Hn. simpl.
  rewrite Hc. simpl. rewrite Ha. simpl. rewrite Hx. simpl.
  rewrite Hm. simpl. rewrite Hz. reflexivity.
Qed.

Lemma second_rotation_on_aligned_station :
  Example.alignedSecondRotation = Ok identity3.
Proof.
  unfold Example.alignedSecondRotation.
  eapply (second_rotation_is_identity_for_parallel_vectors
            (Example.v3 0 1 0) (Example.v3 1 0 0) (Example.v3 0 0 0)
            (Example.v3 0 2 0));
    try (vm_compute; reflexivity).
Defined.

(** C6.  The fallback to the identity does not cover [math.acos]: the
    angle of the second rotation is computed (line 161) before the cross
    product of the two in-plane alignment vectors is tested (line 162).
    When the dot product of the two unit vectors is not accepted by
    [math.acos] the block raises that error and assigns no [rotFrame2],
    whatever the cross product is, also when its magnitude is zero.  This
    happens for parallel vectors: the unit vector of (3, 3, 0) has the dot
    product 1.0000000000000002 with itself, see
    [Example.parallelSecondRotation]. *)
Theorem parallel_alignment_vectors_raise_in_acos `{Imports}
    (sd2n2 unitTangent midRot xRot1 : vec3)
    (dist cosTheta : float) (firstVector unitNew : vec3) (e : exn) :
  dotproduct sd2n2 unitTangent = Ok dist ->
  normalise (build3 (fun j => sub (comp xRot1 j) (comp midRot j)))
    = Ok firstVector ->
  normalise (planarProjection sd2n2 unitTangent midRot dist) = Ok unitNew ->
  dotproduct unitNew firstVector = Ok cosTheta ->
  acos cosTheta = Raise e ->
  secondRotation sd2n2 unitTangent midRot xRot1 = Raise e.
Proof.
  intros Hd Hf Hn Hc Ha. unfold secondRotation.
  rewrite Hd. simpl. rewrite Hf. simpl. rewrite Hn. simpl.
  rewrite Hc. simpl. rewrite Ha. reflexivity.
Qed.

Lemma second_rotation_of_parallel_vectors_raises :
  normalise (build3 (fun j => sub (comp (Example.v3 3 3 0) j)
                                  (comp (Example.v3 0 0 0) j)))
    = Ok Example.parallelUnit /\
  normalise (planarProjection (Example.v3 3 3 0) (Example.v3 0 0 1)
                              (Example.v3 0 0 0) zero)
    = Ok Example.parallelUnit /\
  (let* cp2 := crossproduct3 Example.parallelUnit Example.parallelUnit in
   magnitude cp2) = Ok zero /\
  gtb zero zero = false /\
  dotproduct Example.parallelUnit Example.parallelUnit
    = Ok Example.parallelCosine /\
  gtb Example.parallelCosine one = true /\
  Example.parallelSecondRotation = Raise ValueError.
Proof.
  do 6 (split; [vm_compute; reflexivity|]).
  unfold Example.parallelSecondRotation.
  apply (parallel_alignment_vectors_raise_in_acos
           (Example.v3 3 3 0) (Example.v3 0 0 1) (Example.v3 0 0 0)
           (Example.v3 3 3 0) zero Example.parallelCosine
           Example.parallelUnit Example.parallelUnit ValueError);
    vm_compute; reflexivity.
Defined.

(** *** A station whose tangent is the segment axis *)

Section UnrotatedStation.

Context `{Imports}.

(** When the cross product of the segment axis and the tangent has no
    magnitude greater than zero, the frame of the station keeps the
    [translateMatrix] it had: the branch assigns [midRot] only. *)
Lemma alignFrame_unrotated (a : Args) (sx : list vec3)
    (segmentMid unitTangent cp : vec3) (n2 : Z) (fr : Frame) (m : float) :
  magnitude cp = Ok m -> gtb m zero = false ->
  alignFrame a sx segmentMid unitTangent cp n2 fr =
    Ok {| rotFrame := rotFrame fr; midRot := Some segmentMid;
          translateMatrix := translateMatrix fr;
          rotFrame2 := rotFrame2 fr |}.
Proof.
  intros Hm Hz. unfold alignFrame. rewrite Hm. simpl. rewrite Hz.
  reflexivity.
Qed.

(** A point of such a station is not rotated, and reading
    [translateMatrix] raises when no earlier station has assigned it. *)
Lemma alignPoint_unrotated_unbound (a : Args) (sd2 : list vec3)
    (unitTangent cp : vec3) (n2 nAlongSegment n1 : Z) (L : Locals)
    (m : float) (x d1 d2 : vec3) :
  index (xInner a) (nAlongSegment * elementsCountAround a + n1) = Ok x ->
  index (d1Inner a) (nAlongSegment * elementsCountAround a + n1) = Ok d1 ->
  index (d2Inner a) (nAlongSegment * elementsCountAround a + n1) = Ok d2 ->
  magnitude cp = Ok m -> gtb m zero = false ->
  translateMatrix (frame L) = None ->
  alignPoint a sd2 unitTangent cp n2 nAlongSegment n1 L
    = Raise UnboundLocalError.
Proof.
  intros Hx Hd1 Hd2 Hm Hz Hnone. unfold alignPoint.
  rewrite Hx, Hd1, Hd2. simpl. rewrite Hm. simpl. rewrite Hz. simpl.
  rewrite Hnone. reflexivity.
Qed.

(** Otherwise the point is moved by the translation of the last rotated
    station, whatever the position [sx[n2]] of its own station. *)
Lemma alignPoint_unrotated_stale (a : Args) (sd2 : list vec3)
    (unitTangent cp : vec3) (n2 nAlongSegment n1 : Z) (L : Locals)
    (m : float) (x d1 d2 t u1 u2 c d3 : vec3) :
  index (xInner a) (nAlongSegment * elementsCountAround a + n1) = Ok x ->
  index (d1Inner a) (nAlongSegment * elementsCountAround a + n1) = Ok d1 ->
  index (d2Inner a) (nAlongSegment * elementsCountAround a + n1) = Ok d2 ->
  magnitude cp = Ok m -> gtb m zero = false ->
  translateMatrix (frame L) = Some t ->
  normalise d1 = Ok u1 -> normalise d2 = Ok u2 ->
  crossproduct3 u1 u2 = Ok c -> normalise c = Ok d3 ->
  alignPoint a sd2 unitTangent cp n2 nAlongSegment n1 L =
    Ok (with_frame (frame L)
         (with_inner
            {| xInnerList :=
                 xInnerList (inner L)
                   ++ [V3 (add (c0 x) (c0 t)) (add (c1 x) (c1 t))
                          (add (c2 x) (c2 t))];
               d1InnerList := d1InnerList (inner L) ++ [d1];
               d2InnerList := d2InnerList (inner L) ++ [d2];
               d3InnerUnitList := d3InnerUnitList (inner L) ++ [d3] |} L)).
Proof.
  intros Hx Hd1 Hd2 Hm Hz Hsome Hu1 Hu2 Hc Hd3. unfold alignPoint.
  rewrite Hx, Hd1, Hd2. simpl. rewrite Hm. simpl. rewrite Hz. simpl.
  rewrite Hsome. simpl. rewrite Hu1. simpl. rewrite Hu2. simpl.
  rewrite Hc. simpl. rewrite Hd3. reflexivity.
Qed.

Lemma range_first (n : Z) : 0 < n -> exists rest, range n = 0 :: rest.
Proof.
  intros Hn. unfold range.
  destruct (Z.to_nat n) as [|k] eqn:E; [lia|]. simpl. eauto.
Qed.

(** The first station of a call, when its tangent is along the segment
    axis: the call raises at the first point. *)
Lemma first_station_along_axis_raises (a : Args) (sx sd1 sd2 : list vec3)
    (q m : float) (tangent unitTangent cp x d1 d2 : vec3) :
  truediv_int (segmentLength a) (elementsCountAlongSegment a) = Ok q ->
  index sd1 0 = Ok tangent ->
  normalise tangent = Ok unitTangent ->
  crossproduct3 (segmentAxis a) unitTangent = Ok cp ->
  magnitude cp = Ok m -> gtb m zero = false ->
  0 < elementsCountAround a ->
  index (xInner a) 0 = Ok x ->
  index (d1Inner a) 0 = Ok d1 ->
  index (d2Inner a) 0 = Ok d2 ->
  alignStation a sx sd1 sd2 0 0 (initialLocals a) = Raise UnboundLocalError.
Proof.
  intros Hq Ht Hu Hc Hm Hz Hn Hx Hd1 Hd2. unfold alignStation. simpl.
  rewrite Hq. simpl. rewrite Ht. simpl. rewrite Hu. simpl.
  rewrite Hc. simpl.
  rewrite (alignFrame_unrotated _ _ _ _ _ _ _ m Hm Hz). simpl.
  destruct (range_first _ Hn) as [rest ->]. simpl.
  rewrite (alignPoint_unrotated_unbound _ _ _ _ _ _ _ _ m x d1 d2);
    auto.
Qed.

End UnrotatedStation.

(** C3 (the code at an input where the claim fails).  For a central line
    along the segment axis the cross product of the axis and the tangent
    of the first station is the zero vector; the branch taken assigns
    [midRot] but no [translateMatrix], and the call raises
    [UnboundLocalError] where the first point is translated (line 176),
    instead of returning the profile moved onto the central line. *)
Theorem station_along_axis_has_no_translation :
  generatetubemesh Example.tubeAlongAxis = Raise UnboundLocalError.
Proof. vm_compute. reflexivity. Qed.

(** The same defect after a rotated station: the second station of
    [Example.bentTube] has the segment axis as its tangent and lies at
    [(6, 0, 1)], its midpoint in the profile at [(0, 0, 1)]; its first
    profile point [(1, 0, 1)] is moved by [(5, 0, 0)], the translation of
    the first station, to [(6, 0, 1)], not by [(6, 0, 0)] to
    [(7, 0, 1)]. *)
Lemma station_along_axis_after_rotated_station :
  exists L,
    Example.bentTubeMapped = Ok L /\
    translateMatrix (frame L) = Some (Example.v3 5 0 0) /\
    index (xInnerList (inner L)) 4 = Ok (Example.v3 6 0 1) /\
    Example.v3 6 0 1 <> Example.v3 7 0 1.
Proof.
  destruct Example.bentTubeMapped as [L|e] eqn:E;
    [|vm_compute in E; discriminate].
  exists L. split; [reflexivity|].
  assert (translateMatrix (frame L) = Some (Example.v3 5 0 0) /\
          index (xInnerList (inner L)) 4 = Ok (Example.v3 6 0 1)) as [H1 H2].
  { vm_compute in E. injection E as <-. vm_compute. split; reflexivity. }
  repeat split; auto. discriminate.
Qed.

(** ** The layers through the wall and the returned lists *)

Section ThroughWall.
Context `{Imports}.

Variables (a : Args) (sx xOuterList : list vec3) (curvatureInner : list float).
Variable (eCAlong : Z).
Variable (L0 : Locals).

Definition vertexCount : Z :=
  Z.max 0 (eCAlong + 1) * Z.max 0 (elementsCountAround a).

(** The call of [interpolatefromInnerAndOuter] for layer [n3]. *)
Definition layerCall (n3 : Z)
  : result (list vec3 * list vec3 * list vec3 * list vec3 * list float) :=
  let* q := long_true_divide 1 (elementsCountThroughWall a) in
  let* xi3 := mul_int q n3 in
  interpolatefromInnerAndOuter
    (xInnerList (inner L0)) xOuterList (wallThickness a) xi3 sx
    curvatureInner (curvatureAlong (smooth L0))
    (d1InnerList (inner L0)) (smoothd2InnerList (smooth L0))
    (d3InnerUnitList (inner L0))
    (elementsCountAround a) eCAlong (elementsCountThroughWall a).

Definition wallInv (k : Z) (s : Locals) : Prop :=
  s = with_wall (wall s) L0 /\
  Z.of_nat (length (xList (wall s))) =
    Z.of_nat (length (xList (wall L0))) + k * vertexCount /\
  Z.of_nat (length (dx_ds1List (wall s))) =
    Z.of_nat (length (dx_ds1List (wall L0))) + k * vertexCount /\
  Z.of_nat (length (dx_ds2List (wall s))) =
    Z.of_nat (length (dx_ds2List (wall L0))) + k * vertexCount /\
  Z.of_nat (length (dx_ds3List (wall s))) =
    Z.of_nat (length (dx_ds3List (wall L0))) + k * vertexCount /\
  (k = 0 -> factorList (wall s) = factorList (wall L0)) /\
  (0 < k ->
   exists out,
     layerCall (k - 1) = Ok out /\
     factorList (wall s) = Some (layerFactors out)).

Lemma interpolateThroughWall_invariant L' :
  interpolateThroughWall a sx xOuterList curvatureInner eCAlong L0 = Ok L' ->
  wallInv (Z.max 0 (elementsCountThroughWall a + 1)) L'.
Proof.
  unfold interpolateThroughWall.
  apply for_range_ind with (P := wallInv).
  - unfold wallInv. repeat split; try lia. destruct L0; reflexivity.
  - intros i s s' Hi (Hs & H1 & H2 & H3 & H4 & _ & _) Hb.
    unfold interpolateLayer in Hb.
    apply bind_Ok in Hb as (q & Eq & Hb).
    apply bind_Ok in Hb as (xi3 & Exi & Hb).
    apply bind_Ok in Hb as (out & Eout & Hb).
    destruct out as [[[[x d1] d2] d3] f]. injection Hb as <-.
    assert (inner s = inner L0) as Hin by (rewrite Hs; reflexivity).
    assert (smooth s = smooth L0) as Hsm by (rewrite Hs; reflexivity).
    rewrite Hin, Hsm in Eout.
    pose proof (interpolate_lengths _ _ _ _ _ _ _ _ _ _ _ _ _ _ Eout)
      as (LX & LD1 & LD2 & LD3 & LF).
    unfold layerX, layerD1, layerD2, layerD3, layerFactors in *.
    simpl in *. fold vertexCount in LX, LD1, LD2, LD3, LF.
    unfold wallInv. simpl. rewrite !length_app.
    repeat split; try lia.
    + rewrite Hs. reflexivity.
    + intros _. exists (x, d1, d2, d3, f). split; [|reflexivity].
      unfold layerCall. rewrite Eq. simpl.
      replace (i + 1 - 1) with i by lia. rewrite Exi. exact Eout.
Qed.
End ThroughWall.

Lemma for_range_preserves {S : Type} (P : S -> Prop) (n : Z)
    (body : Z -> S -> result S) (s0 sN : S) :
  P s0 ->
  (forall i s s', P s -> body i s = Ok s' -> P s') ->
  for_ (range n) body s0 = Ok sN -> P sN.
Proof.
  intros H0 Hstep Hrun.
  apply (for_range_ind (fun _ s => P s) n body s0 sN); auto.
  intros i s s' _. apply Hstep.
Qed.

(** The lists of the geometry: what the stages after the interpolation
    leave as it is. *)
Definition sameGeometry (L L' : Locals) : Prop :=
  inner L' = inner L /\ smooth L' = smooth L /\ wall L' = wall L.

Lemma sameGeometry_refl L : sameGeometry L L.
Proof. repeat split. Qed.

Lemma sameGeometry_trans L1 L2 L3 :
  sameGeometry L1 L2 -> sameGeometry L2 L3 -> sameGeometry L1 L3.
Proof.
  intros (A1 & A2 & A3) (B1 & B2 & B3). repeat split; congruence.
Qed.

Ltac keep_geometry :=
  match goal with
  | Hb : _ = Ok ?s', Hs : sameGeometry ?L ?s |- sameGeometry ?L ?s' =>
      inv_bind Hb;
      repeat match goal with
             | Hb : (if ?c then _ else _) = Ok _ |- _ => destruct c
             end;
      inv_bind Hb; injection Hb as <-;
      destruct Hs as (? & ? & ?); repeat split; simpl; assumption
  end.

Section LaterStages.
Context `{Imports}.

Lemma createNodes_keeps L L' : createNodes L = Ok L' -> sameGeometry L L'.
Proof.
  unfold createNodes.
  apply for_range_preserves; [apply sameGeometry_refl|].
  intros i s s' Hs Hb. keep_geometry.
Qed.

Lemma createElements_keeps a n L L' :
  createElements a n L = Ok L' -> sameGeometry L L'.
Proof.
  unfold createElements.
  apply for_range_preserves; [repeat split|].
  intros e3 s3 s3' Hs3. apply for_range_preserves; [exact Hs3|].
  intros e2 s2 s2' Hs2. apply for_range_preserves; [exact Hs2|].
  intros e1 s s' Hs Hb. keep_geometry.
Qed.

Lemma mergeElements_keeps a n L L' :
  mergeElements a n L = Ok L' -> sameGeometry L L'.
Proof.
  unfold mergeElements.
  apply for_range_preserves; [repeat split|].
  intros e3 s3 s3' Hs3. apply for_range_preserves; [exact Hs3|].
  intros e2 s2 s2' Hs2. apply for_range_preserves; [exact Hs2|].
  intros e1 s s' Hs Hb. keep_geometry.
Qed.

Lemma textureCoordinates_keeps a n L L' :
  textureCoordinates a n L = Ok L' -> sameGeometry L L'.
Proof.
  unfold textureCoordinates. intros Hrun.
  apply bind_Ok in Hrun as (dv & _ & Hrun).
  apply bind_Ok in Hrun as (l1 & _ & Hrun).
  apply bind_Ok in Hrun as (l2 & _ & Hrun).
  revert Hrun.
  apply for_range_preserves; [repeat split|].
  intros e3 s3 s3' Hs3. apply for_range_preserves; [exact Hs3|].
  intros e2 s2 s2' Hs2. apply for_range_preserves; [exact Hs2|].
  intros e1 s s' Hs Hb. keep_geometry.
Qed.

Lemma flatCoordinates_keeps a n L L' :
  flatCoordinates a n L = Ok L' -> sameGeometry L L'.
Proof.
  unfold flatCoordinates. intros Hrun.
  apply bind_Ok in Hrun as (total & _ & Hrun).
  apply bind_Ok in Hrun as (dv & _ & Hrun).
  apply bind_Ok in Hrun as (l1 & _ & Hrun).
  apply bind_Ok in Hrun as (l2 & _ & Hrun).
  revert Hrun.
  apply for_range_preserves; [repeat split|].
  intros e3 s3 s3' Hs3. apply for_range_preserves; [exact Hs3|].
  intros e2 s2 s2' Hs2. apply for_range_preserves; [exact Hs2|].
  intros e1 s s' Hs Hb. keep_geometry.
Qed.

End LaterStages.

Section EarlierStages.

Context `{Imports}.

Lemma alignStation_keeps_wall a sx sd1 sd2 nSegment nAlongSegment L L' :
  alignStation a sx sd1 sd2 nSegment nAlongSegment L = Ok L' ->
  wall L' = wall L.
Proof.
  unfold alignStation. intros Hrun.
  destruct ((nSegment =? 0) || (nSegment >? 0) && (nAlongSegment >? 0));
    [|congruence].
  inv_bind Hrun. revert Hrun.
  apply (for_range_preserves (fun s => wall s = wall L)); [reflexivity|].
  intros n1 s s' Hs Hb. unfold alignPoint in Hb.
  inv_bind Hb.
  match goal with
  | v : (vec3 * vec3 * vec3 * Frame)%type |- _ =>
      destruct v as [[[x1 x2] x3] fr]
  end.
  inv_bind Hb.
  injection Hb as <-. exact Hs.
Qed.

Lemma mapFacesToCentralLine_keeps_wall a sx sd1 sd2 L L' :
  mapFacesToCentralLine a sx sd1 sd2 L = Ok L' -> wall L' = wall L.
Proof.
  unfold mapFacesToCentralLine.
  apply (for_range_preserves (fun s => wall s = wall L)); [reflexivity|].
  intros nSegment s3 s3' Hs3.
  apply (for_range_preserves (fun s => wall s = wall L)); [exact Hs3|].
  intros nAlongSegment s s' Hs Hb.
  apply alignStation_keeps_wall in Hb. congruence.
Qed.

Lemma smoothDerivativesAlong_keeps_wall a n L L' :
  smoothDerivativesAlong a n L = Ok L' -> wall L' = wall L.
Proof.
  intros Hrun.
  apply smoothDerivativesAlong_invariant in Hrun as (Hs & _).
  rewrite Hs. reflexivity.
Qed.

Lemma curvatureAlongLine_keeps_wall a sx sd1 n L L' :
  curvatureAlongLine a sx sd1 n L = Ok L' -> wall L' = wall L.
Proof.
  unfold curvatureAlongLine.
  apply (for_range_preserves (fun s => wall s = wall L)); [reflexivity|].
  intros n2 s2 s2' Hs2.
  apply (for_range_preserves (fun s => wall s = wall L)); [exact Hs2|].
  intros n1 s s' Hs Hb. inv_bind Hb. injection Hb as <-. exact Hs.
Qed.

End EarlierStages.

(** What [generatetubemesh] returns, by its stages. *)
Lemma generatetubemesh_stages `{Imports} (a : Args) (out : Output) :
  generatetubemesh a = Ok out ->
  let n := elementsCountAlongSegment a * segmentCountAlong a in
  exists sx xOuterList curvatureInner L4 L5,
    wall L4 = wall (initialLocals a) /\
    interpolateThroughWall a sx xOuterList curvatureInner n L4 = Ok L5 /\
    factorList (wall L5) = Some (out_factorList out) /\
    out_xList out = xList (wall L5) /\
    out_dx_ds1List out = dx_ds1List (wall L5) /\
    out_dx_ds2List out = dx_ds2List (wall L5) /\
    out_dx_ds3List out = dx_ds3List (wall L5) /\
    out_sx out = sx /\
    out_curvatureAlong out = curvatureAlong (smooth L5).
Proof.
  unfold generatetubemesh. intros Hrun. cbv zeta in *.
  apply bind_Ok in Hrun as ([[[[sx sd1] se] sxi] ssf] & Es & Hrun).
  apply bind_Ok in Hrun as ([sd2 sd12] & Ei & Hrun).
  apply bind_Ok in Hrun as (L1 & E1 & Hrun).
  apply bind_Ok in Hrun as (L2 & E2 & Hrun).
  apply bind_Ok in Hrun as (L3 & E3 & Hrun).
  apply bind_Ok in Hrun as ([xO cI] & Eo & Hrun).
  apply bind_Ok in Hrun as (L5 & E5 & Hrun).
  apply bind_Ok in Hrun as (L6 & E6 & Hrun).
  apply bind_Ok in Hrun as (L7 & E7 & Hrun).
  apply bind_Ok in Hrun as (L8 & E8 & Hrun).
  apply bind_Ok in Hrun as (L9 & E9 & Hrun).
  apply bind_Ok in Hrun as (L10 & E10 & Hrun).
  apply bind_Ok in Hrun as (factors & Ef & Hrun).
  injection Hrun as <-. simpl.
  apply mapFacesToCentralLine_keeps_wall in E1.
  apply smoothDerivativesAlong_keeps_wall in E2.
  apply curvatureAlongLine_keeps_wall in E3.
  apply createNodes_keeps in E6.
  apply createElements_keeps in E7.
  apply textureCoordinates_keeps in E8.
  apply flatCoordinates_keeps in E9.
  apply mergeElements_keeps in E10.
  pose proof (sameGeometry_trans _ _ _ E6
               (sameGeometry_trans _ _ _ E7
                 (sameGeometry_trans _ _ _ E8
                   (sameGeometry_trans _ _ _ E9 E10)))) as (Gi & Gs & Gw).
  exists sx, xO, cI, L3, L5. rewrite Gw, Gs.
  repeat split; auto; try congruence.
  - rewrite E3, E2, E1. reflexivity.
  - rewrite Gw in Ef.
    destruct (factorList (wall L5)); simpl in Ef; congruence.
Qed.

Lemma interpolateThroughWall_raises_without_elements `{Imports}
    (a : Args) (sx xOuterList : list vec3) (curvatureInner : list float)
    (elementsCountAlong : Z) (L : Locals) :
  elementsCountThroughWall a = 0 ->
  interpolateThroughWall a sx xOuterList curvatureInner elementsCountAlong L
    = Raise ZeroDivisionError.
Proof.
  intros Hz. unfold interpolateThroughWall, interpolateLayer.
  rewrite Hz. reflexivity.
Qed.

(** The stages of a call that returns, each with the arguments that the
    function passes to it. *)
Lemma generatetubemesh_pipeline `{Imports} (a : Args) (out : Output) :
  generatetubemesh a = Ok out ->
  let n := elementsCountAlongSegment a * segmentCountAlong a in
  exists sx sd1 se sxi ssf sd2 sd12 L1 L2 L3 xOuterList curvatureInner L4,
    sampleCubicHermiteCurves (cx a) (cd1 a) n = Ok (sx, sd1, se, sxi, ssf) /\
    interpolateSampleCubicHermite (cd2 a) (cd12 a) se sxi ssf
      = Ok (sd2, sd12) /\
    mapFacesToCentralLine a sx sd1 sd2 (initialLocals a) = Ok L1 /\
    smoothDerivativesAlong a n L1 = Ok L2 /\
    curvatureAlongLine a sx sd1 n L2 = Ok L3 /\
    getOuterCoordinatesAndCurvatureFromInner
      (xInnerList (inner L3)) (d1InnerList (inner L3))
      (d3InnerUnitList (inner L3)) (wallThickness a) n
      (elementsCountAround a) (transitElementList a)
      = Ok (xOuterList, curvatureInner) /\
    interpolateThroughWall a sx xOuterList curvatureInner n L3 = Ok L4 /\
    wall L3 = wall (initialLocals a) /\
    factorList (wall L4) = Some (out_factorList out) /\
    out_xList out = xList (wall L4) /\
    out_dx_ds1List out = dx_ds1List (wall L4) /\
    out_dx_ds2List out = dx_ds2List (wall L4) /\
    out_dx_ds3List out = dx_ds3List (wall L4).
Proof.
  unfold generatetubemesh. intros Hrun. cbv zeta in *.
  apply bind_Ok in Hrun as ([[[[sx sd1] se] sxi] ssf] & Es & Hrun).
  apply bind_Ok in Hrun as ([sd2 sd12] & Ei & Hrun).
  apply bind_Ok in Hrun as (L1 & E1 & Hrun).
  apply bind_Ok in Hrun as (L2 & E2 & Hrun).
  apply bind_Ok in Hrun as (L3 & E3 & Hrun).
  apply bind_Ok in Hrun as ([xO cI] & Eo & Hrun).
  apply bind_Ok in Hrun as (L5 & E5 & Hrun).
  apply bind_Ok in Hrun as (L6 & E6 & Hrun).
  apply bind_Ok in Hrun as (L7 & E7 & Hrun).
  apply bind_Ok in Hrun as (L8 & E8 & Hrun).
  apply bind_Ok in Hrun as (L9 & E9 & Hrun).
  apply bind_Ok in Hrun as (L10 & E10 & Hrun).
  apply bind_Ok in Hrun as (factors & Ef & Hrun).
  injection Hrun as <-. simpl.
  exists sx, sd1, se, sxi, ssf, sd2, sd12, L1, L2, L3, xO, cI, L5.
  pose proof (mapFacesToCentralLine_keeps_wall _ _ _ _ _ _ E1) as W1.
  pose proof (smoothDerivativesAlong_keeps_wall _ _ _ _ E2) as W2.
  pose proof (curvatureAlongLine_keeps_wall _ _ _ _ _ _ E3) as W3.
  apply createNodes_keeps in E6.
  apply createElements_keeps in E7.
  apply textureCoordinates_keeps in E8.
  apply flatCoordinates_keeps in E9.
  apply mergeElements_keeps in E10.
  pose proof (sameGeometry_trans _ _ _ E6
               (sameGeometry_trans _ _ _ E7
                 (sameGeometry_trans _ _ _ E8
                   (sameGeometry_trans _ _ _ E9 E10)))) as (Gi & Gs & Gw).
  split; [exact Es|]. split; [exact Ei|]. split; [exact E1|].
  split; [exact E2|]. split; [exact E3|]. split; [exact Eo|].
  split; [exact E5|]. split; [rewrite W3, W2, W1; reflexivity|]. split.
  - rewrite Gw in Ef.
    destruct (factorList (wall L5)); simpl in Ef; congruence.
  - rewrite Gw. repeat split.
Qed.

(** The docstring's reading of the returned [factorList] ("List of ...
    scale factor along mesh for each node on inner surface of mesh"), for
    comparison with what the code returns: the factors that
    [interpolatefromInnerAndOuter] computes for the layer [n3 = 0], the
    inner surface. *)
Definition factorListOfInnerSurface `{Imports} (a : Args)
  : result (list float) :=
  let n := elementsCountAlongSegment a * segmentCountAlong a in
  let* '(sx, sd1, se, sxi, ssf) :=
    sampleCubicHermiteCurves (cx a) (cd1 a) n in
  let* '(sd2, _) :=
    interpolateSampleCubicHermite (cd2 a) (cd12 a) se sxi ssf in
  let* L := mapFacesToCentralLine a sx sd1 sd2 (initialLocals a) in
  let* L := smoothDerivativesAlong a n L in
  let* L := curvatureAlongLine a sx sd1 n L in
  let* '(xOuterList, curvatureInner) :=
    getOuterCoordinatesAndCurvatureFromInner
      (xInnerList (inner L)) (d1InnerList (inner L))
      (d3InnerUnitList (inner L)) (wallThickness a) n
      (elementsCountAround a) (transitElementList a) in
  let* lists := layerCall a sx xOuterList curvatureInner n L 0 in
  Ok (layerFactors lists).

(** The factors of the inner surface of the curved tube. *)
Definition curvedTubeInnerFactors : list float :=
  Eval vm_compute in
    match factorListOfInnerSurface Example.curvedTube with
    | Ok l => l
    | Raise _ => []
    end.

(** C7 (what the code returns, at any input).  The [factorList] that a
    call of [generatetubemesh] returns is the list that the last call of
    [interpolatefromInnerAndOuter] returned, the one for the layer
    [n3 = elementsCountThroughWall] on the arguments that the function
    passes to it: line 213 binds [factorList] anew in every iteration of
    the loop over the layers, whereas the four other lists are
    concatenated.  It holds one factor per station and angular index,
    [(elementsCountAlong + 1) * elementsCountAround] in all, the four
    other lists [elementsCountThroughWall + 1] times as many. *)
Theorem returned_factor_list_is_of_last_layer `{Imports}
    (a : Args) (out : Output) :
  generatetubemesh a = Ok out ->
  let elementsCountAlong :=
    elementsCountAlongSegment a * segmentCountAlong a in
  let layer := Z.max 0 (elementsCountAlong + 1)
               * Z.max 0 (elementsCountAround a) in
  exists sx sd1 se sxi ssf sd2 sd12 L1 L2 L3 xOuterList curvatureInner lists,
    sampleCubicHermiteCurves (cx a) (cd1 a) elementsCountAlong
      = Ok (sx, sd1, se, sxi, ssf) /\
    interpolateSampleCubicHermite (cd2 a) (cd12 a) se sxi ssf
      = Ok (sd2, sd12) /\
    mapFacesToCentralLine a sx sd1 sd2 (initialLocals a) = Ok L1 /\
    smoothDerivativesAlong a elementsCountAlong L1 = Ok L2 /\
    curvatureAlongLine a sx sd1 elementsCountAlong L2 = Ok L3 /\
    getOuterCoordinatesAndCurvatureFromInner
      (xInnerList (inner L3)) (d1InnerList (inner L3))
      (d3InnerUnitList (inner L3)) (wallThickness a) elementsCountAlong
      (elementsCountAround a) (transitElementList a)
      = Ok (xOuterList, curvatureInner) /\
    layerCall a sx xOuterList curvatureInner elementsCountAlong L3
              (elementsCountThroughWall a) = Ok lists /\
    out_factorList out = layerFactors lists /\
    1 <= elementsCountThroughWall a /\
    Z.of_nat (length (out_factorList out)) = layer /\
    Z.of_nat (length (out_xList out))
      = (elementsCountThroughWall a + 1) * layer /\
    Z.of_nat (length (out_dx_ds1List out))
      = (elementsCountThroughWall a + 1) * layer /\
    Z.of_nat (length (out_dx_ds2List out))
      = (elementsCountThroughWall a + 1) * layer /\
    Z.of_nat (length (out_dx_ds3List out))
      = (elementsCountThroughWall a + 1) * layer.
Proof.
  intros Hrun. cbv zeta.
  apply generatetubemesh_pipeline in Hrun
    as (sx & sd1 & se & sxi & ssf & sd2 & sd12 & L1 & L2 & L3 & xO & cI &
        L4 & Es & Ei & E1 & E2 & E3 & Eo & E4 & Hw & Hf & Hx & H1 & H2 &
        H3).
  cbv zeta in *.
  pose proof (interpolateThroughWall_invariant _ _ _ _ _ _ _ E4)
    as (_ & Lx & Ld1 & Ld2 & Ld3 & Hzero & Hpos).
  rewrite Hw in *. simpl in *.
  assert (elementsCountThroughWall a <> 0) as Hne.
  { intros Hz.
    rewrite interpolateThroughWall_raises_without_elements in E4
      by exact Hz. discriminate. }
  destruct (Z.le_gt_cases (elementsCountThroughWall a + 1) 0) as [Hk|Hk].
  { rewrite Hzero in Hf by lia. discriminate. }
  replace (Z.max 0 (elementsCountThroughWall a + 1))
    with (elementsCountThroughWall a + 1) in * by lia.
  destruct Hpos as (lists & Hcall & Hsome); [lia|].
  replace (elementsCountThroughWall a + 1 - 1)
    with (elementsCountThroughWall a) in Hcall by lia.
  rewrite Hsome in Hf. injection Hf as Hf.
  exists sx, sd1, se, sxi, ssf, sd2, sd12, L1, L2, L3, xO, cI, lists.
  unfold vertexCount in *. rewrite Hx, H1, H2, H3.
  repeat split; auto; try lia.
  rewrite <- Hf. unfold layerCall in Hcall.
  apply bind_Ok in Hcall as (q & _ & Hcall).
  apply bind_Ok in Hcall as (xi3 & _ & Hcall).
  apply interpolate_lengths in Hcall. cbv zeta in Hcall. tauto.
Qed.

Lemma returned_lists_of_curved_tube :
  generatetubemesh Example.curvedTube = Ok Example.curvedTubeOutput /\
  (exists sx xOuterList curvatureInner L3 lists,
     layerCall Example.curvedTube sx xOuterList curvatureInner
       (elementsCountAlongSegment Example.curvedTube
        * segmentCountAlong Example.curvedTube) L3
       (elementsCountThroughWall Example.curvedTube) = Ok lists /\
     out_factorList Example.curvedTubeOutput = layerFactors lists) /\
  Z.of_nat (length (out_factorList Example.curvedTubeOutput))
    = Z.max 0 (elementsCountAlongSegment Example.curvedTube
               * segmentCountAlong Example.curvedTube + 1)
      * Z.max 0 (elementsCountAround Example.curvedTube).
Proof.
  assert (generatetubemesh Example.curvedTube
          = Ok Example.curvedTubeOutput) as Hrun
    by (vm_compute; reflexivity).
  split; [exact Hrun|].
  destruct (returned_factor_list_is_of_last_layer
              Example.curvedTube Example.curvedTubeOutput Hrun)
    as (sx & sd1 & se & sxi & ssf & sd2 & sd12 & L1 & L2 & L3 & xO & cI &
        lists & _ & _ & _ & _ & _ & _ & Hcall & Hf & _ & Hlen & _).
  split; [|exact Hlen].
  exists sx, xO, cI, L3, lists. split; [exact Hcall | exact Hf].
Defined.

(** C7 as stated fails, and so does the docstring: for the curved tube,
    of one element through the wall, two along and four around, the
    returned [factorList] has 12 entries, not
    [(1 + 1) * (2 + 1) * 4 = 24] as the per-vertex lists have; and its
    first entry is [1.375], the factor of the outer surface (curvature
    [0.25], distance [1.5] from the central line), where the inner
    surface has [1.25]. *)
Lemma factor_list_is_of_the_outer_surface_only :
  generatetubemesh Example.curvedTube = Ok Example.curvedTubeOutput /\
  length (out_factorList Example.curvedTubeOutput) = 12%nat /\
  length (out_xList Example.curvedTubeOutput) = 24%nat /\
  Z.of_nat (length (out_factorList Example.curvedTubeOutput)) <>
    (elementsCountThroughWall Example.curvedTube + 1)
    * (elementsCountAlongSegment Example.curvedTube
       * segmentCountAlong Example.curvedTube + 1)
    * elementsCountAround Example.curvedTube /\
  factorListOfInnerSurface Example.curvedTube
    = Ok curvedTubeInnerFactors /\
  index (out_factorList Example.curvedTubeOutput) 0
    = Ok (div (of_int 11) (of_int 8)) /\
  index curvedTubeInnerFactors 0
    = Ok (div (of_int 5) (of_int 4)) /\
  out_factorList Example.curvedTubeOutput
    <> curvedTubeInnerFactors.
Proof.
  split; [vm_compute; reflexivity|].
  split; [vm_compute; reflexivity|].
  split; [vm_compute; reflexivity|].
  split; [vm_compute; discriminate|].
  split; [vm_compute; reflexivity|].
  split; [vm_compute; reflexivity|].
  split; [vm_compute; reflexivity|].
  vm_compute. discriminate.
Qed.

(** ** The divisions by [elementsCountThroughWall] *)






(** ** The derivatives around of the texture and flat coordinates *)

Lemma length_replace_nth {A : Type} (n : nat) (l : list A) (v : A) :
  length (replace_nth n l v) = length l.
Proof.
  revert n. induction l as [|h t IH]; intros [|n]; simpl; auto.
Qed.

Lemma nth_error_replace_nth_same {A : Type} (n : nat) (l : list A) (v : A) :
  (n < length l)%nat -> nth_error (replace_nth n l v) n = Some v.
Proof.
  revert n. induction l as [|h t IH]; intros [|n] Hn; simpl in *;
    try lia; auto. apply IH. lia.
Qed.

Lemma nth_error_replace_nth_other {A : Type} (n m : nat) (l : list A)
    (v : A) :
  n <> m -> nth_error (replace_nth n l v) m = nth_error l m.
Proof.
  revert n m. induction l as [|h t IH]; intros [|n] [|m] Hnm; simpl;
    try congruence; auto.
Qed.

Lemma index_nonneg_nth_error {A : Type} (l : list A) (i : Z) :
  0 <= i ->
  index l i = match nth_error l (Z.to_nat i) with
              | Some a => Ok a
              | None => Raise IndexError
              end.
Proof.
  intros Hi. unfold index.
  destruct (Z.ltb_spec i 0) as [?|_]; [lia|].
  destruct (Z.leb_spec 0 i) as [_|?]; [|lia]. simpl.
  destruct (Z.ltb_spec i (Z.of_nat (length l))) as [Hlt|Hge]; auto.
  destruct (nth_error l (Z.to_nat i)) eqn:E; auto.
  assert (nth_error l (Z.to_nat i) <> None) as N by congruence.
  apply nth_error_Some in N. lia.
Qed.

(** [l[i] = v] with a non-negative index: the list keeps its length, holds
    [v] at [i] and what it held elsewhere. *)
Lemma store_nonneg {A : Type} (l l' : list A) (i : Z) (v : A) :
  0 <= i -> store l i v = Ok l' ->
  i < Z.of_nat (length l) /\
  length l' = length l /\
  index l' i = Ok v /\
  forall k, 0 <= k -> k <> i -> index l' k = index l k.
Proof.
  intros Hi. unfold store.
  destruct (Z.ltb_spec i 0) as [?|_]; [lia|].
  destruct (Z.leb_spec 0 i) as [_|?]; [|lia]. simpl.
  destruct (Z.ltb_spec i (Z.of_nat (length l))) as [Hlt|Hge];
    [|discriminate].
  intros [= <-]. split; [exact Hlt|]. split; [apply length_replace_nth|].
  split.
  - apply index_nonneg; [lia|]. apply nth_error_replace_nth_same. lia.
  - intros k Hk Hne. rewrite !index_nonneg_nth_error by lia.
    rewrite nth_error_replace_nth_other; [reflexivity | lia].
Qed.

Lemma store_in_range {A : Type} (l : list A) (i : Z) (v : A) :
  0 <= i < Z.of_nat (length l) -> exists l', store l i v = Ok l'.
Proof.
  intros Hi. unfold store.
  destruct (Z.ltb_spec i 0) as [?|_]; [lia|].
  destruct (Z.leb_spec 0 i) as [_|?]; [|lia]. simpl.
  destruct (Z.ltb_spec i (Z.of_nat (length l))) as [Hlt|Hge]; [eauto|lia].
Qed.

(** The entry of node [k] after the pass over the flags: the original
    entry of the next node when the interval [k - 1] before the node is
    flagged, the original entry otherwise. *)
Definition modifiedEntry (transit : list bool) (d1List : list vec3) (k : Z)
  : result vec3 :=
  match index transit (k - 1) with
  | Ok true => if 1 <=? k then index d1List (k + 1) else index d1List k
  | _ => index d1List k
  end.

Definition modifyInv (transit : list bool) (d1List : list vec3) (i : Z)
    (l : list vec3) : Prop :=
  length l = length d1List /\
  (forall k, 0 <= k ->
     index l k = if k <=? i then modifiedEntry transit d1List k
                 else index d1List k) /\
  (forall j, 0 <= j < i -> index transit j = Ok true ->
     j + 2 < Z.of_nat (length d1List)).

Lemma modifyTransitionDerivatives_invariant transit d1List l' :
  modifyTransitionDerivatives transit d1List = Ok l' ->
  modifyInv transit d1List (Z.of_nat (length transit)) l'.
Proof.
  unfold modifyTransitionDerivatives. intros Hrun.
  apply (for_range_ind (modifyInv transit d1List)) in Hrun.
  - now replace (Z.max 0 (Z.of_nat (length transit)))
      with (Z.of_nat (length transit)) in Hrun by lia.
  - split; [reflexivity|]. split; [|intros j Hj; lia]. intros k Hk.
    destruct (Z.leb_spec k 0) as [Hle|_]; [|reflexivity].
    assert (k = 0) as -> by lia. unfold modifiedEntry. simpl.
    destruct (index transit (-1)) as [[|]|]; reflexivity.
  - intros i s s' Hi (Hlen & Hall & Hroom) Hb.
    apply bind_Ok in Hb as (t & Et & Hb).
    assert (forall k, 0 <= k -> k <> i + 1 ->
              (if k <=? i then modifiedEntry transit d1List k
               else index d1List k)
              = (if k <=? i + 1 then modifiedEntry transit d1List k
                 else index d1List k)) as Hsame.
    { intros k Hk Hne.
      destruct (Z.leb_spec k i), (Z.leb_spec k (i + 1)); auto; lia. }
    destruct t.
    + apply bind_Ok in Hb as (d & Ed & Hb).
      pose proof (index_Ok_range s (i + 2) d ltac:(lia) Ed) as Hd.
      apply store_nonneg in Hb as (Hr & Hl & Hnew & Hold); [|lia].
      split; [congruence|]. split.
      * intros k Hk.
        destruct (Z.eq_dec k (i + 1)) as [->|Hne].
        -- rewrite Hnew. destruct (Z.leb_spec (i + 1) (i + 1)); [|lia].
           unfold modifiedEntry. replace (i + 1 - 1) with i by lia.
           rewrite Et. destruct (Z.leb_spec 1 (i + 1)); [|lia].
           rewrite <- Ed. rewrite Hall by lia.
           destruct (Z.leb_spec (i + 2) i); [lia|].
           f_equal. lia.
        -- rewrite Hold by lia. rewrite Hall by lia. now apply Hsame.
      * intros j Hj Hflag. destruct (Z.eq_dec j i) as [->|Hne].
        -- rewrite <- Hlen. lia.
        -- apply Hroom; [lia | exact Hflag].
    + injection Hb as <-. split; [exact Hlen|]. split.
      * intros k Hk.
        destruct (Z.eq_dec k (i + 1)) as [->|Hne].
        -- rewrite Hall by lia.
           destruct (Z.leb_spec (i + 1) i); [lia|].
           destruct (Z.leb_spec (i + 1) (i + 1)); [|lia].
           unfold modifiedEntry. replace (i + 1 - 1) with i by lia.
           rewrite Et. reflexivity.
        -- rewrite Hall by lia. now apply Hsame.
      * intros j Hj Hflag. destruct (Z.eq_dec j i) as [->|Hne].
        -- congruence.
        -- apply Hroom; [lia | exact Hflag].
Qed.

Lemma modifyTransitionDerivatives_returns transit d1List :
  (forall i, 0 <= i -> index transit i = Ok true ->
     i + 2 < Z.of_nat (length d1List)) ->
  exists l', modifyTransitionDerivatives transit d1List = Ok l'.
Proof.
  intros Hroom. unfold modifyTransitionDerivatives.
  destruct (for_range_total
              (fun _ l => length l = length d1List)
              (Z.of_nat (length transit))
              (fun i d1List =>
                 let* t := index transit i in
                 if t then
                   let* d := index d1List (i + 2) in
                   store d1List (i + 1) d
                 else Ok d1List) d1List)
    as (l' & Hl' & _); [reflexivity | | eauto].
  intros i s Hi Hlen.
  destruct (index_in_range transit i Hi) as [t Et]. rewrite Et. simpl.
  destruct t; [|eauto].
  specialize (Hroom i ltac:(lia) Et).
  destruct (index_in_range s (i + 2)) as [d Ed]; [lia|].
  rewrite Ed. simpl.
  destruct (store_in_range s (i + 1) d) as [s' Es']; [lia|].
  exists s'. split; [exact Es'|].
  apply store_nonneg in Es' as (_ & Hl & _); [congruence | lia].
Qed.

(** The derivative around of node [n1], before the pass over the flags:
    the difference of [uList] over the interval before the node, scaled. *)
Lemma derivativesAround_entries scale uList d1List :
  derivativesAround scale uList [] = Ok d1List ->
  length d1List = length uList /\
  forall n1, 1 <= n1 < Z.of_nat (length uList) ->
    exists u uPrev,
      index uList n1 = Ok u /\ index uList (n1 - 1) = Ok uPrev /\
      index d1List n1 = Ok (V3 (scale (sub u uPrev)) zero zero).
Proof.
  unfold derivativesAround. intros Hrun.
  apply (for_range_ind
           (fun k l =>
              Z.of_nat (length l) = k /\
              forall n1, 1 <= n1 < k ->
                exists u uPrev,
                  index uList n1 = Ok u /\ index uList (n1 - 1) = Ok uPrev /\
                  index l n1 = Ok (V3 (scale (sub u uPrev)) zero zero)))
    in Hrun.
  - destruct Hrun as (Hlen & Hall).
    split; [lia|]. intros n1 Hn1. apply Hall. lia.
  - split; [reflexivity|]. intros n1 Hn1. lia.
  - intros i s s' Hi (Hlen & Hall) Hb.
    apply bind_Ok in Hb as (du & Edu & Hb). injection Hb as <-.
    rewrite length_app. simpl. split; [lia|].
    intros n1 Hn1. destruct (Z.eq_dec n1 i) as [->|Hne].
    + destruct (Z.gtb_spec i 0) as [_|?]; [|lia].
      apply bind_Ok in Edu as (u & Eu & Edu).
      apply bind_Ok in Edu as (uPrev & Ep & Edu). injection Edu as <-.
      exists u, uPrev. repeat split; auto. apply index_app_new. lia.
    + destruct (Hall n1) as (u & uPrev & Eu & Ep & El); [lia|].
      exists u, uPrev. repeat split; auto.
      rewrite index_app_old; [exact El | lia].
Qed.

(** C8, amended.  For the texture coordinates ([scale] the identity) and
    the flat coordinates ([scale] the multiplication by
    [arcLengthOuterMidLength]) alike: wherever [transitElementList] flags
    the interval [i], the derivative around of node [i + 1] is replaced by
    the value that [d1List[i + 2]] had before the pass, the derivative of
    the interval [i + 1] that follows, flagged or not; the entries of the
    other nodes keep their values.  The pass returns when [d1List] has an
    entry [i + 2] for every flagged [i]. *)
Theorem transition_derivative_is_of_following_interval
    (scale : float -> float) (uList : list float)
    (transitElementList : list bool) (d1List : list vec3) :
  derivativesAround scale uList [] = Ok d1List ->
  ((forall i, 0 <= i -> index transitElementList i = Ok true ->
      i + 2 < Z.of_nat (length d1List)) ->
   exists d1List',
     modifyTransitionDerivatives transitElementList d1List = Ok d1List') /\
  (forall d1List',
     modifyTransitionDerivatives transitElementList d1List = Ok d1List' ->
     length d1List' = length d1List /\
     (forall i, 0 <= i -> index transitElementList i = Ok true ->
        exists u uPrev,
          index uList (i + 2) = Ok u /\ index uList (i + 1) = Ok uPrev /\
          index d1List (i + 2) = Ok (V3 (scale (sub u uPrev)) zero zero) /\
          index d1List' (i + 1) = index d1List (i + 2)) /\
     (forall k, 0 <= k ->
        k = 0 \/ index transitElementList (k - 1) = Ok false
              \/ Z.of_nat (length transitElementList) < k ->
        index d1List' k = index d1List k)).
Proof.
  intros Hd. split; [apply modifyTransitionDerivatives_returns|].
  intros d1List' Hrun.
  pose proof (modifyTransitionDerivatives_invariant _ _ _ Hrun)
    as (Hlen & Hall & Hflagged).
  apply derivativesAround_entries in Hd as (Hlu & Hent).
  split; [exact Hlen|]. split.
  - intros i Hi Hflag.
    pose proof (index_Ok_range _ _ _ Hi Hflag) as Hi'.
    assert (index d1List' (i + 1) = index d1List (i + 2)) as Hcopy.
    { rewrite Hall by lia.
      destruct (Z.leb_spec (i + 1) (Z.of_nat (length transitElementList)));
        [|lia].
      unfold modifiedEntry. replace (i + 1 - 1) with i by lia.
      rewrite Hflag. destruct (Z.leb_spec 1 (i + 1)); [|lia].
      f_equal. lia. }
    assert (i + 2 < Z.of_nat (length d1List)) as Hroom
      by (apply Hflagged; [lia | exact Hflag]).
    destruct (Hent (i + 2)) as (u & uPrev & Eu & Ep & Ed); [lia|].
    replace (i + 2 - 1) with (i + 1) in Ep by lia.
    exists u, uPrev. auto.
  - intros k Hk Hcase. rewrite Hall by lia.
    destruct (Z.leb_spec k (Z.of_nat (length transitElementList)));
      [|reflexivity].
    unfold modifiedEntry.
    destruct Hcase as [->|[Hf|Hgt]]; [| rewrite Hf; reflexivity | lia].
    simpl. destruct (index transitElementList (-1)) as [[|]|]; reflexivity.
Qed.

Lemma transition_derivative_on_uneven_intervals :
  derivativesAround (fun d => d) Example.unevenU [] = Ok Example.unevenD1 /\
  modifyTransitionDerivatives Example.twoTransitions Example.unevenD1
    = Ok Example.unevenD1Modified /\
  index Example.unevenD1Modified 2 = index Example.unevenD1 3 /\
  index Example.unevenD1Modified 3 = index Example.unevenD1 3.
Proof.
  assert (derivativesAround (fun d => d) Example.unevenU []
          = Ok Example.unevenD1) as Hd by (vm_compute; reflexivity).
  assert (modifyTransitionDerivatives Example.twoTransitions
            Example.unevenD1 = Ok Example.unevenD1Modified) as Hm
    by (vm_compute; reflexivity).
  destruct (proj2 (transition_derivative_is_of_following_interval
                     (fun d => d) Example.unevenU Example.twoTransitions
                     Example.unevenD1 Hd) _ Hm)
    as (_ & Hflag & Hkeep).
  split; [exact Hd|]. split; [exact Hm|]. split.
  - destruct (Hflag 1 ltac:(lia) eq_refl) as (u & uPrev & _ & _ & _ & Hc).
    exact Hc.
  - apply Hkeep; [lia|]. right. left. reflexivity.
Defined.

(** C8 as stated fails where two flagged intervals follow each other: the
    intervals 0 and 1 of [Example.twoTransitions] are transitions, the
    next interval after 0 that is not one is interval 2, whose derivative
    is the original [d1List[3]]; node 1 receives instead the original
    [d1List[2]], the derivative of the flagged interval 1. *)
Lemma flagged_following_interval_is_not_skipped :
  index Example.twoTransitions 0 = Ok true /\
  Example.nextNonTransitionInterval Example.twoTransitions 0 = Some 2 /\
  exists d1List d1List',
    derivativesAround (fun d => d) Example.unevenU [] = Ok d1List /\
    modifyTransitionDerivatives Example.twoTransitions d1List
      = Ok d1List' /\
    index d1List' (0 + 1) = index d1List 2 /\
    index d1List' (0 + 1) <> index d1List (2 + 1).
Proof.
  split; [reflexivity|]. split; [reflexivity|].
  exists Example.unevenD1, Example.unevenD1Modified.
  split; [vm_compute; reflexivity|]. split; [vm_compute; reflexivity|].
  split; [vm_compute; reflexivity|]. vm_compute. discriminate.
Qed.

(** ** The sampled central line *)

Definition SampleLists : Type :=
  (list vec3 * list vec3 * list Z * list float * list float)%type.

Definition sampledX (s : SampleLists) : list vec3 := fst (fst (fst (fst s))).
Definition sampledD1 (s : SampleLists) : list vec3 :=
  snd (fst (fst (fst s))).

(** What the sampler holds for station [k]: the point and the scaled
    derivative that [sampleStation] computes for it. *)
Definition stationOf (cx cd1 : list vec3) (n : Z) (s : SampleLists) (k : Z)
  : Prop :=
  exists x d e xi scale,
    Model.sampleStation cx cd1 n k = Ok (x, d, e, xi, scale) /\
    index (sampledX s) k = Ok x /\ index (sampledD1 s) k = Ok d.

Lemma sampleCubicHermiteCurves_invariant cx cd1 n out :
  Model.sampleCubicHermiteCurves cx cd1 n = Ok out ->
  Z.of_nat (length (sampledX out)) = Z.max 0 (n + 1) /\
  Z.of_nat (length (sampledD1 out)) = Z.max 0 (n + 1) /\
  forall k, 0 <= k <= n -> stationOf cx cd1 n out k.
Proof.
  unfold Model.sampleCubicHermiteCurves. intros Hrun.
  apply (for_range_ind
           (fun k s =>
              Z.of_nat (length (sampledX s)) = k /\
              Z.of_nat (length (sampledD1 s)) = k /\
              forall j, 0 <= j < k -> stationOf cx cd1 n s j)) in Hrun.
  - destruct Hrun as (H1 & H2 & H3). repeat split; auto.
    intros k Hk. apply H3. lia.
  - unfold sampledX, sampledD1. simpl. repeat split; try lia.
  - intros i [[[[sx sd1] se] sxi] ssf] s' Hi (H1 & H2 & H3) Hb.
    unfold sampledX, sampledD1 in *. simpl in *.
    apply bind_Ok in Hb as ([[[[x d] e] xi] scale] & Es & Hb).
    injection Hb as <-. simpl. rewrite !length_app. simpl.
    repeat split; try lia.
    intros j Hj. destruct (Z.eq_dec j i) as [->|Hne].
    + exists x, d, e, xi, scale. unfold sampledX, sampledD1. simpl.
      repeat split; auto; apply index_app_new; lia.
    + destruct (H3 j) as (x' & d' & e' & xi' & sc' & Ej & Ex & Ed); [lia|].
      exists x', d', e', xi', sc'. unfold sampledX, sampledD1 in *.
      simpl in *. repeat split; auto; rewrite index_app_old; auto; lia.
Qed.

(** The tangent of a station is the derivative of the element's curve,
    scaled by the ratio of the element counts and by nothing else. *)
Lemma sampleStation_tangent cx cd1 n k x d e xi scale :
  Model.sampleStation cx cd1 n k = Ok (x, d, e, xi, scale) ->
  exists v1 d1 v2 d2,
    index cx e = Ok v1 /\ index cd1 e = Ok d1 /\
    index cx (e + 1) = Ok v2 /\ index cd1 (e + 1) = Ok d2 /\
    int_truediv (Z.of_nat (length cx) - 1) n = Ok scale /\
    x = Model.interpolateCubicHermite v1 d1 v2 d2 xi /\
    d = vmap (fun c => mul scale c)
             (Model.interpolateCubicHermiteDerivative v1 d1 v2 d2 xi).
Proof.
  unfold Model.sampleStation. intros Hb. cbv zeta in Hb.
  apply bind_Ok in Hb as (sc & Esc & Hb).
  apply bind_Ok in Hb as (xi' & Exi & Hb).
  apply bind_Ok in Hb as (v1 & E1 & Hb).
  apply bind_Ok in Hb as (d1 & E2 & Hb).
  apply bind_Ok in Hb as (v2 & E3 & Hb).
  apply bind_Ok in Hb as (d2 & E4 & Hb).
  injection Hb as <- <- <- <- <-.
  exists v1, d1, v2, d2. repeat split; auto.
Qed.

Lemma sampleStation_returns cx cd1 n k :
  1 <= n -> 0 <= k <= n ->
  2 <= Z.of_nat (length cx) ->
  Z.of_nat (length cx) <= Z.of_nat (length cd1) ->
  exists out, Model.sampleStation cx cd1 n k = Ok out.
Proof.
  intros Hn Hk Hcx Hcd. unfold Model.sampleStation. cbv zeta.
  set (m := Z.of_nat (length cx) - 1).
  assert (1 <= m) as Hm by (unfold m; lia).
  unfold int_truediv at 1.
  destruct (Z.eqb_spec n 0) as [?|_]; [lia|]. simpl.
  assert (0 <= k * m / n) as Hq by (apply Z.div_pos; nia).
  set (e := if k * m / n <? m then k * m / n else m - 1).
  assert (0 <= e <= m - 1) as He.
  { unfold e. destruct (Z.ltb_spec (k * m / n) m); lia. }
  assert (exists xi,
            (if k * m / n <? m
             then int_truediv ((k * m) mod n) n else Ok one) = Ok xi)
    as [xi Exi].
  { destruct (k * m / n <? m); [|eauto]. unfold int_truediv.
    destruct (Z.eqb_spec n 0) as [?|_]; [lia|]. eauto. }
  rewrite Exi. simpl.
  destruct (index_in_range cx e) as [v1 E1]; [unfold m in *; lia|].
  destruct (index_in_range cd1 e) as [d1 E2]; [unfold m in *; lia|].
  destruct (index_in_range cx (e + 1)) as [v2 E3]; [unfold m in *; lia|].
  destruct (index_in_range cd1 (e + 1)) as [d2 E4]; [unfold m in *; lia|].
  rewrite E1, E2, E3, E4. simpl. eauto.
Qed.

Lemma sampleCubicHermiteCurves_returns cx cd1 n :
  1 <= n -> 2 <= Z.of_nat (length cx) ->
  Z.of_nat (length cx) <= Z.of_nat (length cd1) ->
  exists out, Model.sampleCubicHermiteCurves cx cd1 n = Ok out.
Proof.
  intros Hn Hcx Hcd. unfold Model.sampleCubicHermiteCurves.
  destruct (for_range_total (fun _ _ => True) (n + 1)
              (fun k '(sx, sd1, se, sxi, ssf) =>
                 let* '(x, d, e, xi, scale) :=
                   Model.sampleStation cx cd1 n k in
                 Ok (sx ++ [x], sd1 ++ [d], se ++ [e], sxi ++ [xi],
                     ssf ++ [scale]))
              ([], [], [], [], []))
    as (out & Hout & _); [exact I | | eauto].
  intros k [[[[sx sd1] se] sxi] ssf] Hk _.
  destruct (sampleStation_returns cx cd1 n k) as ([[[[x d] e] xi] sc] & Es);
    try lia.
  rewrite Es. simpl. eauto.
Qed.

(** The central line that [generatetubemesh] returns is the one the
    sampler returned for [elementsCountAlongSegment * segmentCountAlong]
    elements. *)
Lemma generatetubemesh_samples `{Imports} (a : Args) (out : Output) :
  generatetubemesh a = Ok out ->
  exists sd1 se sxi ssf,
    sampleCubicHermiteCurves (cx a) (cd1 a)
      (elementsCountAlongSegment a * segmentCountAlong a)
    = Ok (out_sx out, sd1, se, sxi, ssf).
Proof.
  unfold generatetubemesh. intros Hrun. cbv zeta in *.
  apply bind_Ok in Hrun as ([[[[sx sd1] se] sxi] ssf] & Es & Hrun).
  apply bind_Ok in Hrun as ([sd2 sd12] & Ei & Hrun).
  inv_bind Hrun. destruct v2 as [xO cI]. inv_bind Hrun.
  injection Hrun as <-. simpl. eauto.
Qed.

(** C9.  The sampler, modelled from the spec, returns for
    [elementsCountAlong = elementsCountAlongSegment * segmentCountAlong]
    elements exactly [elementsCountAlong + 1] positions [sx] and as many
    tangents [sd1]; the tangent of a station is the derivative of the
    curve of its element, scaled by the ratio of the numbers of elements
    and not normalised.  The sampler returns for at least one element out
    of a central line of at least two points, and [generatetubemesh]
    returns these stations as [sx]. *)
Theorem sampled_central_line_has_a_station_per_element_end (a : Args) :
  let elementsCountAlong :=
    elementsCountAlongSegment a * segmentCountAlong a in
  (1 <= elementsCountAlong -> 2 <= Z.of_nat (length (cx a)) ->
   Z.of_nat (length (cx a)) <= Z.of_nat (length (cd1 a)) ->
   exists out,
     Model.sampleCubicHermiteCurves (cx a) (cd1 a) elementsCountAlong
       = Ok out) /\
  (forall sx sd1 se sxi ssf,
     Model.sampleCubicHermiteCurves (cx a) (cd1 a) elementsCountAlong
       = Ok (sx, sd1, se, sxi, ssf) ->
     Z.of_nat (length sx) = Z.max 0 (elementsCountAlong + 1) /\
     Z.of_nat (length sd1) = Z.max 0 (elementsCountAlong + 1) /\
     forall k, 0 <= k <= elementsCountAlong ->
       exists e xi scale v1 d1 v2 d2,
         index (cx a) e = Ok v1 /\ index (cd1 a) e = Ok d1 /\
         index (cx a) (e + 1) = Ok v2 /\ index (cd1 a) (e + 1) = Ok d2 /\
         int_truediv (Z.of_nat (length (cx a)) - 1) elementsCountAlong
           = Ok scale /\
         index sx k = Ok (Model.interpolateCubicHermite v1 d1 v2 d2 xi) /\
         index sd1 k =
           Ok (vmap (fun c => mul scale c)
                    (Model.interpolateCubicHermiteDerivative
                       v1 d1 v2 d2 xi))) /\
  (forall out,
     @generatetubemesh modelImports a = Ok out ->
     Z.of_nat (length (out_sx out)) = Z.max 0 (elementsCountAlong + 1)).
Proof.
  cbv zeta. split; [apply sampleCubicHermiteCurves_returns|]. split.
  - intros sx sd1 se sxi ssf Hrun.
    apply sampleCubicHermiteCurves_invariant in Hrun as (H1 & H2 & H3).
    unfold sampledX, sampledD1 in *. simpl in *.
    repeat split; auto. intros k Hk.
    destruct (H3 k Hk) as (x & d & e & xi & scale & Es & Ex & Ed).
    apply sampleStation_tangent in Es
      as (v1 & d1 & v2 & d2 & E1 & E2 & E3 & E4 & Esc & -> & ->).
    exists e, xi, scale, v1, d1, v2, d2. repeat split; auto.
  - intros out Hrun.
    apply generatetubemesh_samples in Hrun as (sd1 & se & sxi & ssf & Hs).
    apply sampleCubicHermiteCurves_invariant in Hs as (H1 & _). exact H1.
Qed.

Lemma sampled_long_tube :
  Z.of_nat (length (sampledX Example.longTubeSamples)) = 3 /\
  index (sampledD1 Example.longTubeSamples) 1 = Ok (Example.v3 2 0 0).
Proof.
  assert (Model.sampleCubicHermiteCurves
            (cx Example.longTube) (cd1 Example.longTube)
            (elementsCountAlongSegment Example.longTube
             * segmentCountAlong Example.longTube)
          = Ok (sampledX Example.longTubeSamples,
                sampledD1 Example.longTubeSamples,
                [0; 0; 0], [zero; half; one], [half; half; half])) as Hrun
    by (vm_compute; reflexivity).
  destruct (proj1 (proj2 (sampled_central_line_has_a_station_per_element_end
                            Example.longTube))
                  _ _ _ _ _ Hrun) as (Hlen & _ & _).
  split; [exact Hlen|]. vm_compute. reflexivity.
Defined.

(** * Further properties of the three functions

    What the loops of the module keep and where they stop, beyond the
    statements above. *)

(** ** More on lists and loops *)

Lemma index_app_second {A : Type} (l t : list A) (j : Z) :
  0 <= j -> index (l ++ t) (Z.of_nat (length l) + j) = index t j.
Proof.
  intros Hj. rewrite !index_nonneg_nth_error by lia.
  replace (Z.to_nat (Z.of_nat (length l) + j))
    with (length l + Z.to_nat j)%nat by lia.
  rewrite nth_error_app2 by lia.
  now replace (length l + Z.to_nat j - length l)%nat with (Z.to_nat j)
    by lia.
Qed.

(** A counter that every iteration advances by [c]. *)
Lemma for_range_count {S : Type} (f : S -> Z) (c n : Z)
    (body : Z -> S -> result S) (s0 sN : S) :
  (forall i s s', 0 <= i < n -> body i s = Ok s' -> f s' = f s + c) ->
  for_ (range n) body s0 = Ok sN ->
  f sN = f s0 + Z.max 0 n * c.
Proof.
  intros Hstep Hrun.
  apply (for_range_ind (fun k s => f s = f s0 + k * c)) in Hrun; auto.
  - lia.
  - intros i s s' Hi Hs Hb. rewrite (Hstep i s s' Hi Hb), Hs. lia.
Qed.

(** Three nested loops, with the invariant indexed by the number of
    completed iterations of the innermost body. *)
Lemma for3_range_ind {S : Type} (P : Z -> S -> Prop) (n m p : Z)
    (body : Z -> Z -> Z -> S -> result S) (s0 sN : S) :
  0 <= m -> 0 <= p ->
  P 0 s0 ->
  (forall i j k s s', 0 <= i < n -> 0 <= j < m -> 0 <= k < p ->
     P ((i * m + j) * p + k) s -> body i j k s = Ok s' ->
     P ((i * m + j) * p + k + 1) s') ->
  for_ (range n)
       (fun i => for_ (range m) (fun j => for_ (range p) (body i j))) s0
    = Ok sN ->
  P (Z.max 0 n * m * p) sN.
Proof.
  intros Hm Hp H0 Hstep Hrun.
  apply (for2_range_ind (fun q s => P (q * p) s) n m) in Hrun; auto.
  intros i j s s' Hi Hj HP Hin.
  apply (for_range_ind (fun k s => P ((i * m + j) * p + k) s) p) in Hin.
  - replace ((i * m + j + 1) * p) with ((i * m + j) * p + Z.max 0 p)
      by lia. exact Hin.
  - now rewrite Z.add_0_r.
  - intros k t t' Hk HPk Hb. rewrite Z.add_assoc. eapply Hstep; eauto.
Qed.

Lemma element_index_unique (n m e3 e2 e1 i j k : Z) :
  0 <= e2 < n -> 0 <= j < n -> 0 <= e1 < m -> 0 <= k < m ->
  (e3 * n + e2) * m + e1 = (i * n + j) * m + k ->
  e3 = i /\ e2 = j /\ e1 = k.
Proof.
  intros H2 Hj H1 Hk E.
  apply row_major_unique in E as [E ->]; [|lia|lia].
  apply row_major_unique in E as [-> ->]; [|lia|lia]. auto.
Qed.

(** The first exception of a loop is raised by its body. *)
Lemma for_Raise {S : Type} (xs : list Z) (body : Z -> S -> result S)
    (s : S) (e : exn) :
  for_ xs body s = Raise e -> exists x s', In x xs /\ body x s' = Raise e.
Proof.
  revert s. induction xs as [|x xs IH]; intros s; simpl; [discriminate|].
  destruct (body x s) as [s'|e'] eqn:Hb; simpl.
  - intros Hrun. destruct (IH _ Hrun) as (y & t & Hin & Hy). eauto.
  - intros [= <-]. eauto.
Qed.

Lemma index_Raise {A : Type} (l : list A) (i : Z) (e : exn) :
  index l i = Raise e -> e = IndexError.
Proof.
  unfold index.
  destruct ((0 <=? _) && _); [|congruence].
  destruct (nth_error _ _); congruence.
Qed.

Lemma store_Raise {A : Type} (l : list A) (i : Z) (v : A) (e : exn) :
  store l i v = Raise e -> e = IndexError.
Proof. unfold store. destruct ((0 <=? _) && _); congruence. Qed.

(** ** The outer surface: shape of the inputs and of the ring *)

(** X1.  [getOuterCoordinatesAndCurvatureFromInner] checks no shape.  A
    call for at least one station and one point around that returns has
    found an entry for every vertex in each of the three lists and a flag
    for every angular index, a shorter list ends it with an exception,
    and the two lists it returns have exactly one entry per vertex. *)
Theorem outer_surface_needs_an_entry_per_vertex `{Imports}
    (xInner d1Inner d3Inner : list vec3) (wallThickness : float)
    (elementsCountAlong elementsCountAround : Z)
    (transitElementList : list bool)
    (xOuter : list vec3) (curvatureInner : list float) :
  0 <= elementsCountAlong -> 0 < elementsCountAround ->
  getOuterCoordinatesAndCurvatureFromInner xInner d1Inner d3Inner
    wallThickness elementsCountAlong elementsCountAround
    transitElementList = Ok (xOuter, curvatureInner) ->
  (elementsCountAlong + 1) * elementsCountAround
    <= Z.of_nat (length xInner) /\
  (elementsCountAlong + 1) * elementsCountAround
    <= Z.of_nat (length d1Inner) /\
  (elementsCountAlong + 1) * elementsCountAround
    <= Z.of_nat (length d3Inner) /\
  elementsCountAround <= Z.of_nat (length transitElementList) /\
  Z.of_nat (length xOuter)
    = (elementsCountAlong + 1) * elementsCountAround /\
  Z.of_nat (length curvatureInner)
    = (elementsCountAlong + 1) * elementsCountAround.
Proof.
  intros HA HM Hrun.
  destruct (getOuter_vertices _ _ _ _ _ _ _ _ _ Hrun elementsCountAlong
              (elementsCountAround - 1) ltac:(lia) ltac:(lia))
    as (x & d1 & d3 & xP & dP & xN & dN & km & kp & c & Hv).
  simpl in Hv.
  destruct Hv as (Hx & Hd1 & Hd3 & _ & _ & _ & _ & _ & _ & Hc & _).
  apply curvatureAroundAt_cases in Hc as (t1 & t0 & Et & _).
  assert (0 <= elementsCountAlong * elementsCountAround) by nia.
  apply index_Ok_range in Hx; [|lia].
  apply index_Ok_range in Hd1; [|lia].
  apply index_Ok_range in Hd3; [|lia].
  apply index_Ok_range in Et; [|lia].
  destruct (getOuter_lengths _ _ _ _ _ _ _ _ _ Hrun) as (Lx & Lc); [lia|].
  repeat split; lia.
Qed.

Lemma outer_surface_of_ring :
  4 <= Z.of_nat (length Example.ringX) /\
  4 <= Z.of_nat (length Example.ringTransit) /\
  Z.of_nat (length (fst Example.ringOuter)) = 4.
Proof.
  assert (getOuterCoordinatesAndCurvatureFromInner
            Example.ringX Example.ringD1 Example.ringD3 half 0 4
            Example.ringTransit
          = Ok (fst Example.ringOuter, snd Example.ringOuter)) as Hrun
    by (vm_compute; reflexivity).
  destruct (outer_surface_needs_an_entry_per_vertex
              Example.ringX Example.ringD1 Example.ringD3 half 0 4
              Example.ringTransit _ _ ltac:(lia) ltac:(lia) Hrun)
    as (Hx & _ & _ & Ht & Ho & _).
  repeat split; assumption.
Defined.

(** X2.  Where the angular interval [n1] of a vertex is flagged as a
    transition the curvature around is [kappam], the curvature over the
    interval before the vertex, whatever the flag of that interval: of
    two flagged intervals in a row, the vertex between them receives the
    curvature over the first, itself a transition. *)
Theorem curvature_around_of_flagged_interval `{Imports}
    (xInner d1Inner d3Inner : list vec3) (wallThickness : float)
    (elementsCountAlong elementsCountAround : Z)
    (transitElementList : list bool)
    (xOuter : list vec3) (curvatureInner : list float) (n2 n1 : Z) :
  getOuterCoordinatesAndCurvatureFromInner xInner d1Inner d3Inner
    wallThickness elementsCountAlong elementsCountAround
    transitElementList = Ok (xOuter, curvatureInner) ->
  0 <= n2 <= elementsCountAlong -> 0 <= n1 < elementsCountAround ->
  index transitElementList n1 = Ok true ->
  exists x d1 xPrev d1Prev kappam,
    index xInner (n2 * elementsCountAround + n1) = Ok x /\
    index d1Inner (n2 * elementsCountAround + n1) = Ok d1 /\
    index xInner (prevIndex elementsCountAround n2 n1) = Ok xPrev /\
    index d1Inner (prevIndex elementsCountAround n2 n1) = Ok d1Prev /\
    getCubicHermiteCurvatureSimple xPrev d1Prev x d1 one = Ok kappam /\
    index curvatureInner (n2 * elementsCountAround + n1) = Ok kappam.
Proof.
  intros Hrun Hn2 Hn1 Hflag.
  destruct (getOuter_vertices _ _ _ _ _ _ _ _ _ Hrun n2 n1 Hn2 Hn1)
    as (x & d1 & d3 & xP & dP & xN & dN & km & kp & c & Hv).
  simpl in Hv.
  destruct Hv as (Hx & Hd1 & _ & HxP & HdP & _ & _ & Hkm & _ & Hc & _ & Hi).
  apply curvatureAroundAt_cases in Hc as (t1 & t0 & Et & _ & ->).
  rewrite Hflag in Et. injection Et as <-.
  exists x, d1, xP, dP, km. repeat split; auto.
Qed.

Lemma curvature_around_of_flagged_interval_on_ring :
  exists kappam,
    Model.getCubicHermiteCurvatureSimple
      (Example.v3 1 0 0) (Example.v3 0 1 0)
      (Example.v3 0 1 0) (Example.v3 (-1) 0 0) one = Ok kappam /\
    index (snd Example.ringOuter) 1 = Ok kappam.
Proof.
  assert (getOuterCoordinatesAndCurvatureFromInner
            Example.ringX Example.ringD1 Example.ringD3 half 0 4
            Example.ringTransit
          = Ok (fst Example.ringOuter, snd Example.ringOuter)) as Hrun
    by (vm_compute; reflexivity).
  destruct (curvature_around_of_flagged_interval
              Example.ringX Example.ringD1 Example.ringD3 half 0 4
              Example.ringTransit _ _ 0 1 Hrun ltac:(lia) ltac:(lia)
              eq_refl)
    as (x & d1 & xP & dP & km & Hx & Hd1 & HxP & HdP & Hkm & Hc).
  vm_compute in Hx, Hd1, HxP, HdP.
  injection Hx as <-. injection Hd1 as <-.
  injection HxP as <-. injection HdP as <-.
  exists km. split; [exact Hkm | exact Hc].
Defined.

(** X3.  The neighbours of a vertex around the tube are the vertices
    before and after it on the ring of its own station: the ring is
    closed, the first vertex follows the last. *)
Theorem ring_neighbours_wrap_around
    (elementsCountAround n2 n1 : Z) :
  0 <= n1 < elementsCountAround ->
  prevIndex elementsCountAround n2 n1
    = n2 * elementsCountAround + (n1 - 1) mod elementsCountAround /\
  nextIndex elementsCountAround n2 n1
    = n2 * elementsCountAround + (n1 + 1) mod elementsCountAround.
Proof.
  intros Hn1. unfold prevIndex, nextIndex. split.
  - destruct (Z.eqb_spec n1 0) as [->|Hne]; simpl.
    + replace (0 - 1) with (-1) by lia.
      assert ((-1) mod elementsCountAround = elementsCountAround - 1)
        as -> by (symmetry; apply Z.mod_unique_pos with (q := -1); lia).
      lia.
    + rewrite Z.mod_small by lia. lia.
  - destruct (Z.ltb_spec n1 (elementsCountAround - 1)).
    + rewrite Z.mod_small by lia. lia.
    + replace (n1 + 1) with elementsCountAround by lia.
      rewrite Z.mod_same by lia. lia.
Qed.

Lemma ring_neighbours_of_first_and_last_vertex :
  prevIndex 4 1 0 = 7 /\ nextIndex 4 1 3 = 4.
Proof.
  split.
  - rewrite (proj1 (ring_neighbours_wrap_around 4 1 0 ltac:(lia))).
    reflexivity.
  - rewrite (proj2 (ring_neighbours_wrap_around 4 1 3 ltac:(lia))).
    reflexivity.
Defined.

(** ** The inner surface mapped onto the central line *)

Section Mapping.
Context `{Imports}.

(** The four lists of the inner surface hold [k] points each. *)
Definition innerHolds (k : Z) (L : Locals) : Prop :=
  Z.of_nat (length (xInnerList (inner L))) = k /\
  Z.of_nat (length (d1InnerList (inner L))) = k /\
  Z.of_nat (length (d2InnerList (inner L))) = k /\
  Z.of_nat (length (d3InnerUnitList (inner L))) = k.

Lemma alignPoint_appends a sd2 unitTangent cp n2 nAlongSegment n1 L L' k :
  alignPoint a sd2 unitTangent cp n2 nAlongSegment n1 L = Ok L' ->
  innerHolds k L -> innerHolds (k + 1) L'.
Proof.
  unfold alignPoint. intros Hb (H1 & H2 & H3 & H4).
  inv_bind Hb. destruct v3 as [[[x1 x2] x3] fr]. inv_bind Hb.
  injection Hb as <-. unfold innerHolds. simpl. rewrite !length_app. simpl.
  repeat split; lia.
Qed.

(** Whether the station [nAlongSegment] of segment [nSegment] is mapped:
    the first station of every segment but the first is the last one of
    the segment before. *)
Definition stationMapped (nSegment nAlongSegment : Z) : bool :=
  (nSegment =? 0) || ((nSegment >? 0) && (nAlongSegment >? 0)).

Lemma alignStation_appends a sx sd1 sd2 nSegment nAlongSegment L L' k :
  alignStation a sx sd1 sd2 nSegment nAlongSegment L = Ok L' ->
  innerHolds k L ->
  innerHolds (k + (if stationMapped nSegment nAlongSegment
                   then Z.max 0 (elementsCountAround a) else 0)) L'.
Proof.
  unfold alignStation. fold (stationMapped nSegment nAlongSegment).
  intros Hrun Hk. destruct (stationMapped nSegment nAlongSegment).
  - inv_bind Hrun.
    apply (for_range_ind (fun j s => innerHolds (k + j) s)) in Hrun; auto.
    + now rewrite Z.add_0_r.
    + intros i s s' Hi Hs Hb. rewrite Z.add_assoc.
      eapply alignPoint_appends; eauto.
  - injection Hrun as <-. now rewrite Z.add_0_r.
Qed.

(** The stations mapped by the first [j] iterations over a segment. *)
Definition stationsOfSegment (nSegment j : Z) : Z :=
  if nSegment =? 0 then j else Z.max 0 (j - 1).

Lemma segment_appends a sx sd1 sd2 nSegment L L' k :
  0 <= nSegment -> 0 <= elementsCountAlongSegment a ->
  for_ (range (elementsCountAlongSegment a + 1))
       (alignStation a sx sd1 sd2 nSegment) L = Ok L' ->
  innerHolds k L ->
  innerHolds (k + stationsOfSegment nSegment
                    (elementsCountAlongSegment a + 1)
                  * Z.max 0 (elementsCountAround a)) L'.
Proof.
  intros Hn He Hrun Hk.
  apply (for_range_ind
           (fun j s => innerHolds (k + stationsOfSegment nSegment j
                                       * Z.max 0 (elementsCountAround a)) s))
    in Hrun.
  - now replace (Z.max 0 (elementsCountAlongSegment a + 1))
      with (elementsCountAlongSegment a + 1) in Hrun by lia.
  - unfold stationsOfSegment. destruct (nSegment =? 0); simpl;
      now rewrite Z.add_0_r.
  - intros j s s' Hj Hs Hb.
    apply (alignStation_appends _ _ _ _ _ _ _ _ _ Hb) in Hs.
    replace (k + stationsOfSegment nSegment (j + 1)
                 * Z.max 0 (elementsCountAround a))
      with (k + stationsOfSegment nSegment j
                * Z.max 0 (elementsCountAround a)
            + (if stationMapped nSegment j
               then Z.max 0 (elementsCountAround a) else 0)); [exact Hs|].
    unfold stationsOfSegment, stationMapped.
    destruct (Z.eqb_spec nSegment 0) as [->|Hne]; simpl; [lia|].
    destruct (Z.gtb_spec nSegment 0); [|lia]. simpl.
    destruct (Z.gtb_spec j 0); nia.
Qed.

Lemma mapFacesToCentralLine_appends a sx sd1 sd2 L L' k :
  0 <= elementsCountAlongSegment a -> 1 <= segmentCountAlong a ->
  mapFacesToCentralLine a sx sd1 sd2 L = Ok L' ->
  innerHolds k L ->
  innerHolds (k + (elementsCountAlongSegment a * segmentCountAlong a + 1)
                  * Z.max 0 (elementsCountAround a)) L'.
Proof.
  intros He Hs Hrun Hk. unfold mapFacesToCentralLine in Hrun.
  apply (for_range_ind
           (fun n s =>
              innerHolds
                (k + (if n =? 0 then 0
                      else elementsCountAlongSegment a * n + 1)
                     * Z.max 0 (elementsCountAround a)) s)) in Hrun.
  - replace (Z.max 0 (segmentCountAlong a)) with (segmentCountAlong a)
      in Hrun by lia.
    destruct (Z.eqb_spec (segmentCountAlong a) 0); [lia|]. exact Hrun.
  - simpl. now rewrite Z.add_0_r.
  - intros n s s' Hn Hinv Hb.
    assert (0 <= n) as Hn0 by lia.
    apply (segment_appends _ _ _ _ _ _ _ _ Hn0 He Hb) in Hinv.
    destruct (Z.eqb_spec (n + 1) 0); [lia|].
    match goal with
    | Hinv : innerHolds ?x s' |- innerHolds ?y s' =>
        replace y with x; [exact Hinv|]
    end.
    unfold stationsOfSegment.
    destruct (Z.eqb_spec n 0) as [->|Hne]; nia.
Qed.

End Mapping.

(** X4.  The mapping of the profile onto the central line appends one
    point per station and angular index to each of the four lists of the
    inner surface: the first segment contributes all its
    [elementsCountAlongSegment + 1] stations, every later segment all but
    its first, which is the last station of the segment before, so that
    [elementsCountAlongSegment * segmentCountAlong + 1] stations are
    mapped in all. *)
Theorem mapped_surface_has_a_point_per_vertex `{Imports}
    (a : Args) (sx sd1 sd2 : list vec3) (L L' : Locals) (k : Z) :
  0 <= elementsCountAlongSegment a -> 1 <= segmentCountAlong a ->
  mapFacesToCentralLine a sx sd1 sd2 L = Ok L' ->
  innerHolds k L ->
  innerHolds (k + (elementsCountAlongSegment a * segmentCountAlong a + 1)
                  * Z.max 0 (elementsCountAround a)) L'.
Proof.
  intros He Hs Hrun Hk. eapply mapFacesToCentralLine_appends; eauto.
Qed.

Lemma mapped_surface_of_tube_along_x :
  mapFacesToCentralLine Example.tubeAlongX
    [Example.v3 0 0 0; Example.v3 1 0 0; Example.v3 2 0 0]
    [Example.v3 1 0 0; Example.v3 1 0 0; Example.v3 1 0 0]
    [Example.v3 0 1 0; Example.v3 0 1 0; Example.v3 0 1 0]
    (initialLocals Example.tubeAlongX) = Ok Example.tubeAlongXMapped /\
  innerHolds
    (0 + (elementsCountAlongSegment Example.tubeAlongX
          * segmentCountAlong Example.tubeAlongX + 1)
         * Z.max 0 (elementsCountAround Example.tubeAlongX))
    Example.tubeAlongXMapped /\
  length (xInnerList (inner Example.tubeAlongXMapped)) = 12%nat.
Proof.
  assert (mapFacesToCentralLine Example.tubeAlongX
            [Example.v3 0 0 0; Example.v3 1 0 0; Example.v3 2 0 0]
            [Example.v3 1 0 0; Example.v3 1 0 0; Example.v3 1 0 0]
            [Example.v3 0 1 0; Example.v3 0 1 0; Example.v3 0 1 0]
            (initialLocals Example.tubeAlongX)
          = Ok Example.tubeAlongXMapped) as Hrun
    by (vm_compute; reflexivity).
  split; [exact Hrun|].
  assert (0 <= elementsCountAlongSegment Example.tubeAlongX) as He
    by (simpl; lia).
  assert (1 <= segmentCountAlong Example.tubeAlongX) as Hs by (simpl; lia).
  assert (innerHolds 0 (initialLocals Example.tubeAlongX)) as H0
    by (repeat split).
  split; [|reflexivity].
  exact (mapped_surface_has_a_point_per_vertex
           Example.tubeAlongX _ _ _ (initialLocals Example.tubeAlongX)
           Example.tubeAlongXMapped 0 He Hs Hrun H0).
Defined.

(** ** The curvature along and the smoothed derivatives *)

Section CurvatureAlong.
Context `{Imports}.

Variables (a : Args) (sx sd1 : list vec3) (eCAlong : Z) (L : Locals).

Definition alongVertex (s : Locals) (n2 n1 : Z) : Prop :=
  let n := n2 * elementsCountAround a + n1 in
  exists fiber d2 curvature,
    index (smoothd2Raw (smooth L)) n1 = Ok fiber /\
    index fiber n2 = Ok d2 /\
    curvatureAt sx sd1 eCAlong n2 = Ok curvature /\
    index (smoothd2InnerList (smooth s))
          (Z.of_nat (length (smoothd2InnerList (smooth L))) + n) = Ok d2 /\
    index (curvatureAlong (smooth s))
          (Z.of_nat (length (curvatureAlong (smooth L))) + n) = Ok curvature.

Definition alongInv (k : Z) (s : Locals) : Prop :=
  s = with_smooth (smooth s) L /\
  smoothd2Raw (smooth s) = smoothd2Raw (smooth L) /\
  Z.of_nat (length (smoothd2InnerList (smooth s))) =
    Z.of_nat (length (smoothd2InnerList (smooth L))) + k /\
  Z.of_nat (length (curvatureAlong (smooth s))) =
    Z.of_nat (length (curvatureAlong (smooth L))) + k /\
  forall n2 n1, 0 <= n2 -> 0 <= n1 < elementsCountAround a ->
    n2 * elementsCountAround a + n1 < k -> alongVertex s n2 n1.

Lemma curvatureAlongLine_invariant L' :
  curvatureAlongLine a sx sd1 eCAlong L = Ok L' ->
  0 <= elementsCountAround a ->
  alongInv (Z.max 0 (eCAlong + 1) * elementsCountAround a) L'.
Proof.
  unfold curvatureAlongLine. intros Hrun Hm. revert Hrun.
  apply for2_range_ind with (P := alongInv); [lia | |].
  - unfold alongInv. repeat split; try lia;
      try (intros n2 n1 H2 H1 Hlt; nia). destruct L; reflexivity.
  - intros i j s s' Hi Hj (Hs & Hraw & Hl1 & Hl2 & Hall) Hb.
    apply bind_Ok in Hb as (fiber & Ef & Hb).
    apply bind_Ok in Hb as (d2 & Ed & Hb).
    apply bind_Ok in Hb as (kappa & Ek & Hb). injection Hb as <-.
    unfold alongInv. simpl. rewrite !length_app. simpl.
    repeat split; try lia.
    + rewrite Hs. reflexivity.
    + exact Hraw.
    + intros n2 n1 H2 H1 Hlt.
      destruct (Z.eq_dec (n2 * elementsCountAround a + n1)
                         (i * elementsCountAround a + j)) as [Heq|Hne].
      * apply row_major_unique in Heq as [-> ->]; [|lia|lia].
        exists fiber, d2, kappa. simpl. rewrite <- Hraw.
        repeat split; auto; apply index_app_new; lia.
      * assert (0 <= n2 * elementsCountAround a) by nia.
        destruct (Hall n2 n1) as (f & d & k & E1 & E2 & E3 & E4 & E5);
          [lia|lia|lia|].
        exists f, d, k. simpl.
        repeat split; auto; rewrite index_app_old; auto; lia.
Qed.

End CurvatureAlong.

(** X5.  After the loop of lines 193-205, [smoothd2InnerList] is the
    transpose of [smoothd2Raw] and [curvatureAlong] holds, for every
    vertex, the curvature of the central line at the station of the
    vertex: the same value for all angular indices of a station. *)
Theorem curvature_along_is_per_station `{Imports}
    (a : Args) (sx sd1 : list vec3) (elementsCountAlong : Z)
    (L L' : Locals) :
  curvatureAlongLine a sx sd1 elementsCountAlong L = Ok L' ->
  smoothd2InnerList (smooth L) = [] -> curvatureAlong (smooth L) = [] ->
  0 <= elementsCountAround a ->
  Z.of_nat (length (curvatureAlong (smooth L')))
    = Z.max 0 (elementsCountAlong + 1) * elementsCountAround a /\
  Z.of_nat (length (smoothd2InnerList (smooth L')))
    = Z.max 0 (elementsCountAlong + 1) * elementsCountAround a /\
  inner L' = inner L /\
  forall n2 n1,
    0 <= n2 <= elementsCountAlong -> 0 <= n1 < elementsCountAround a ->
    exists fiber d2 curvature,
      index (smoothd2Raw (smooth L)) n1 = Ok fiber /\
      index fiber n2 = Ok d2 /\
      index (smoothd2InnerList (smooth L'))
            (n2 * elementsCountAround a + n1) = Ok d2 /\
      curvatureAt sx sd1 elementsCountAlong n2 = Ok curvature /\
      index (curvatureAlong (smooth L'))
            (n2 * elementsCountAround a + n1) = Ok curvature /\
      index (curvatureAlong (smooth L')) (n2 * elementsCountAround a)
        = Ok curvature.
Proof.
  intros Hrun Hd Hc Hm.
  apply curvatureAlongLine_invariant in Hrun
    as (Hs & _ & Hl1 & Hl2 & Hall); [|exact Hm].
  rewrite Hd, Hc in *. simpl in *.
  repeat split; try lia.
  - rewrite Hs. reflexivity.
  - intros n2 n1 Hn2 Hn1.
    assert ((n2 + 1) * elementsCountAround a
            <= (elementsCountAlong + 1) * elementsCountAround a) by nia.
    destruct (Hall n2 n1) as (f & d & k & E1 & E2 & E3 & E4 & E5);
      [lia | lia | lia |].
    destruct (Hall n2 0) as (f0 & d0 & k0 & _ & _ & E3' & _ & E5');
      [lia | lia | lia |].
    unfold alongVertex in *. rewrite Hd, Hc in *. simpl in *.
    rewrite E3 in E3'. injection E3' as <-.
    rewrite Z.add_0_r in E5'.
    exists f, d, k. repeat split; auto.
Qed.

Lemma curvature_along_of_two_fibers :
  curvatureAlongLine Example.twoFibersArgs
    [Example.v3 0 0 0; Example.v3 1 0 0]
    [Example.v3 1 0 0; Example.v3 1 0 0] 1 Example.twoFibersSmoothed
    = Ok Example.twoFibersCurved /\
  Z.of_nat (length (curvatureAlong (smooth Example.twoFibersCurved))) = 4 /\
  exists curvature,
    index (curvatureAlong (smooth Example.twoFibersCurved)) (1 * 2 + 1)
      = Ok curvature /\
    index (curvatureAlong (smooth Example.twoFibersCurved)) (1 * 2)
      = Ok curvature.
Proof.
  assert (curvatureAlongLine Example.twoFibersArgs
            [Example.v3 0 0 0; Example.v3 1 0 0]
            [Example.v3 1 0 0; Example.v3 1 0 0] 1 Example.twoFibersSmoothed
          = Ok Example.twoFibersCurved) as Hrun
    by (vm_compute; reflexivity).
  split; [exact Hrun|].
  assert (0 <= elementsCountAround Example.twoFibersArgs) as Hm
    by (simpl; lia).
  destruct (curvature_along_is_per_station _ _ _ _ _ _ Hrun eq_refl eq_refl
              Hm) as (Hlen & _ & _ & Hall).
  split; [exact Hlen|].
  assert (0 <= 1 <= 1) as H2 by lia.
  assert (0 <= 1 < elementsCountAround Example.twoFibersArgs) as H1
    by (simpl; lia).
  destruct (Hall 1 1 H2 H1) as (f & d & k & _ & _ & _ & _ & E1 & E0).
  exists k. split; [exact E1 | exact E0].
Defined.

(** ** The layers through the wall *)

Section Layers.
Context `{Imports}.

Variables (a : Args) (sx xOuterList : list vec3) (curvatureInner : list float).
Variable (eCAlong : Z).
Variable (L0 : Locals).

(** The entries of layer [n3] in the four lists of the wall. *)
Definition layerStored (s : Locals) (n3 : Z) : Prop :=
  exists out,
    layerCall a sx xOuterList curvatureInner eCAlong L0 n3 = Ok out /\
    forall j, 0 <= j < vertexCount a eCAlong ->
      index (xList (wall s))
            (Z.of_nat (length (xList (wall L0)))
             + n3 * vertexCount a eCAlong + j) = index (layerX out) j /\
      index (dx_ds1List (wall s))
            (Z.of_nat (length (dx_ds1List (wall L0)))
             + n3 * vertexCount a eCAlong + j) = index (layerD1 out) j /\
      index (dx_ds2List (wall s))
            (Z.of_nat (length (dx_ds2List (wall L0)))
             + n3 * vertexCount a eCAlong + j) = index (layerD2 out) j /\
      index (dx_ds3List (wall s))
            (Z.of_nat (length (dx_ds3List (wall L0)))
             + n3 * vertexCount a eCAlong + j) = index (layerD3 out) j.

Definition layersInv (k : Z) (s : Locals) : Prop :=
  wallInv a sx xOuterList curvatureInner eCAlong L0 k s /\
  forall n3, 0 <= n3 < k -> layerStored s n3.

Lemma interpolateThroughWall_layers L' :
  interpolateThroughWall a sx xOuterList curvatureInner eCAlong L0 = Ok L' ->
  layersInv (Z.max 0 (elementsCountThroughWall a + 1)) L'.
Proof.
  unfold interpolateThroughWall.
  apply for_range_ind with (P := layersInv).
  - split; [|intros n3 Hn; lia].
    unfold wallInv. repeat split; try lia. destruct L0; reflexivity.
  - intros i s s' Hi (Hw & Hall) Hb.
    assert (wallInv a sx xOuterList curvatureInner eCAlong L0 (i + 1) s')
      as Hw'.
    { pose proof Hw as (Hs & H1 & H2 & H3 & H4 & _ & _).
      pose proof Hb as Hb'. unfold interpolateLayer in Hb'.
      apply bind_Ok in Hb' as (q & Eq & Hb').
      apply bind_Ok in Hb' as (xi3 & Exi & Hb').
      apply bind_Ok in Hb' as (out & Eout & Hb').
      destruct out as [[[[x d1] d2] d3] f]. injection Hb' as <-.
      assert (inner s = inner L0) as Hin by (rewrite Hs; reflexivity).
      assert (smooth s = smooth L0) as Hsm by (rewrite Hs; reflexivity).
      rewrite Hin, Hsm in Eout.
      pose proof (interpolate_lengths _ _ _ _ _ _ _ _ _ _ _ _ _ _ Eout)
        as (LX & LD1 & LD2 & LD3 & LF).
      unfold layerX, layerD1, layerD2, layerD3, layerFactors in *.
      simpl in *. fold (vertexCount a eCAlong) in LX, LD1, LD2, LD3, LF.
      unfold wallInv. simpl. rewrite !length_app.
      repeat split; try lia.
      - rewrite Hs. reflexivity.
      - intros _. exists (x, d1, d2, d3, f). split; [|reflexivity].
        unfold layerCall. rewrite Eq. simpl.
        replace (i + 1 - 1) with i by lia. rewrite Exi. exact Eout. }
    split; [exact Hw'|].
    destruct Hw as (Hs & H1 & H2 & H3 & H4 & _ & _).
    unfold interpolateLayer in Hb.
    apply bind_Ok in Hb as (q & Eq & Hb).
    apply bind_Ok in Hb as (xi3 & Exi & Hb).
    apply bind_Ok in Hb as (out & Eout & Hb).
    destruct out as [[[[x d1] d2] d3] f]. injection Hb as <-.
    assert (inner s = inner L0) as Hin by (rewrite Hs; reflexivity).
    assert (smooth s = smooth L0) as Hsm by (rewrite Hs; reflexivity).
    rewrite Hin, Hsm in Eout.
    pose proof (interpolate_lengths _ _ _ _ _ _ _ _ _ _ _ _ _ _ Eout)
      as (LX & LD1 & LD2 & LD3 & LF).
    unfold layerX, layerD1, layerD2, layerD3, layerFactors in *.
    simpl in *. fold (vertexCount a eCAlong) in LX, LD1, LD2, LD3, LF.
    assert (0 <= vertexCount a eCAlong) as Hvc by (unfold vertexCount; nia).
    intros n3 Hn3. destruct (Z.eq_dec n3 i) as [->|Hne].
    + exists (x, d1, d2, d3, f). split.
      * unfold layerCall. rewrite Eq. simpl. rewrite Exi. exact Eout.
      * intros j Hj.
        unfold layerX, layerD1, layerD2, layerD3. simpl.
        rewrite <- H1, <- H2, <- H3, <- H4.
        rewrite !index_app_second by lia. auto.
    + destruct (Hall n3) as (o & Eo & Hidx); [lia|].
      exists o. split; [exact Eo|]. intros j Hj.
      destruct (Hidx j Hj) as (I1 & I2 & I3 & I4). simpl.
      assert (n3 * vertexCount a eCAlong + vertexCount a eCAlong
              <= i * vertexCount a eCAlong) by nia.
      assert (0 <= n3 * vertexCount a eCAlong) by nia.
      rewrite !index_app_old by lia. auto.
Qed.

End Layers.

(** X6.  The returned lists hold the layers one after another, the inner
    surface first: the entry of vertex [j] of layer [n3] is at
    [n3 * vertexCount + j]. *)
Theorem returned_lists_hold_the_layers_in_order `{Imports}
    (a : Args) (out : Output) :
  generatetubemesh a = Ok out ->
  let elementsCountAlong :=
    elementsCountAlongSegment a * segmentCountAlong a in
  let count := vertexCount a elementsCountAlong in
  exists sx xOuterList curvatureInner L,
    forall n3, 0 <= n3 <= elementsCountThroughWall a ->
    exists lists,
      layerCall a sx xOuterList curvatureInner elementsCountAlong L n3
        = Ok lists /\
      forall j, 0 <= j < count ->
        index (out_xList out) (n3 * count + j) = index (layerX lists) j /\
        index (out_dx_ds1List out) (n3 * count + j)
          = index (layerD1 lists) j /\
        index (out_dx_ds2List out) (n3 * count + j)
          = index (layerD2 lists) j /\
        index (out_dx_ds3List out) (n3 * count + j)
          = index (layerD3 lists) j.
Proof.
  intros Hrun. cbv zeta.
  apply generatetubemesh_stages in Hrun
    as (sx & xO & cI & L4 & L5 & Hw & E5 & _ & Hx & H1 & H2 & H3 & _).
  apply interpolateThroughWall_layers in E5 as (_ & Hall).
  exists sx, xO, cI, L4. intros n3 Hn3.
  destruct (Hall n3) as (lists & Hcall & Hidx); [lia|].
  exists lists. split; [exact Hcall|]. intros j Hj.
  destruct (Hidx j Hj) as (I1 & I2 & I3 & I4).
  rewrite Hw in I1, I2, I3, I4. simpl in I1, I2, I3, I4.
  rewrite Hx, H1, H2, H3. auto.
Qed.

Lemma returned_layers_of_tube_along_x :
  generatetubemesh Example.tubeAlongX = Ok Example.tubeAlongXOutput /\
  exists sx xOuterList curvatureInner L lists,
    layerCall Example.tubeAlongX sx xOuterList curvatureInner
      (elementsCountAlongSegment Example.tubeAlongX
       * segmentCountAlong Example.tubeAlongX) L 1 = Ok lists /\
    index (out_xList Example.tubeAlongXOutput)
          (1 * vertexCount Example.tubeAlongX
                 (elementsCountAlongSegment Example.tubeAlongX
                  * segmentCountAlong Example.tubeAlongX) + 5)
      = index (layerX lists) 5.
Proof.
  assert (generatetubemesh Example.tubeAlongX
          = Ok Example.tubeAlongXOutput) as Hrun
    by (vm_compute; reflexivity).
  split; [exact Hrun|].
  destruct (returned_lists_hold_the_layers_in_order Example.tubeAlongX
              Example.tubeAlongXOutput Hrun) as (sx & xO & cI & L & Hall).
  assert (0 <= 1 <= elementsCountThroughWall Example.tubeAlongX) as H3
    by (simpl; lia).
  destruct (Hall 1 H3) as (lists & Hcall & Hidx).
  assert (0 <= 5 < vertexCount Example.tubeAlongX
                     (elementsCountAlongSegment Example.tubeAlongX
                      * segmentCountAlong Example.tubeAlongX)) as Hj
    by (vm_compute; split; congruence).
  destruct (Hidx 5 Hj) as (Hx & _).
  exists sx, xO, cI, L, lists. split; [exact Hcall | exact Hx].
Defined.

(** X7.  The derivative through the wall of a layer does not depend on the
    layer: at every vertex it is the unit normal times the thickness over
    the number of elements through the wall, which is not zero when the
    call returns with a vertex. *)
Theorem through_wall_derivative_is_normal_times_element_thickness
    `{Imports}
    (xInner xOuter : list vec3) (thickness xi3 : float) (sx : list vec3)
    (curvatureInner curvatureAlong : list float)
    (d1Inner d2Inner d3InnerUnit : list vec3)
    (elementsCountAround elementsCountAlong elementsCountThroughWall : Z)
    (out : LayerLists) :
  interpolatefromInnerAndOuter xInner xOuter thickness xi3 sx
    curvatureInner curvatureAlong d1Inner d2Inner d3InnerUnit
    elementsCountAround elementsCountAlong elementsCountThroughWall
    = Ok out ->
  forall n2 n1,
    0 <= n2 <= elementsCountAlong -> 0 <= n1 < elementsCountAround ->
    elementsCountThroughWall <> 0 /\
    exists norm,
      index d3InnerUnit (n2 * elementsCountAround + n1) = Ok norm /\
      index (layerD3 out) (n2 * elementsCountAround + n1) =
        Ok (vmap (fun c => div (mul c thickness)
                               (of_int elementsCountThroughWall)) norm).
Proof.
  intros Hrun n2 n1 Hn2 Hn1.
  destruct (interpolate_vertices _ _ _ _ _ _ _ _ _ _ _ _ _ _ Hrun n2 n1
              Hn2 Hn1)
    as (norm & ix & ox & x & k & d1 & cv & sxn & dist & d2 & d3 & Hv).
  destruct Hv as (En & _ & _ & _ & _ & _ & _ & _ & _ & _ & Ed3 & _ & _ &
                  _ & E3 & _).
  unfold vmapM, truediv_int, to_float in Ed3.
  destruct (fits_float elementsCountThroughWall); [|discriminate].
  simpl in Ed3.
  destruct (Z.eqb_spec elementsCountThroughWall 0) as [Hz|Hnz];
    [discriminate|].
  simpl in Ed3. injection Ed3 as <-.
  split; [exact Hnz|]. exists norm. split; [exact En | exact E3].
Qed.

Lemma through_wall_derivative_of_flat_layer :
  index (layerD3 Example.flatLayerLists) 0 =
    Ok (vmap (fun c => div (mul c zero) (of_int 1)) (Example.v3 1 0 0)).
Proof.
  assert (Example.flatLayer = Ok Example.flatLayerLists) as Hrun
    by (vm_compute; reflexivity).
  destruct (through_wall_derivative_is_normal_times_element_thickness
              _ _ _ _ _ _ _ _ _ _ _ _ _ _ Hrun 0 0 ltac:(lia) ltac:(lia))
    as (_ & norm & Hn & Hd).
  vm_compute in Hn. injection Hn as <-. exact Hd.
Defined.

(** ** The nodes and the elements *)

Section Nodes.
Definition nodesInv (L : Locals) (k : Z) (s : Locals) : Prop :=
  wall s = wall L /\
  nodeIdentifier s = nodeIdentifier L + k /\
  exists added,
    coordinatesNodes (region s) = coordinatesNodes (region L) ++ added /\
    Z.of_nat (length added) = k /\
    forall j, 0 <= j < k ->
      exists x d1 d2 d3,
        index (xList (wall L)) j = Ok x /\
        index (dx_ds1List (wall L)) j = Ok d1 /\
        index (dx_ds2List (wall L)) j = Ok d2 /\
        index (dx_ds3List (wall L)) j = Ok d3 /\
        index added j =
          Ok {| np_identifier := nodeIdentifier L + j; np_version := 1;
                np_value := x; np_d_ds1 := d1; np_d_ds2 := d2;
                np_d_ds3 := Some d3 |}.

Lemma createNodes_invariant L L' :
  createNodes L = Ok L' ->
  nodesInv L (Z.of_nat (length (xList (wall L)))) L'.
Proof.
  unfold createNodes. intros Hrun.
  apply (for_range_ind (nodesInv L)) in Hrun.
  - now replace (Z.max 0 (Z.of_nat (length (xList (wall L)))))
      with (Z.of_nat (length (xList (wall L)))) in Hrun by lia.
  - split; [reflexivity|]. split; [lia|]. exists [].
    rewrite app_nil_r. repeat split; auto. intros j Hj. lia.
  - intros i s s' Hi (Hw & Hid & added & Hadd & Hlen & Hall) Hb.
    rewrite Hw in Hb.
    apply bind_Ok in Hb as (x & Ex & Hb).
    apply bind_Ok in Hb as (d1 & E1 & Hb).
    apply bind_Ok in Hb as (d2 & E2 & Hb).
    apply bind_Ok in Hb as (d3 & E3 & Hb). injection Hb as <-.
    split; [exact Hw|]. split; [simpl; lia|].
    exists (added ++ [{| np_identifier := nodeIdentifier s; np_version := 1;
                         np_value := x; np_d_ds1 := d1; np_d_ds2 := d2;
                         np_d_ds3 := Some d3 |}]).
    simpl. rewrite Hadd, length_app. simpl.
    split; [now rewrite app_assoc|]. split; [lia|].
    intros j Hj. destruct (Z.eq_dec j i) as [->|Hne].
    + exists x, d1, d2, d3. rewrite Hid.
      repeat split; auto. apply index_app_new. lia.
    + destruct (Hall j) as (x' & a1 & a2 & a3 & F0 & F1 & F2 & F3 & F4);
        [lia|].
      exists x', a1, a2, a3. repeat split; auto.
      rewrite index_app_old; [exact F4 | lia].
Qed.

Lemma createNodes_returns L :
  (length (xList (wall L)) <= length (dx_ds1List (wall L)))%nat ->
  (length (xList (wall L)) <= length (dx_ds2List (wall L)))%nat ->
  (length (xList (wall L)) <= length (dx_ds3List (wall L)))%nat ->
  exists L', createNodes L = Ok L'.
Proof.
  intros H1 H2 H3. unfold createNodes.
  destruct (for_range_total
              (fun (_ : Z) s => wall s = wall L)
              (Z.of_nat (length (xList (wall L))))
              (fun n L =>
                 let* x := index (xList (wall L)) n in
                 let* d1 := index (dx_ds1List (wall L)) n in
                 let* d2 := index (dx_ds2List (wall L)) n in
                 let* d3 := index (dx_ds3List (wall L)) n in
                 let p := {| np_identifier := nodeIdentifier L;
                             np_version := 1;
                             np_value := x; np_d_ds1 := d1; np_d_ds2 := d2;
                             np_d_ds3 := Some d3 |} in
                 Ok (with_nodeIdentifier (nodeIdentifier L + 1)
                       (with_region (addCoordinatesNode p (region L)) L)))
              L) as (L' & Hrun & _); [reflexivity | | eauto].
  intros i s Hi Hw. rewrite Hw.
  destruct (index_in_range (xList (wall L)) i) as [x Ex]; [lia|].
  destruct (index_in_range (dx_ds1List (wall L)) i) as [d1 E1]; [lia|].
  destruct (index_in_range (dx_ds2List (wall L)) i) as [d2 E2]; [lia|].
  destruct (index_in_range (dx_ds3List (wall L)) i) as [d3 E3]; [lia|].
  rewrite Ex, E1, E2, E3. simpl. eexists. split; [reflexivity|].
  simpl. exact Hw.
Qed.

End Nodes.

(** X8.  The loop over [xList] creates one node per entry, in the order
    of the list: the node of entry [j] has the identifier
    [nodeIdentifier + j] and version 1 of the value and the three
    derivatives of that entry, and the identifier ends advanced by the
    length of [xList].  The loop completes when the three lists of
    derivatives are at least as long as [xList]. *)
Theorem nodes_are_created_in_list_order (L : Locals) :
  ((length (xList (wall L)) <= length (dx_ds1List (wall L)))%nat ->
   (length (xList (wall L)) <= length (dx_ds2List (wall L)))%nat ->
   (length (xList (wall L)) <= length (dx_ds3List (wall L)))%nat ->
   exists L', createNodes L = Ok L') /\
  (forall L',
     createNodes L = Ok L' ->
     wall L' = wall L /\
     nodeIdentifier L'
       = nodeIdentifier L + Z.of_nat (length (xList (wall L))) /\
     exists added,
       coordinatesNodes (region L') = coordinatesNodes (region L) ++ added /\
       length added = length (xList (wall L)) /\
       forall j, 0 <= j < Z.of_nat (length (xList (wall L))) ->
         exists x d1 d2 d3,
           index (xList (wall L)) j = Ok x /\
           index (dx_ds1List (wall L)) j = Ok d1 /\
           index (dx_ds2List (wall L)) j = Ok d2 /\
           index (dx_ds3List (wall L)) j = Ok d3 /\
           index added j =
             Ok {| np_identifier := nodeIdentifier L + j; np_version := 1;
                   np_value := x; np_d_ds1 := d1; np_d_ds2 := d2;
                   np_d_ds3 := Some d3 |}).
Proof.
  split; [apply createNodes_returns|].
  intros L' Hrun.
  apply createNodes_invariant in Hrun
    as (Hw & Hid & added & Hadd & Hlen & Hall).
  split; [exact Hw|]. split; [exact Hid|].
  exists added. split; [exact Hadd|]. split; [lia | exact Hall].
Qed.

Lemma nodes_of_two_entries :
  exists L' added,
    createNodes Example.twoEntries = Ok L' /\
    nodeIdentifier L' = 7 + 2 /\
    coordinatesNodes (region L') = added /\
    index added 1 =
      Ok {| np_identifier := 7 + 1; np_version := 1;
            np_value := Example.v3 0 1 0; np_d_ds1 := Example.v3 0 0 2;
            np_d_ds2 := Example.v3 0 0 3; np_d_ds3 := Some (Example.v3 0 0 4)
         |}.
Proof.
  destruct (proj1 (nodes_are_created_in_list_order Example.twoEntries))
    as [L' Hrun]; [simpl; lia | simpl; lia | simpl; lia |].
  destruct (proj2 (nodes_are_created_in_list_order Example.twoEntries)
                  L' Hrun)
    as (_ & Hid & added & Hadd & _ & Hall).
  exists L', added. split; [exact Hrun|]. split; [exact Hid|].
  split; [exact Hadd|].
  destruct (Hall 1) as (x & d1 & d2 & d3 & Ex & E1 & E2 & E3 & Ea);
    [simpl; lia|].
  injection Ex as <-. injection E1 as <-. injection E2 as <-.
  injection E3 as <-. exact Ea.
Defined.

(** The node identifiers of an element: the four nodes of its inner face,
    with the wrap-around after the last point of a ring, and the four
    nodes one layer further out. *)
Lemma elementNodeIdentifiers_value (eCAround now e3 e2 e1 : Z) :
  0 <= e1 < eCAround ->
  let next := if e1 =? eCAround - 1 then 0 else e1 + 1 in
  let bni11 := e3 * now + e2 * eCAround + e1 + 1 in
  let bni12 := e3 * now + e2 * eCAround + next + 1 in
  let bni21 := e3 * now + (e2 + 1) * eCAround + e1 + 1 in
  let bni22 := e3 * now + (e2 + 1) * eCAround + next + 1 in
  elementNodeIdentifiers eCAround now e3 e2 e1 =
    Ok [bni11; bni12; bni21; bni22;
        bni11 + now; bni12 + now; bni21 + now; bni22 + now].
Proof.
  intros He1. cbv zeta. unfold elementNodeIdentifiers, mod_.
  destruct (Z.eqb_spec eCAround 0) as [?|_]; [lia|]. simpl.
  assert ((e1 + 1) mod eCAround
          = if e1 =? eCAround - 1 then 0 else e1 + 1) as ->.
  { destruct (Z.eqb_spec e1 (eCAround - 1)) as [->|Hne].
    - replace (eCAround - 1 + 1) with eCAround by lia.
      apply Z.mod_same. lia.
    - apply Z.mod_small. lia. }
  reflexivity.
Qed.

Lemma elementNodeIdentifiers_in_range
    (eCAround eCAlong eCTW e3 e2 e1 : Z) (ids : list Z) :
  0 <= e3 < eCTW -> 0 <= e2 < eCAlong -> 0 <= e1 < eCAround ->
  elementNodeIdentifiers eCAround ((eCAlong + 1) * eCAround) e3 e2 e1
    = Ok ids ->
  Forall (fun id => 1 <= id <= (eCTW + 1) * ((eCAlong + 1) * eCAround)) ids.
Proof.
  intros H3 H2 H1 Hids.
  rewrite elementNodeIdentifiers_value in Hids by exact H1.
  injection Hids as <-.
  set (next := if e1 =? eCAround - 1 then 0 else e1 + 1).
  assert (0 <= next < eCAround) as Hn.
  { unfold next. destruct (Z.eqb_spec e1 (eCAround - 1)); lia. }
  set (now := (eCAlong + 1) * eCAround).
  assert (0 <= e2 * eCAround) by nia.
  assert ((e2 + 1) * eCAround + eCAround <= now) by (unfold now; nia).
  assert (0 <= e3 * now) by (unfold now; nia).
  assert (e3 * now + now + now <= (eCTW + 1) * now) by (unfold now; nia).
  repeat constructor; lia.
Qed.

Section Elements.
(** The elements that a stage has added to the ones of [L]. *)
Definition elementsAdded (L s : Locals) (added : list (Z * list Z))
  : Prop :=
  elements (region s) = elements (region L) ++ added.

Definition elementsInv (a : Args) (n : Z) (L : Locals) (s : Locals)
  : Prop :=
  exists added,
    elementsAdded L s added /\
    Forall (fun e =>
              length (snd e) = 8%nat /\
              Forall (fun id =>
                        1 <= id <= (elementsCountThroughWall a + 1)
                                   * ((n + 1) * elementsCountAround a))
                     (snd e)) added.

Lemma createElements_nodes_in_range a n L L' :
  createElements a n L = Ok L' -> elementsInv a n L L'.
Proof.
  unfold createElements. cbv zeta.
  apply (for_range_ind (fun _ s => elementsInv a n L s)).
  - exists []. split; [|constructor].
    unfold elementsAdded. simpl. now rewrite app_nil_r.
  - intros e3 s3 s3' H3 Hs3.
    apply (for_range_ind (fun _ s => elementsInv a n L s)); [exact Hs3|].
    intros e2 s2 s2' H2 Hs2.
    apply (for_range_ind (fun _ s => elementsInv a n L s)); [exact Hs2|].
    intros e1 s s' H1 (added & Hadd & Hall) Hb.
    apply bind_Ok in Hb as (ids & Eids & Hb).
    apply bind_Ok in Hb as (groups & _ & Hb). injection Hb as <-.
    exists (added ++ [(elementIdentifier s, ids)]). split.
    + unfold elementsAdded in *. simpl. rewrite Hadd.
      now rewrite app_assoc.
    + apply Forall_app. split; [exact Hall|]. constructor; [|constructor].
      simpl. split.
      * rewrite elementNodeIdentifiers_value in Eids by exact H1.
        injection Eids as <-. reflexivity.
      * eapply elementNodeIdentifiers_in_range; eauto.
Qed.

End Elements.

(** X9.  The eight node identifiers of every element lie between 1 and
    the number of vertices,
    [(elementsCountThroughWall + 1) * (elementsCountAlong + 1)
     * elementsCountAround]: the formula counts the nodes from 1 and does
    not use [firstNodeIdentifier], so that the elements refer to the
    nodes created by the call when the first node identifier is 1. *)
Theorem element_nodes_are_within_the_created_nodes
    (a : Args) (elementsCountAlong : Z) (L L' : Locals) :
  createElements a elementsCountAlong L = Ok L' ->
  exists added,
    elements (region L') = elements (region L) ++ added /\
    Forall (fun e =>
              length (snd e) = 8%nat /\
              Forall (fun id =>
                        1 <= id <= (elementsCountThroughWall a + 1)
                                   * ((elementsCountAlong + 1)
                                      * elementsCountAround a))
                     (snd e)) added.
Proof.
  intros Hrun. apply createElements_nodes_in_range in Hrun. exact Hrun.
Qed.

Lemma element_nodes_of_two_fibers :
  exists added,
    createElements Example.twoFibersArgs 1 Example.twoFibers
      = Ok Example.twoFibersElements /\
    elements (region Example.twoFibersElements)
      = elements (region Example.twoFibers) ++ added /\
    Forall (fun e =>
              length (snd e) = 8%nat /\
              Forall (fun id =>
                        1 <= id
                        <= (elementsCountThroughWall Example.twoFibersArgs
                            + 1)
                           * ((1 + 1)
                              * elementsCountAround Example.twoFibersArgs))
                     (snd e)) added.
Proof.
  assert (createElements Example.twoFibersArgs 1 Example.twoFibers
          = Ok Example.twoFibersElements) as Hrun
    by (vm_compute; reflexivity).
  destruct (element_nodes_are_within_the_created_nodes _ _ _ _ Hrun)
    as (added & Hadd & Hall).
  exists added. split; [exact Hrun|]. split; [exact Hadd | exact Hall].
Defined.

(** X10.  An element joins the groups whose name is the annotation of its
    index around, in the order of the groups; the annotations are read
    only when there are groups: without groups a short [annotationArray]
    is not noticed, with groups it ends the call. *)
Theorem element_joins_the_groups_named_by_its_annotation
    (groups annotationArray : list String.string)
    (e1 elementIdentifier : Z) :
  annotate [] annotationArray e1 elementIdentifier = Ok [] /\
  (forall name, index annotationArray e1 = Ok name ->
     annotate groups annotationArray e1 elementIdentifier =
       Ok (map (fun g => (g, elementIdentifier))
               (filter (fun g => String.eqb name g) groups))) /\
  (forall e, groups <> [] -> index annotationArray e1 = Raise e ->
     annotate groups annotationArray e1 elementIdentifier = Raise e).
Proof.
  split; [reflexivity|]. split.
  - intros name Hname. induction groups as [|g groups' IH]; simpl;
      [reflexivity|].
    rewrite Hname, IH. simpl. destruct (String.eqb name g); reflexivity.
  - intros e Hne Hraise. destruct groups as [|g groups']; [congruence|].
    simpl. rewrite Hraise. reflexivity.
Qed.

Section ElementLogs.
Variables (a : Args) (n : Z).

(** The position of element [(e3, e2, e1)] in the order of creation. *)
Definition elementIndex (e3 e2 e1 : Z) : Z :=
  (e3 * n + e2) * elementsCountAround a + e1.

Definition createdInv (L : Locals) (k : Z) (s : Locals) : Prop :=
  elementIdentifier s = firstElementIdentifier a + k /\
  exists added,
    elements (region s) = elements (region L) ++ added /\
    Z.of_nat (length added) = k /\
    forall e3 e2 e1,
      0 <= e3 -> 0 <= e2 < n -> 0 <= e1 < elementsCountAround a ->
      elementIndex e3 e2 e1 < k ->
      exists ids,
        elementNodeIdentifiers (elementsCountAround a)
          ((n + 1) * elementsCountAround a) e3 e2 e1 = Ok ids /\
        index added (elementIndex e3 e2 e1) =
          Ok (firstElementIdentifier a + elementIndex e3 e2 e1, ids).

Lemma createElements_log L L' :
  0 <= n -> 0 <= elementsCountAround a ->
  createElements a n L = Ok L' ->
  createdInv L (Z.max 0 (elementsCountThroughWall a) * n
                * elementsCountAround a) L'.
Proof.
  intros Hn Hm. unfold createElements. cbv zeta.
  apply (for3_range_ind (createdInv L)); auto.
  - split; [simpl; lia|]. exists []. simpl. rewrite app_nil_r.
    repeat split; auto. intros e3 e2 e1 H3 H2 H1 Hlt.
    unfold elementIndex in Hlt. nia.
  - intros i j k s s' Hi Hj Hk (Hid & added & Hadd & Hlen & Hall) Hb.
    apply bind_Ok in Hb as (ids & Eids & Hb).
    apply bind_Ok in Hb as (groups & _ & Hb). injection Hb as <-.
    split; [simpl; lia|].
    exists (added ++ [(elementIdentifier s, ids)]). simpl.
    rewrite Hadd, length_app. simpl.
    split; [now rewrite app_assoc|]. split; [lia|].
    intros e3 e2 e1 H3 H2 H1 Hlt. unfold elementIndex in *.
    destruct (Z.eq_dec ((e3 * n + e2) * elementsCountAround a + e1)
                       ((i * n + j) * elementsCountAround a + k))
      as [Heq|Hne].
    + pose proof Heq as Heq'.
      apply element_index_unique in Heq' as (-> & -> & ->);
        [|lia|lia|lia|lia].
      exists ids. split; [exact Eids|].
      rewrite Hid. apply index_app_new. lia.
    + destruct (Hall e3 e2 e1) as (ids' & E1 & E2); [lia|lia|lia|lia|].
      exists ids'. split; [exact E1|].
      assert (0 <= (e3 * n + e2) * elementsCountAround a) by nia.
      rewrite index_app_old; [exact E2 | lia].
Qed.

Definition mergedInv (L : Locals) (k : Z) (s : Locals) : Prop :=
  elementIdentifier s = firstElementIdentifier a + k /\
  exists added,
    mergedElements (region s) = mergedElements (region L) ++ added /\
    Z.of_nat (length added) = k /\
    forall e3 e2 e1,
      0 <= e3 -> 0 <= e2 < n -> 0 <= e1 < elementsCountAround a ->
      elementIndex e3 e2 e1 < k ->
      exists ids,
        elementNodeIdentifiers (elementsCountAround a)
          ((n + 1) * elementsCountAround a) e3 e2 e1 = Ok ids /\
        index added (elementIndex e3 e2 e1) =
          Ok (firstElementIdentifier a + elementIndex e3 e2 e1,
              e1 =? elementsCountAround a - 1, ids).

Lemma mergeElements_log L L' :
  0 <= n -> 0 <= elementsCountAround a ->
  mergeElements a n L = Ok L' ->
  mergedInv L (Z.max 0 (elementsCountThroughWall a) * n
               * elementsCountAround a) L'.
Proof.
  intros Hn Hm. unfold mergeElements. cbv zeta.
  apply (for3_range_ind (mergedInv L)); auto.
  - split; [simpl; lia|]. exists []. simpl. rewrite app_nil_r.
    repeat split; auto. intros e3 e2 e1 H3 H2 H1 Hlt.
    unfold elementIndex in Hlt. nia.
  - intros i j k s s' Hi Hj Hk (Hid & added & Hadd & Hlen & Hall) Hb.
    apply bind_Ok in Hb as (ids & Eids & Hb). injection Hb as <-.
    split; [simpl; lia|].
    exists (added ++ [(elementIdentifier s,
                       k >? elementsCountAround a - 2, ids)]). simpl.
    rewrite Hadd, length_app. simpl.
    split; [now rewrite app_assoc|]. split; [lia|].
    intros e3 e2 e1 H3 H2 H1 Hlt. unfold elementIndex in *.
    destruct (Z.eq_dec ((e3 * n + e2) * elementsCountAround a + e1)
                       ((i * n + j) * elementsCountAround a + k))
      as [Heq|Hne].
    + pose proof Heq as Heq'.
      apply element_index_unique in Heq' as (-> & -> & ->);
        [|lia|lia|lia|lia].
      exists ids. split; [exact Eids|].
      rewrite Hid.
      replace (k =? elementsCountAround a - 1)
        with (k >? elementsCountAround a - 2).
      * apply index_app_new. lia.
      * destruct (Z.gtb_spec k (elementsCountAround a - 2)),
                 (Z.eqb_spec k (elementsCountAround a - 1)); auto; lia.
    + destruct (Hall e3 e2 e1) as (ids' & E1 & E2); [lia|lia|lia|lia|].
      exists ids'. split; [exact E1|].
      assert (0 <= (e3 * n + e2) * elementsCountAround a) by nia.
      rewrite index_app_old; [exact E2 | lia].
Qed.

End ElementLogs.

(** X11.  The last loop visits the elements in the order of their creation:
    the element at position [k] of either log has the identifier
    [firstElementIdentifier + k] and the same eight node identifiers; it
    is given the template of the open tube exactly when it is the last
    element around its ring. *)
Theorem merged_elements_repeat_the_created_elements
    (a : Args) (elementsCountAlong : Z) (L1 L2 L3 L4 : Locals) :
  0 <= elementsCountAlong -> 0 <= elementsCountAround a ->
  createElements a elementsCountAlong L1 = Ok L2 ->
  mergeElements a elementsCountAlong L3 = Ok L4 ->
  exists created merged,
    elements (region L2) = elements (region L1) ++ created /\
    mergedElements (region L4) = mergedElements (region L3) ++ merged /\
    Z.of_nat (length created)
      = Z.max 0 (elementsCountThroughWall a) * elementsCountAlong
        * elementsCountAround a /\
    length merged = length created /\
    elementIdentifier L2 = elementIdentifier L4 /\
    forall e3 e2 e1,
      0 <= e3 < elementsCountThroughWall a ->
      0 <= e2 < elementsCountAlong -> 0 <= e1 < elementsCountAround a ->
      let k := elementIndex a elementsCountAlong e3 e2 e1 in
      exists ids,
        elementNodeIdentifiers (elementsCountAround a)
          ((elementsCountAlong + 1) * elementsCountAround a) e3 e2 e1
          = Ok ids /\
        index created k = Ok (firstElementIdentifier a + k, ids) /\
        index merged k =
          Ok (firstElementIdentifier a + k,
              e1 =? elementsCountAround a - 1, ids).
Proof.
  intros Hn Hm Hc Hg.
  apply createElements_log in Hc as (Hid1 & created & Ec & Lc & Hcr); auto.
  apply mergeElements_log in Hg as (Hid2 & merged & Em & Lm & Hmr); auto.
  exists created, merged. repeat split; auto; try lia.
  intros e3 e2 e1 H3 H2 H1. cbv zeta.
  assert (elementIndex a elementsCountAlong e3 e2 e1
          < Z.max 0 (elementsCountThroughWall a) * elementsCountAlong
            * elementsCountAround a) as Hlt.
  { unfold elementIndex.
    assert (e3 * elementsCountAlong + e2 + 1
            <= elementsCountThroughWall a * elementsCountAlong) by nia.
    assert ((e3 * elementsCountAlong + e2 + 1) * elementsCountAround a
            <= elementsCountThroughWall a * elementsCountAlong
               * elementsCountAround a)
      by (apply Z.mul_le_mono_nonneg_r; lia).
    lia. }
  destruct (Hcr e3 e2 e1) as (ids & E1 & E2); [lia|lia|lia|exact Hlt|].
  destruct (Hmr e3 e2 e1) as (ids' & E1' & E2'); [lia|lia|lia|exact Hlt|].
  rewrite E1 in E1'. injection E1' as <-.
  exists ids. auto.
Qed.

Lemma merged_elements_of_two_fibers :
  exists created merged ids,
    elements (region Example.twoFibersElements)
      = elements (region Example.twoFibers) ++ created /\
    mergedElements (region Example.twoFibersMerged)
      = mergedElements (region Example.twoFibers) ++ merged /\
    index created (elementIndex Example.twoFibersArgs 1 0 0 1)
      = Ok (firstElementIdentifier Example.twoFibersArgs
            + elementIndex Example.twoFibersArgs 1 0 0 1, ids) /\
    index merged (elementIndex Example.twoFibersArgs 1 0 0 1)
      = Ok (firstElementIdentifier Example.twoFibersArgs
            + elementIndex Example.twoFibersArgs 1 0 0 1,
            1 =? elementsCountAround Example.twoFibersArgs - 1, ids).
Proof.
  assert (createElements Example.twoFibersArgs 1 Example.twoFibers
          = Ok Example.twoFibersElements) as Hc
    by (vm_compute; reflexivity).
  assert (mergeElements Example.twoFibersArgs 1 Example.twoFibers
          = Ok Example.twoFibersMerged) as Hm
    by (vm_compute; reflexivity).
  assert (0 <= 1) as Hn by lia.
  assert (0 <= elementsCountAround Example.twoFibersArgs) as Ha
    by (simpl; lia).
  destruct (merged_elements_repeat_the_created_elements
              Example.twoFibersArgs 1 _ _ _ _ Hn Ha Hc Hm)
    as (created & merged & Ec & Em & _ & _ & _ & Hall).
  assert (0 <= 0 < elementsCountThroughWall Example.twoFibersArgs) as H3
    by (simpl; lia).
  assert (0 <= 0 < 1) as H2 by lia.
  assert (0 <= 1 < elementsCountAround Example.twoFibersArgs) as H1
    by (simpl; lia).
  destruct (Hall 0 0 1 H3 H2 H1) as (ids & _ & Hcr & Hmr).
  exists created, merged, ids.
  split; [exact Ec|]. split; [exact Em|]. split; [exact Hcr | exact Hmr].
Defined.

(** ** The derivatives around of the unwrapped coordinates *)

Lemma derivativesAround_first scale uList d1List :
  derivativesAround scale uList [] = Ok d1List ->
  uList <> [] ->
  exists u0 u1,
    index uList 0 = Ok u0 /\ index uList 1 = Ok u1 /\
    index d1List 0 = Ok (V3 (scale (sub u1 u0)) zero zero).
Proof.
  unfold derivativesAround. intros Hrun Hne.
  apply (for_range_ind
           (fun k l =>
              Z.of_nat (length l) = k /\
              (1 <= k ->
               exists u0 u1,
                 index uList 0 = Ok u0 /\ index uList 1 = Ok u1 /\
                 index l 0 = Ok (V3 (scale (sub u1 u0)) zero zero))))
    in Hrun.
  - destruct Hrun as (_ & Hfirst). apply Hfirst.
    destruct uList; [congruence | simpl; lia].
  - split; [reflexivity | lia].
  - intros i s s' Hi (Hlen & Hfirst) Hb.
    apply bind_Ok in Hb as (du & Edu & Hb). injection Hb as <-.
    rewrite length_app. simpl. split; [lia|]. intros _.
    destruct (Z.eq_dec i 0) as [->|Hne0].
    + simpl in Edu.
      apply bind_Ok in Edu as (uNext & En & Edu).
      apply bind_Ok in Edu as (u & Eu & Edu). injection Edu as <-.
      exists u, uNext. repeat split; auto. apply index_app_new. lia.
    + destruct Hfirst as (u0 & u1 & E0 & E1 & El); [lia|].
      exists u0, u1. repeat split; auto.
      rewrite index_app_old; [exact El | lia].
Qed.

(** X12.  The derivative around of the first node is taken over the
    interval after it, which is the interval before the second node: the
    first two entries are the same.  The list of parameters needs two
    entries for it; a list of one entry ends the loop with an
    [IndexError], an empty one gives no derivative. *)
Theorem first_derivative_around_is_of_the_first_interval
    (scale : float -> float) (uList : list float) :
  (forall d1List,
     derivativesAround scale uList [] = Ok d1List ->
     length d1List = length uList /\
     (uList <> [] ->
      exists u0 u1,
        index uList 0 = Ok u0 /\ index uList 1 = Ok u1 /\
        index d1List 0 = Ok (V3 (scale (sub u1 u0)) zero zero) /\
        index d1List 1 = index d1List 0)) /\
  (forall u, uList = [u] ->
     derivativesAround scale uList [] = Raise IndexError) /\
  (uList = [] -> derivativesAround scale uList [] = Ok []).
Proof.
  split; [|split].
  - intros d1List Hrun.
    pose proof (derivativesAround_entries _ _ _ Hrun) as (Hlen & Hent).
    split; [exact Hlen|]. intros Hne.
    destruct (derivativesAround_first _ _ _ Hrun Hne)
      as (u0 & u1 & E0 & E1 & Ed).
    assert (1 < Z.of_nat (length uList)) as Hl
      by (apply (index_Ok_range uList 1 u1); [lia | exact E1]).
    destruct (Hent 1) as (u & uPrev & Eu & Ep & Ed1); [lia|].
    simpl in Ep. rewrite E1 in Eu. injection Eu as <-.
    rewrite E0 in Ep. injection Ep as <-.
    exists u0, u1. repeat split; auto. congruence.
  - intros u ->. reflexivity.
  - intros ->. reflexivity.
Qed.

Lemma first_derivative_around_of_uneven_intervals :
  index Example.unevenD1 1 = index Example.unevenD1 0.
Proof.
  assert (derivativesAround (fun d => d) Example.unevenU []
          = Ok Example.unevenD1) as Hd by (vm_compute; reflexivity).
  destruct (proj1 (first_derivative_around_is_of_the_first_interval
                     (fun d => d) Example.unevenU) _ Hd) as (_ & Hfirst).
  destruct Hfirst as (u0 & u1 & _ & _ & _ & H10); [discriminate|].
  exact H10.
Defined.

Lemma modifyTransitionDerivatives_Raise transit d1List e :
  modifyTransitionDerivatives transit d1List = Raise e -> e = IndexError.
Proof.
  unfold modifyTransitionDerivatives. intros Hrun.
  apply for_Raise in Hrun as (i & s & _ & Hb).
  destruct (index transit i) as [[|]|e'] eqn:Et; simpl in Hb.
  - destruct (index s (i + 2)) as [d|e'] eqn:Ed; simpl in Hb.
    + eapply store_Raise; eauto.
    + injection Hb as <-. eapply index_Raise; eauto.
  - discriminate.
  - injection Hb as <-. eapply index_Raise; eauto.
Qed.

(** X13.  The pass over the flags returns exactly when [d1List] has an entry
    [i + 2] for every flagged interval [i]; otherwise it ends with an
    [IndexError]. *)
Theorem transition_pass_needs_an_entry_after_the_flagged
    (transitElementList : list bool) (d1List : list vec3) :
  ((exists d1List',
      modifyTransitionDerivatives transitElementList d1List = Ok d1List')
   <->
   (forall i, 0 <= i -> index transitElementList i = Ok true ->
      i + 2 < Z.of_nat (length d1List))) /\
  (forall e,
     modifyTransitionDerivatives transitElementList d1List = Raise e ->
     e = IndexError /\
     exists i, 0 <= i /\ index transitElementList i = Ok true /\
               Z.of_nat (length d1List) <= i + 2).
Proof.
  assert ((exists d1List',
      modifyTransitionDerivatives transitElementList d1List = Ok d1List')
   <->
   (forall i, 0 <= i -> index transitElementList i = Ok true ->
      i + 2 < Z.of_nat (length d1List))) as Hiff.
  { split.
    - intros [l' Hrun] i Hi Hflag.
      apply modifyTransitionDerivatives_invariant in Hrun as (_ & _ & Hroom).
      apply Hroom; [|exact Hflag].
      pose proof (index_Ok_range _ _ _ Hi Hflag). lia.
    - apply modifyTransitionDerivatives_returns. }
  split; [exact Hiff|].
  intros e Hrun. split; [eapply modifyTransitionDerivatives_Raise; eauto|].
  (* some flagged interval has no room, or the pass would have returned *)
  assert (forall n : nat,
            (exists i, 0 <= i < Z.of_nat n /\
                       index transitElementList i = Ok true /\
                       Z.of_nat (length d1List) <= i + 2) \/
            (forall i, 0 <= i < Z.of_nat n ->
                       index transitElementList i = Ok true ->
                       i + 2 < Z.of_nat (length d1List))) as Hdec.
  { induction n as [|n [(i & Hi & Hf & Hr)|Hall]].
    - right. intros i Hi. lia.
    - left. exists i. repeat split; auto; lia.
    - destruct (index transitElementList (Z.of_nat n)) as [[|]|e'] eqn:Et.
      + destruct (Z.le_gt_cases (Z.of_nat (length d1List))
                                (Z.of_nat n + 2)) as [Hle|Hgt].
        * left. exists (Z.of_nat n). repeat split; auto; lia.
        * right. intros i Hi Hf.
          destruct (Z.eq_dec i (Z.of_nat n)) as [->|Hne]; [lia|].
          apply Hall; [lia | exact Hf].
      + right. intros i Hi Hf.
        destruct (Z.eq_dec i (Z.of_nat n)) as [->|Hne]; [congruence|].
        apply Hall; [lia | exact Hf].
      + right. intros i Hi Hf.
        destruct (Z.eq_dec i (Z.of_nat n)) as [->|Hne]; [congruence|].
        apply Hall; [lia | exact Hf]. }
  destruct (Hdec (length transitElementList))
    as [(i & Hi & Hf & Hr)|Hall].
  - exists i. repeat split; auto; lia.
  - exfalso.
    destruct (proj2 Hiff) as [l' Hl'].
    + intros i Hi Hf. apply Hall; [|exact Hf].
      pose proof (index_Ok_range _ _ _ Hi Hf). lia.
    + congruence.
Qed.

Lemma transition_pass_on_flagged_last_interval :
  modifyTransitionDerivatives [false; false; false; true] Example.unevenD1
    = Raise IndexError.
Proof.
  destruct (modifyTransitionDerivatives [false; false; false; true]
              Example.unevenD1) as [l|e] eqn:E.
  - exfalso.
    assert (3 + 2 < Z.of_nat (length Example.unevenD1)) as Hroom.
    { apply (proj1 (proj1 (transition_pass_needs_an_entry_after_the_flagged
                             [false; false; false; true]
                             Example.unevenD1))).
      - exists l. exact E.
      - lia.
      - reflexivity. }
    simpl in Hroom. lia.
  - destruct (proj2 (transition_pass_needs_an_entry_after_the_flagged
                       [false; false; false; true] Example.unevenD1)
                    e E) as (-> & _).
    reflexivity.
Defined.

(** ** The identifiers that are returned *)

Section Identifiers.
Lemma flatCoordinates_nodeIdentifier a n L L' :
  flatCoordinates a n L = Ok L' ->
  nodeIdentifier L' =
    firstNodeIdentifier a
    + Z.max 0 (elementsCountThroughWall a + 1)
      * (Z.max 0 (n + 1) * (Z.max 0 (elementsCountAround a) * 1)).
Proof.
  unfold flatCoordinates. intros Hrun. cbv zeta in Hrun.
  apply bind_Ok in Hrun as (total & _ & Hrun).
  apply bind_Ok in Hrun as (dv & _ & Hrun).
  apply bind_Ok in Hrun as (l1 & _ & Hrun).
  apply bind_Ok in Hrun as (l2 & _ & Hrun).
  apply (for_range_count nodeIdentifier
           (Z.max 0 (n + 1) * (Z.max 0 (elementsCountAround a) * 1)))
    in Hrun; [exact Hrun|].
  intros n3 s3 s3' _.
  apply (for_range_count nodeIdentifier
           (Z.max 0 (elementsCountAround a) * 1)).
  intros n2 s2 s2' _.
  apply (for_range_count nodeIdentifier 1).
  intros n1 s s' _ Hb. inv_bind Hb. injection Hb as <-. reflexivity.
Qed.

Lemma mergeElements_identifiers a n L L' :
  mergeElements a n L = Ok L' ->
  nodeIdentifier L' = nodeIdentifier L /\
  elementIdentifier L' =
    firstElementIdentifier a
    + Z.max 0 (elementsCountThroughWall a)
      * (Z.max 0 n * (Z.max 0 (elementsCountAround a) * 1)).
Proof.
  unfold mergeElements. intros Hrun. cbv zeta in Hrun. split.
  - revert Hrun.
    apply (for_range_preserves
             (fun s => nodeIdentifier s = nodeIdentifier L));
      [reflexivity|].
    intros e3 s3 s3' Hs3.
    apply (for_range_preserves
             (fun s => nodeIdentifier s = nodeIdentifier L)); [exact Hs3|].
    intros e2 s2 s2' Hs2.
    apply (for_range_preserves
             (fun s => nodeIdentifier s = nodeIdentifier L)); [exact Hs2|].
    intros e1 s s' Hs Hb. inv_bind Hb. injection Hb as <-. exact Hs.
  - apply (for_range_count elementIdentifier
             (Z.max 0 n * (Z.max 0 (elementsCountAround a) * 1)))
      in Hrun; [exact Hrun|].
    intros e3 s3 s3' _.
    apply (for_range_count elementIdentifier
             (Z.max 0 (elementsCountAround a) * 1)).
    intros e2 s2 s2' _.
    apply (for_range_count elementIdentifier 1).
    intros e1 s s' _ Hb. inv_bind Hb. injection Hb as <-. reflexivity.
Qed.

Lemma textureCoordinates_needs_elements_along a n L :
  n = 0 -> textureCoordinates a n L = Raise ZeroDivisionError.
Proof. intros ->. reflexivity. Qed.

End Identifiers.

(** X14.  A call that returns has at least one element through the wall
    and a number of elements along that is not zero; the identifiers it
    returns are the first ones not used: the node identifier has advanced
    from [firstNodeIdentifier] by the number of vertices, the element
    identifier from [firstElementIdentifier] by the number of elements. *)
Theorem returned_identifiers_follow_the_last_used `{Imports}
    (a : Args) (out : Output) :
  generatetubemesh a = Ok out ->
  let elementsCountAlong :=
    elementsCountAlongSegment a * segmentCountAlong a in
  1 <= elementsCountThroughWall a /\
  elementsCountAlong <> 0 /\
  out_nodeIdentifier out =
    firstNodeIdentifier a
    + (elementsCountThroughWall a + 1) * Z.max 0 (elementsCountAlong + 1)
      * Z.max 0 (elementsCountAround a) /\
  out_nodeIdentifier out
    = firstNodeIdentifier a + Z.of_nat (length (out_xList out)) /\
  out_elementIdentifier out =
    firstElementIdentifier a
    + elementsCountThroughWall a * Z.max 0 elementsCountAlong
      * Z.max 0 (elementsCountAround a).
Proof.
  intros Hrun. cbv zeta.
  pose proof (generatetubemesh_stages a out Hrun) as Hst. cbv zeta in Hst.
  destruct Hst as (sx0 & xO0 & cI0 & L4 & L5' & Hw & E5' & Hf & Hx & _).
  unfold generatetubemesh in Hrun. cbv zeta in Hrun.
  apply bind_Ok in Hrun as ([[[[sx sd1] se] sxi] ssf] & Es & Hrun).
  apply bind_Ok in Hrun as ([sd2 sd12] & Ei & Hrun).
  apply bind_Ok in Hrun as (L1 & E1 & Hrun).
  apply bind_Ok in Hrun as (L2 & E2 & Hrun).
  apply bind_Ok in Hrun as (L3 & E3 & Hrun).
  apply bind_Ok in Hrun as ([xO cI] & Eo & Hrun).
  apply bind_Ok in Hrun as (L5 & E5 & Hrun).
  apply bind_Ok in Hrun as (L6 & E6 & Hrun).
  apply bind_Ok in Hrun as (L7 & E7 & Hrun).
  apply bind_Ok in Hrun as (L8 & E8 & Hrun).
  apply bind_Ok in Hrun as (L9 & E9 & Hrun).
  apply bind_Ok in Hrun as (L10 & E10 & Hrun).
  apply bind_Ok in Hrun as (factors & Ef & Hrun).
  injection Hrun as <-. simpl in *.
  assert (elementsCountThroughWall a <> 0) as Hne.
  { intros Hz.
    rewrite interpolateThroughWall_raises_without_elements in E5
      by exact Hz. discriminate. }
  assert (elementsCountAlongSegment a * segmentCountAlong a <> 0) as Hal.
  { intros Hz. rewrite textureCoordinates_needs_elements_along in E8
      by exact Hz. discriminate. }
  apply interpolateThroughWall_invariant in E5'
    as (_ & Lx & _ & _ & _ & Hzero & _).
  rewrite Hw in *. simpl in *.
  assert (0 < elementsCountThroughWall a + 1) as Hpos.
  { destruct (Z.le_gt_cases (elementsCountThroughWall a + 1) 0); [|lia].
    rewrite Hzero in Hf by lia. discriminate. }
  apply flatCoordinates_nodeIdentifier in E9.
  apply mergeElements_identifiers in E10 as (Hn & He).
  rewrite Hx, Hn, He, E9. unfold vertexCount in Lx.
  repeat split; try lia.
Qed.

Lemma returned_identifiers_of_tube_along_x :
  generatetubemesh Example.tubeAlongX = Ok Example.tubeAlongXOutput /\
  out_nodeIdentifier Example.tubeAlongXOutput
    = firstNodeIdentifier Example.tubeAlongX
      + Z.of_nat (length (out_xList Example.tubeAlongXOutput)) /\
  out_elementIdentifier Example.tubeAlongXOutput
    = firstElementIdentifier Example.tubeAlongX
      + elementsCountThroughWall Example.tubeAlongX
        * Z.max 0 (elementsCountAlongSegment Example.tubeAlongX
                   * segmentCountAlong Example.tubeAlongX)
        * Z.max 0 (elementsCountAround Example.tubeAlongX).
Proof.
  assert (generatetubemesh Example.tubeAlongX
          = Ok Example.tubeAlongXOutput) as Hrun
    by (vm_compute; reflexivity).
  destruct (returned_identifiers_follow_the_last_used
              Example.tubeAlongX Example.tubeAlongXOutput Hrun)
    as (_ & _ & _ & Hn & He).
  split; [exact Hrun|]. split; [exact Hn | exact He].
Defined.

(** ** The nodes of the texture and flat coordinates *)

Section NodeLoop.

(** The three loops over the nodes of an unwrapped field, for any body
    that records version 1 for every node and a version 2 for the first
    node of a ring, and advances the node identifier by one. *)
Variables (a : Args) (m : Z).
Variable body : Z -> Z -> Z -> Locals -> result Locals.
Variable log : Locals -> list NodeParameters.
Variable value : float -> Z -> Z -> result vec3.
Variable around : float -> float.
Variables (seam : float) (d2 : vec3).

Definition unwrappedNode (identifier version : Z) (u d1 : vec3)
  : NodeParameters :=
  {| np_identifier := identifier; np_version := version; np_value := u;
     np_d_ds1 := d1; np_d_ds2 := d2; np_d_ds3 := None |}.

(** The index of the ring of station [n2] in layer [n3], and the place
    of the entries of its node [n1] among the recorded ones: a ring of
    [elementsCountAround] nodes has one entry more, the version 2 of its
    first node, which follows the version 1. *)
Definition ringIndex (n3 n2 : Z) : Z := n3 * m + n2.

Definition entryIndex (n3 n2 n1 : Z) : Z :=
  ringIndex n3 n2 * (elementsCountAround a + 1)
  + (if n1 =? 0 then 0 else n1 + 1).

Definition nodeRecorded (d1s : list vec3) (added : list NodeParameters)
    (n3 n2 n1 : Z) : Prop :=
  let identifier :=
    firstNodeIdentifier a + ringIndex n3 n2 * elementsCountAround a + n1 in
  exists u0 u d1,
    index (uList a) n1 = Ok u0 /\
    value (around u0) n2 n3 = Ok u /\
    index d1s n1 = Ok d1 /\
    index added (entryIndex n3 n2 n1)
      = Ok (unwrappedNode identifier 1 u d1) /\
    (n1 = 0 ->
     exists u' dLast,
       value seam n2 n3 = Ok u' /\
       index d1s (-1) = Ok dLast /\
       index added (entryIndex n3 n2 n1 + 1)
         = Ok (unwrappedNode identifier 2 u' dLast)).

Hypothesis Hm : 0 <= m.
Hypothesis Hp : 1 <= elementsCountAround a.

Hypothesis Hbody : forall n3 n2 n1 s s',
  body n3 n2 n1 s = Ok s' ->
  d1List s' = d1List s /\
  nodeIdentifier s' = nodeIdentifier s + 1 /\
  exists u0 u d1,
    index (uList a) n1 = Ok u0 /\
    value (around u0) n2 n3 = Ok u /\
    index (d1List s) n1 = Ok d1 /\
    if n1 =? 0 then
      exists u' dLast,
        value seam n2 n3 = Ok u' /\
        index (d1List s) (-1) = Ok dLast /\
        log s' = log s ++ [unwrappedNode (nodeIdentifier s) 1 u d1;
                           unwrappedNode (nodeIdentifier s) 2 u' dLast]
    else log s' = log s ++ [unwrappedNode (nodeIdentifier s) 1 u d1].

Lemma nodeRecorded_app d1s added more n3 n2 n1 :
  0 <= n3 -> 0 <= n2 -> 0 <= n1 < elementsCountAround a ->
  entryIndex n3 n2 n1 + (if n1 =? 0 then 1 else 0)
    < Z.of_nat (length added) ->
  nodeRecorded d1s added n3 n2 n1 ->
  nodeRecorded d1s (added ++ more) n3 n2 n1.
Proof.
  intros H3 H2 H1 Hlt (u0 & u & d1 & Eu & Ev & Ed & Ei & Hsecond).
  assert (0 <= entryIndex n3 n2 n1) as Hpos.
  { unfold entryIndex, ringIndex.
    assert (0 <= (n3 * m + n2) * (elementsCountAround a + 1)) by nia.
    destruct (n1 =? 0); lia. }
  exists u0, u, d1. repeat split; auto.
  - rewrite index_app_old; [exact Ei|].
    destruct (n1 =? 0); lia.
  - intros Hz. destruct (Hsecond Hz) as (u' & dL & Ev' & EdL & Ei').
    exists u', dL. repeat split; auto.
    rewrite index_app_old; [exact Ei'|].
    subst n1. simpl in Hlt. lia.
Qed.

(** The state after the first [k] nodes of the ring [q]. *)
Definition ringInv (L : Locals) (d1s : list vec3) (n3 n2 k : Z)
    (s : Locals) : Prop :=
  let q := ringIndex n3 n2 in
  d1List s = d1s /\
  nodeIdentifier s = firstNodeIdentifier a + q * elementsCountAround a + k /\
  exists added,
    log s = log L ++ added /\
    Z.of_nat (length added)
      = q * (elementsCountAround a + 1) + (if k =? 0 then 0 else k + 1) /\
    (forall e3 e2 e1,
       0 <= e3 -> 0 <= e2 < m -> 0 <= e1 < elementsCountAround a ->
       ringIndex e3 e2 < q -> nodeRecorded d1s added e3 e2 e1) /\
    (forall e1, 0 <= e1 < k -> nodeRecorded d1s added n3 n2 e1).

Lemma ring_step L d1s n3 n2 k s s' :
  0 <= n3 -> 0 <= n2 < m -> 0 <= k < elementsCountAround a ->
  ringInv L d1s n3 n2 k s ->
  body n3 n2 k s = Ok s' ->
  ringInv L d1s n3 n2 (k + 1) s'.
Proof.
  intros H3 H2 Hk (Hd & Hid & added & Hlog & Hlen & Hrings & Hring) Hb.
  apply Hbody in Hb
    as (Hd' & Hid' & u0 & u & d1 & Eu & Ev & Ed & Hrec).
  rewrite Hd in *.
  assert (0 <= ringIndex n3 n2 * (elementsCountAround a + 1)) as Hq.
  { unfold ringIndex. nia. }
  assert ((k + 1 =? 0) = false) as Hk1 by (apply Z.eqb_neq; lia).
  split; [exact Hd'|]. split; [lia|]. rewrite Hk1.
  assert (forall more,
            (forall e3 e2 e1,
               0 <= e3 -> 0 <= e2 < m -> 0 <= e1 < elementsCountAround a ->
               ringIndex e3 e2 < ringIndex n3 n2 ->
               nodeRecorded d1s (added ++ more) e3 e2 e1) /\
            (forall e1, 0 <= e1 < k ->
               nodeRecorded d1s (added ++ more) n3 n2 e1)) as Hold.
  { intros more. split.
    - intros e3 e2 e1 E3 E2 E1 Hlt.
      apply nodeRecorded_app; auto; [lia|].
      unfold entryIndex.
      assert ((ringIndex e3 e2 + 1) * (elementsCountAround a + 1)
              <= ringIndex n3 n2 * (elementsCountAround a + 1)) by nia.
      destruct (Z.eqb_spec e1 0), (k =? 0); lia.
    - intros e1 E1. apply nodeRecorded_app; auto; [lia | lia |].
      unfold entryIndex.
      destruct (Z.eqb_spec e1 0), (Z.eqb_spec k 0); lia. }
  destruct (Z.eqb_spec k 0) as [->|Hk0].
  - destruct Hrec as (u' & dL & Ev' & EdL & Hlog').
    exists (added ++ [unwrappedNode (nodeIdentifier s) 1 u d1;
                      unwrappedNode (nodeIdentifier s) 2 u' dL]).
    rewrite Hlog', Hlog, <- app_assoc, length_app. simpl.
    split; [reflexivity|]. split; [lia|].
    split; [apply Hold|].
    intros e1 E1. assert (e1 = 0) as -> by lia.
    exists u0, u, d1. unfold entryIndex. simpl.
    rewrite Hid, !Z.add_0_r in *.
    repeat split; auto.
    + rewrite index_nonneg_nth_error by lia.
      rewrite nth_error_app2 by lia.
      replace (Z.to_nat _ - length added)%nat with 0%nat by lia.
      reflexivity.
    + intros _. exists u', dL. repeat split; auto.
      rewrite index_nonneg_nth_error by lia.
      rewrite nth_error_app2 by lia.
      replace (Z.to_nat _ - length added)%nat with 1%nat by lia.
      reflexivity.
  - apply Z.eqb_neq in Hk0 as Hk0'.
    try rewrite Hk0' in Hlen. try rewrite Hk0' in Hrec.
    exists (added ++ [unwrappedNode (nodeIdentifier s) 1 u d1]).
    rewrite Hrec, Hlog, <- app_assoc, length_app. simpl.
    split; [reflexivity|]. split; [lia|].
    split; [apply Hold|].
    intros e1 E1. destruct (Z.eq_dec e1 k) as [->|Hne].
    + exists u0, u, d1. unfold entryIndex.
      destruct (Z.eqb_spec k 0) as [?|_]; [contradiction|].
      rewrite Hid. repeat split; auto; [|intros; contradiction].
      apply index_app_new. lia.
    + apply Hold. lia.
Qed.

(** The state after the first [q] rings. *)
Definition ringsInv (L : Locals) (d1s : list vec3) (q : Z) (s : Locals)
  : Prop :=
  d1List s = d1s /\
  nodeIdentifier s = firstNodeIdentifier a + q * elementsCountAround a /\
  exists added,
    log s = log L ++ added /\
    Z.of_nat (length added) = q * (elementsCountAround a + 1) /\
    forall e3 e2 e1,
      0 <= e3 -> 0 <= e2 < m -> 0 <= e1 < elementsCountAround a ->
      ringIndex e3 e2 < q -> nodeRecorded d1s added e3 e2 e1.

Lemma node_loop L d1s count s0 sN :
  d1List s0 = d1s -> nodeIdentifier s0 = firstNodeIdentifier a ->
  log s0 = log L ->
  for_ (range count)
       (fun n3 => for_ (range m)
          (fun n2 => for_ (range (elementsCountAround a)) (body n3 n2)))
       s0 = Ok sN ->
  ringsInv L d1s (Z.max 0 count * m) sN.
Proof.
  intros Hd Hid Hlog.
  apply (for2_range_ind (ringsInv L d1s)); [exact Hm | |].
  - split; [exact Hd|]. split; [lia|]. exists [].
    rewrite app_nil_r. repeat split; auto.
    intros e3 e2 e1 E3 E2 E1 Hlt. unfold ringIndex in Hlt. nia.
  - intros i j s s' Hi Hj (Hds & Hids & added & Hl & Hlen & Hrings) Hrun.
    apply (for_range_ind (ringInv L d1s i j)) in Hrun.
    + replace (Z.max 0 (elementsCountAround a))
        with (elementsCountAround a) in Hrun by lia.
      destruct Hrun as (Hd' & Hid' & added' & Hl' & Hlen' & Hrings' &
                        Hring').
      destruct (Z.eqb_spec (elementsCountAround a) 0) as [?|_]; [lia|].
      unfold ringIndex in *.
      split; [exact Hd'|]. split; [lia|].
      exists added'. split; [exact Hl'|]. split; [lia|].
      intros e3 e2 e1 E3 E2 E1 Hlt. unfold ringIndex in *.
      destruct (Z.eq_dec (e3 * m + e2) (i * m + j)) as [Heq|Hne].
      * apply row_major_unique in Heq as [-> ->]; [|lia|lia].
        apply Hring'. lia.
      * apply Hrings'; auto. lia.
    + unfold ringInv, ringIndex. simpl.
      split; [exact Hds|]. split; [lia|].
      exists added. split; [exact Hl|]. split; [lia|].
      split; [exact Hrings|]. intros e1 E1. lia.
    + intros k t t' Hk Ht Hb. eapply ring_step; eauto; lia.
Qed.

End NodeLoop.

Section Unwrapped.

Variables (a : Args) (elementsCountAlong : Z).

(** [[first, 1.0 / elementsCountAlong * n2,
      1.0 / elementsCountThroughWall * n3]] *)
Definition textureValue (first : float) (n2 n3 : Z) : result vec3 :=
  let* q2 := truediv_int one elementsCountAlong in
  let* u1 := mul_int q2 n2 in
  let* q3 := truediv_int one (elementsCountThroughWall a) in
  let* u2 := mul_int q3 n3 in
  Ok (V3 first u1 u2).

(** [[first, totalLengthAlong / elementsCountAlong * n2,
      wallThickness / elementsCountThroughWall * n3]] *)
Definition flatValue (totalLengthAlong first : float) (n2 n3 : Z)
  : result vec3 :=
  let* q2 := truediv_int totalLengthAlong elementsCountAlong in
  let* x1 := mul_int q2 n2 in
  let* q3 := truediv_int (wallThickness a) (elementsCountThroughWall a) in
  let* x2 := mul_int q3 n3 in
  Ok (V3 first x1 x2).

Lemma textureCoordinates_nodes L L' :
  0 <= elementsCountAlong -> 1 <= elementsCountAround a ->
  textureCoordinates a elementsCountAlong L = Ok L' ->
  exists dv l1,
    truediv_int one elementsCountAlong = Ok dv /\
    derivativesAround (fun d => d) (uList a) (d1List L) = Ok l1 /\
    modifyTransitionDerivatives (transitElementList a) l1
      = Ok (d1List L') /\
    ringsInv a (elementsCountAlong + 1)
      (fun s => textureNodes (region s)) textureValue (fun u => u) one
      (V3 zero dv zero) L (d1List L')
      (Z.max 0 (elementsCountThroughWall a + 1) * (elementsCountAlong + 1))
      L'.
Proof.
  intros Hn Hm Hrun. unfold textureCoordinates in Hrun.
  apply bind_Ok in Hrun as (dv & Edv & Hrun).
  apply bind_Ok in Hrun as (l1 & El1 & Hrun).
  apply bind_Ok in Hrun as (l2 & El2 & Hrun).
  simpl in El2. exists dv, l1.
  split; [exact Edv|]. split; [exact El1|].
  apply (node_loop a (elementsCountAlong + 1) _
           (fun s => textureNodes (region s)) textureValue (fun u => u)
           one (V3 zero dv zero)) with (L := L) (d1s := l2) in Hrun;
    try lia; try reflexivity.
  - destruct Hrun as (Hd & Hrest). rewrite Hd.
    split; [exact El2|]. split; [exact Hd | exact Hrest].
  - intros n3 n2 n1 s s' Hb.
    apply bind_Ok in Hb as (u0 & Eu & Hb).
    apply bind_Ok in Hb as (q2 & E2 & Hb).
    apply bind_Ok in Hb as (u1 & E2' & Hb).
    apply bind_Ok in Hb as (q3 & E3 & Hb).
    apply bind_Ok in Hb as (u2 & E3' & Hb).
    apply bind_Ok in Hb as (d1 & Ed1 & Hb).
    apply bind_Ok in Hb as (r & Er & Hb). injection Hb as <-.
    split; [reflexivity|]. split; [reflexivity|].
    exists u0, (V3 u0 u1 u2), d1.
    split; [exact Eu|]. split.
    { unfold textureValue. rewrite E2. simpl. rewrite E2'. simpl.
      rewrite E3. simpl. rewrite E3'. reflexivity. }
    split; [exact Ed1|].
    destruct (Z.eqb_spec n1 0) as [Hz|Hz].
    + apply bind_Ok in Er as (q2' & F2 & Er).
      apply bind_Ok in Er as (u1' & F2' & Er).
      apply bind_Ok in Er as (q3' & F3 & Er).
      apply bind_Ok in Er as (u2' & F3' & Er).
      apply bind_Ok in Er as (dLast & EdL & Er). injection Er as <-.
      exists (V3 one u1' u2'), dLast. split.
      { unfold textureValue. rewrite F2. simpl. rewrite F2'. simpl.
        rewrite F3. simpl. rewrite F3'. reflexivity. }
      split; [exact EdL|]. simpl. rewrite <- app_assoc. reflexivity.
    + injection Er as <-. reflexivity.
Qed.

Lemma flatCoordinates_nodes L L' :
  0 <= elementsCountAlong -> 1 <= elementsCountAround a ->
  flatCoordinates a elementsCountAlong L = Ok L' ->
  exists total dv l1,
    mul_int (segmentLength a) (segmentCountAlong a) = Ok total /\
    truediv_int total elementsCountAlong = Ok dv /\
    derivativesAround (fun d => mul d (arcLengthOuterMidLength a))
                      (uList a) [] = Ok l1 /\
    modifyTransitionDerivatives (transitElementList a) l1
      = Ok (d1List L') /\
    ringsInv a (elementsCountAlong + 1)
      (fun s => flatNodes (region s)) (flatValue total)
      (fun u => mul u (arcLengthOuterMidLength a))
      (arcLengthOuterMidLength a) (V3 zero dv zero) L (d1List L')
      (Z.max 0 (elementsCountThroughWall a + 1) * (elementsCountAlong + 1))
      L'.
Proof.
  intros Hn Hm Hrun. unfold flatCoordinates in Hrun. cbv zeta in Hrun.
  apply bind_Ok in Hrun as (total & Et & Hrun).
  apply bind_Ok in Hrun as (dv & Edv & Hrun).
  apply bind_Ok in Hrun as (l1 & El1 & Hrun).
  apply bind_Ok in Hrun as (l2 & El2 & Hrun).
  simpl in El1, El2. exists total, dv, l1.
  split; [exact Et|]. split; [exact Edv|]. split; [exact El1|].
  apply (node_loop a (elementsCountAlong + 1) _
           (fun s => flatNodes (region s)) (flatValue total)
           (fun u => mul u (arcLengthOuterMidLength a))
           (arcLengthOuterMidLength a) (V3 zero dv zero))
    with (L := L) (d1s := l2) in Hrun;
    try lia; try reflexivity.
  - destruct Hrun as (Hd & Hrest). rewrite Hd.
    split; [exact El2|]. split; [exact Hd | exact Hrest].
  - intros n3 n2 n1 s s' Hb.
    apply bind_Ok in Hb as (u0 & Eu & Hb).
    apply bind_Ok in Hb as (q2 & E2 & Hb).
    apply bind_Ok in Hb as (x1 & E2' & Hb).
    apply bind_Ok in Hb as (q3 & E3 & Hb).
    apply bind_Ok in Hb as (x2 & E3' & Hb).
    apply bind_Ok in Hb as (d1 & Ed1 & Hb).
    apply bind_Ok in Hb as (r & Er & Hb). injection Hb as <-.
    split; [reflexivity|]. split; [reflexivity|].
    exists u0, (V3 (mul u0 (arcLengthOuterMidLength a)) x1 x2), d1.
    split; [exact Eu|]. split.
    { unfold flatValue. rewrite E2. simpl. rewrite E2'. simpl.
      rewrite E3. simpl. rewrite E3'. reflexivity. }
    split; [exact Ed1|].
    destruct (Z.eqb_spec n1 0) as [Hz|Hz].
    + apply bind_Ok in Er as (q2' & F2 & Er).
      apply bind_Ok in Er as (x1' & F2' & Er).
      apply bind_Ok in Er as (q3' & F3 & Er).
      apply bind_Ok in Er as (x2' & F3' & Er).
      apply bind_Ok in Er as (dLast & EdL & Er). injection Er as <-.
      exists (V3 (arcLengthOuterMidLength a) x1' x2'), dLast. split.
      { unfold flatValue. rewrite F2. simpl. rewrite F2'. simpl.
        rewrite F3. simpl. rewrite F3'. reflexivity. }
      split; [exact EdL|]. simpl. rewrite <- app_assoc. reflexivity.
    + injection Er as <-. reflexivity.
Qed.

End Unwrapped.

(** X15.  The loops over the nodes of the texture and of the flat
    coordinates ([elementsCountAlong >= 0], at least one point around)
    start again at [firstNodeIdentifier] and record, for every layer
    [n3], station [n2] and index around [n1], one entry of version 1 for
    the node [firstNodeIdentifier
    + (n3 * (elementsCountAlong + 1) + n2) * elementsCountAround + n1],
    with the value [[uList[n1], 1.0/elementsCountAlong*n2,
    1.0/elementsCountThroughWall*n3]] (for the flat coordinates
    [[uList[n1]*arcLengthOuterMidLength,
    totalLengthAlong/elementsCountAlong*n2,
    wallThickness/elementsCountThroughWall*n3]]) and the derivative
    [d1List[n1]]; for the first node of every ring, and for no other,
    the entry is followed by one of version 2 with [1.0] (respectively
    [arcLengthOuterMidLength]) for the first component and the last
    derivative [d1List[-1]].  These are all the entries:
    [elementsCountAround + 1] per ring. *)
Theorem unwrapped_fields_have_a_second_version_at_the_opening
    (a : Args) (elementsCountAlong : Z) (L : Locals) :
  0 <= elementsCountAlong -> 1 <= elementsCountAround a ->
  let rings :=
    Z.max 0 (elementsCountThroughWall a + 1) * (elementsCountAlong + 1) in
  (forall L',
     textureCoordinates a elementsCountAlong L = Ok L' ->
     exists dv added,
       truediv_int one elementsCountAlong = Ok dv /\
       nodeIdentifier L'
         = firstNodeIdentifier a + rings * elementsCountAround a /\
       textureNodes (region L') = textureNodes (region L) ++ added /\
       Z.of_nat (length added) = rings * (elementsCountAround a + 1) /\
       forall n3 n2 n1,
         0 <= n3 <= elementsCountThroughWall a ->
         0 <= n2 <= elementsCountAlong ->
         0 <= n1 < elementsCountAround a ->
         nodeRecorded a (elementsCountAlong + 1)
           (textureValue a elementsCountAlong) (fun u => u) one
           (V3 zero dv zero) (d1List L') added n3 n2 n1) /\
  (forall L',
     flatCoordinates a elementsCountAlong L = Ok L' ->
     exists total dv added,
       mul_int (segmentLength a) (segmentCountAlong a) = Ok total /\
       truediv_int total elementsCountAlong = Ok dv /\
       nodeIdentifier L'
         = firstNodeIdentifier a + rings * elementsCountAround a /\
       flatNodes (region L') = flatNodes (region L) ++ added /\
       Z.of_nat (length added) = rings * (elementsCountAround a + 1) /\
       forall n3 n2 n1,
         0 <= n3 <= elementsCountThroughWall a ->
         0 <= n2 <= elementsCountAlong ->
         0 <= n1 < elementsCountAround a ->
         nodeRecorded a (elementsCountAlong + 1)
           (flatValue a elementsCountAlong total)
           (fun u => mul u (arcLengthOuterMidLength a))
           (arcLengthOuterMidLength a) (V3 zero dv zero) (d1List L') added
           n3 n2 n1).
Proof.
  intros Hn Hm. cbv zeta. split; intros L' Hrun.
  - apply textureCoordinates_nodes in Hrun
      as (dv & l1 & Edv & _ & _ & _ & Hid & added & Hadd & Hlen & Hall);
      auto.
    exists dv, added. repeat split; auto.
    intros n3 n2 n1 H3 H2 H1. apply Hall; try lia.
    unfold ringIndex.
    assert (n3 * (elementsCountAlong + 1) + n2 + 1
            <= (elementsCountThroughWall a + 1) * (elementsCountAlong + 1))
      by nia.
    lia.
  - apply flatCoordinates_nodes in Hrun
      as (total & dv & l1 & Et & Edv & _ & _ & _ & Hid & added & Hadd &
          Hlen & Hall); auto.
    exists total, dv, added. repeat split; auto.
    intros n3 n2 n1 H3 H2 H1. apply Hall; try lia.
    unfold ringIndex.
    assert (n3 * (elementsCountAlong + 1) + n2 + 1
            <= (elementsCountThroughWall a + 1) * (elementsCountAlong + 1))
      by nia.
    lia.
Qed.

Lemma unwrapped_fields_of_two_fibers :
  textureCoordinates Example.twoFibersArgs 1 Example.twoFibers
    = Ok Example.twoFibersTexture /\
  exists dv added,
    textureNodes (region Example.twoFibersTexture)
      = textureNodes (region Example.twoFibers) ++ added /\
    Z.of_nat (length added)
      = Z.max 0 (elementsCountThroughWall Example.twoFibersArgs + 1)
        * (1 + 1) * (elementsCountAround Example.twoFibersArgs + 1) /\
    nodeRecorded Example.twoFibersArgs (1 + 1)
      (textureValue Example.twoFibersArgs 1) (fun u => u) one
      (V3 zero dv zero) (d1List Example.twoFibersTexture) added 1 1 0.
Proof.
  assert (textureCoordinates Example.twoFibersArgs 1 Example.twoFibers
          = Ok Example.twoFibersTexture) as Hrun
    by (vm_compute; reflexivity).
  split; [exact Hrun|].
  assert (0 <= 1) as Hn by lia.
  assert (1 <= elementsCountAround Example.twoFibersArgs) as Hm
    by (simpl; lia).
  destruct (proj1 (unwrapped_fields_have_a_second_version_at_the_opening
                     Example.twoFibersArgs 1 Example.twoFibers Hn Hm)
                  _ Hrun) as (dv & added & _ & _ & Hadd & Hlen & Hall).
  exists dv, added. split; [exact Hadd|]. split; [exact Hlen|].
  apply Hall; simpl; lia.
Defined.

(** ** The rigid motion of a rotated station *)

Section RotatedStation.
Context `{Imports}.

Variables (a : Args) (sd2 : list vec3) (unitTangent cp : vec3).
Variables (n2 nAlongSegment : Z) (m : float).
Variables (rot : mat3) (mid translate : vec3).

Hypothesis Hm : magnitude cp = Ok m.
Hypothesis Hrotated : gtb m zero = true.

(** A point of the profile after the two rotations and the translation
    of its station. *)
Definition movedPoint (rot2 : mat3) (x : vec3) : vec3 :=
  build3 (fun j => add (comp (matvec rot2 (matvec rot x)) j)
                       (comp translate j)).

(** The three frame values that [alignFrame] has set for the station. *)
Definition stationFrame (fr : Frame) : Prop :=
  rotFrame fr = Some rot /\ midRot fr = Some mid /\
  translateMatrix fr = Some translate.

Definition movedEntries (L : Locals) (rot2 : mat3) (k : Z) (s : Locals)
  : Prop :=
  forall n1, 0 <= n1 < k ->
    exists x d1 d2,
      index (xInner a) (nAlongSegment * elementsCountAround a + n1) = Ok x /\
      index (d1Inner a) (nAlongSegment * elementsCountAround a + n1)
        = Ok d1 /\
      index (d2Inner a) (nAlongSegment * elementsCountAround a + n1)
        = Ok d2 /\
      index (xInnerList (inner s))
            (Z.of_nat (length (xInnerList (inner L))) + n1)
        = Ok (movedPoint rot2 x) /\
      index (d1InnerList (inner s))
            (Z.of_nat (length (d1InnerList (inner L))) + n1)
        = Ok (matvec rot2 (matvec rot d1)) /\
      index (d2InnerList (inner s))
            (Z.of_nat (length (d2InnerList (inner L))) + n1)
        = Ok (matvec rot2 (matvec rot d2)).

Definition rotatedInv (L : Locals) (k : Z) (s : Locals) : Prop :=
  stationFrame (frame s) /\
  Z.of_nat (length (xInnerList (inner s)))
    = Z.of_nat (length (xInnerList (inner L))) + k /\
  Z.of_nat (length (d1InnerList (inner s)))
    = Z.of_nat (length (d1InnerList (inner L))) + k /\
  Z.of_nat (length (d2InnerList (inner s)))
    = Z.of_nat (length (d2InnerList (inner L))) + k /\
  (1 <= k ->
   exists sd2n2 x0 rot2,
     index sd2 n2 = Ok sd2n2 /\
     index (xInner a) (nAlongSegment * elementsCountAround a) = Ok x0 /\
     secondRotation sd2n2 unitTangent mid (matvec rot x0) = Ok rot2 /\
     rotFrame2 (frame s) = Some rot2 /\
     movedEntries L rot2 k s).

Lemma alignPoint_rotated L n1 s s' :
  0 <= n1 ->
  rotatedInv L n1 s ->
  alignPoint a sd2 unitTangent cp n2 nAlongSegment n1 s = Ok s' ->
  rotatedInv L (n1 + 1) s'.
Proof.
  intros Hn1 ((Hr & Hmid & Ht) & L1 & L2 & L3 & Hprev) Hb.
  unfold alignPoint in Hb.
  apply bind_Ok in Hb as (x & Ex & Hb).
  apply bind_Ok in Hb as (d1 & Ed1 & Hb).
  apply bind_Ok in Hb as (d2 & Ed2 & Hb).
  apply bind_Ok in Hb as (m' & Em' & Hb).
  rewrite Hm in Em'. injection Em' as <-.
  apply bind_Ok in Hb as ([[[xR d1R] d2R] fr] & Emove & Hb).
  rewrite Hrotated in Emove.
  apply bind_Ok in Emove as (rot' & Erot & Emove).
  rewrite Hr in Erot. injection Erot as <-.
  apply bind_Ok in Emove as (fr' & Efr & Emove).
  apply bind_Ok in Emove as (rot2 & Erot2 & Emove).
  injection Emove as <- <- <- <-.
  apply bind_Ok in Hb as (tr & Etr & Hb).
  apply bind_Ok in Hb as (u1 & _ & Hb).
  apply bind_Ok in Hb as (u2 & _ & Hb).
  apply bind_Ok in Hb as (c & _ & Hb).
  apply bind_Ok in Hb as (d3 & _ & Hb). injection Hb as <-.
  destruct (Z.eqb_spec n1 0) as [->|Hne].
  - (* first point of the station: the second rotation is computed *)
    apply bind_Ok in Efr as (sd2n2 & Esd & Efr).
    apply bind_Ok in Efr as (mid' & Emid & Efr).
    rewrite Hmid in Emid. injection Emid as <-.
    apply bind_Ok in Efr as (r2 & Er2 & Efr). injection Efr as <-.
    simpl in Erot2. injection Erot2 as <-.
    simpl in Etr. rewrite Ht in Etr. injection Etr as <-.
    unfold rotatedInv, stationFrame. simpl. rewrite !length_app. simpl.
    split; [auto|]. split; [lia|]. split; [lia|]. split; [lia|].
    intros _. rewrite Z.add_0_r in Ex.
    exists sd2n2, x, r2. repeat split; auto.
    intros k Hk. assert (k = 0) as -> by lia.
    rewrite Z.add_0_r in *.
    exists x, d1, d2. repeat split; auto; apply index_app_new; lia.
  - (* the other points use the rotations of the first *)
    injection Efr as <-.
    destruct Hprev as (sd2n2 & x0 & r2 & Esd & Ex0 & Er2 & Hf2 & Hall);
      [lia|].
    rewrite Hf2 in Erot2. injection Erot2 as <-.
    rewrite Ht in Etr. injection Etr as <-.
    unfold rotatedInv, stationFrame. simpl. rewrite !length_app. simpl.
    split; [auto|]. split; [lia|]. split; [lia|]. split; [lia|].
    intros _. exists sd2n2, x0, r2. repeat split; auto.
    intros k Hk. destruct (Z.eq_dec k n1) as [->|Hk'].
    + exists x, d1, d2. repeat split; auto; apply index_app_new; lia.
    + destruct (Hall k) as (x' & a1 & a2 & F0 & F1 & F2 & F3 & F4 & F5);
        [lia|].
      exists x', a1, a2. simpl.
      repeat split; auto; rewrite index_app_old; auto; lia.
Qed.

Lemma station_rotated L fr L' :
  stationFrame fr ->
  for_ (range (elementsCountAround a))
       (alignPoint a sd2 unitTangent cp n2 nAlongSegment)
       (with_frame fr L) = Ok L' ->
  rotatedInv L (Z.max 0 (elementsCountAround a)) L'.
Proof.
  intros Hfr. apply (for_range_ind (rotatedInv L)).
  - split; [exact Hfr|]. simpl. repeat split; try lia.
  - intros i s s' Hi Hs Hb. eapply alignPoint_rotated; eauto. lia.
Qed.

End RotatedStation.

(** X16.  A station whose tangent is not along the segment axis (the
    cross product of the two has a positive length) is mapped by one
    rigid motion: every point of its ring is rotated by the same
    [rotFrame], then by the same [rotFrame2], computed once at the first
    point of the ring, and translated by the same [translateMatrix], the
    difference of the central-line point and the rotated centre of the
    station; the derivatives around and along are rotated by the same
    two matrices. *)
Theorem rotated_station_is_mapped_by_one_rigid_motion `{Imports}
    (a : Args) (sx sd1 sd2 : list vec3) (nSegment nAlongSegment : Z)
    (L L' : Locals) :
  stationMapped nSegment nAlongSegment = true ->
  1 <= elementsCountAround a ->
  alignStation a sx sd1 sd2 nSegment nAlongSegment L = Ok L' ->
  let n2 := nSegment * elementsCountAlongSegment a + nAlongSegment in
  exists tangent unitTangent cp m,
    index sd1 n2 = Ok tangent /\
    normalise tangent = Ok unitTangent /\
    crossproduct3 (segmentAxis a) unitTangent = Ok cp /\
    magnitude cp = Ok m /\
    (gtb m zero = true ->
     exists q z rot sxn2 x0 sd2n2 rot2,
       truediv_int (segmentLength a) (elementsCountAlongSegment a) = Ok q /\
       mul_int q nAlongSegment = Ok z /\
       index sx n2 = Ok sxn2 /\
       index (xInner a) (nAlongSegment * elementsCountAround a) = Ok x0 /\
       index sd2 n2 = Ok sd2n2 /\
       let mid := matvec rot (V3 zero zero z) in
       let translate :=
         build3 (fun j => sub (comp sxn2 j) (comp mid j)) in
       secondRotation sd2n2 unitTangent mid (matvec rot x0) = Ok rot2 /\
       forall n1, 0 <= n1 < elementsCountAround a ->
         exists x d1 d2,
           index (xInner a) (nAlongSegment * elementsCountAround a + n1)
             = Ok x /\
           index (d1Inner a) (nAlongSegment * elementsCountAround a + n1)
             = Ok d1 /\
           index (d2Inner a) (nAlongSegment * elementsCountAround a + n1)
             = Ok d2 /\
           index (xInnerList (inner L'))
                 (Z.of_nat (length (xInnerList (inner L))) + n1)
             = Ok (movedPoint rot translate rot2 x) /\
           index (d1InnerList (inner L'))
                 (Z.of_nat (length (d1InnerList (inner L))) + n1)
             = Ok (matvec rot2 (matvec rot d1)) /\
           index (d2InnerList (inner L'))
                 (Z.of_nat (length (d2InnerList (inner L))) + n1)
             = Ok (matvec rot2 (matvec rot d2))).
Proof.
  intros Hmapped Hcount Hrun. cbv zeta.
  unfold alignStation in Hrun.
  fold (stationMapped nSegment nAlongSegment) in Hrun.
  rewrite Hmapped in Hrun.
  apply bind_Ok in Hrun as (q & Eq & Hrun).
  apply bind_Ok in Hrun as (z & Ez & Hrun).
  apply bind_Ok in Hrun as (tangent & Et & Hrun).
  apply bind_Ok in Hrun as (unitTangent & Eu & Hrun).
  apply bind_Ok in Hrun as (cp & Ecp & Hrun).
  apply bind_Ok in Hrun as (fr & Efr & Hrun).
  unfold alignFrame in Efr.
  apply bind_Ok in Efr as (m & Em & Efr).
  exists tangent, unitTangent, cp, m.
  split; [exact Et|]. split; [exact Eu|]. split; [exact Ecp|].
  split; [exact Em|]. intros Hrot. rewrite Hrot in Efr.
  apply bind_Ok in Efr as (axisRot & _ & Efr).
  apply bind_Ok in Efr as (cosTheta & _ & Efr).
  apply bind_Ok in Efr as (thetaRot & _ & Efr).
  apply bind_Ok in Efr as (rot & _ & Efr).
  apply bind_Ok in Efr as (sxn2 & Esx & Efr). injection Efr as <-.
  eapply station_rotated in Hrun; [| exact Em | exact Hrot |].
  2: { repeat split. }
  destruct Hrun as (_ & _ & _ & _ & Hall).
  destruct Hall as (sd2n2 & x0 & rot2 & Esd & Ex0 & Er2 & _ & Hall);
    [lia|].
  exists q, z, rot, sxn2, x0, sd2n2, rot2.
  split; [exact Eq|]. split; [exact Ez|]. split; [exact Esx|].
  split; [exact Ex0|].
  split; [exact Esd|]. cbv zeta. split; [exact Er2|].
  intros n1 Hn1. apply Hall. lia.
Qed.

Lemma rotated_first_station_of_tube_along_x :
  alignStation Example.tubeAlongX
    [Example.v3 0 0 0; Example.v3 1 0 0; Example.v3 2 0 0]
    [Example.v3 1 0 0; Example.v3 1 0 0; Example.v3 1 0 0]
    [Example.v3 0 1 0; Example.v3 0 1 0; Example.v3 0 1 0] 0 0
    (initialLocals Example.tubeAlongX) = Ok Example.tubeAlongXStation /\
  exists rot rot2 translate x,
    index (xInner Example.tubeAlongX)
          (0 * elementsCountAround Example.tubeAlongX + 1) = Ok x /\
    index (xInnerList (inner Example.tubeAlongXStation))
          (Z.of_nat (length (xInnerList
                               (inner (initialLocals Example.tubeAlongX))))
           + 1)
      = Ok (movedPoint rot translate rot2 x).
Proof.
  assert (alignStation Example.tubeAlongX
            [Example.v3 0 0 0; Example.v3 1 0 0; Example.v3 2 0 0]
            [Example.v3 1 0 0; Example.v3 1 0 0; Example.v3 1 0 0]
            [Example.v3 0 1 0; Example.v3 0 1 0; Example.v3 0 1 0] 0 0
            (initialLocals Example.tubeAlongX)
          = Ok Example.tubeAlongXStation) as Hrun
    by (vm_compute; reflexivity).
  split; [exact Hrun|].
  assert (1 <= elementsCountAround Example.tubeAlongX) as Hc
    by (simpl; lia).
  destruct (rotated_station_is_mapped_by_one_rigid_motion
              Example.tubeAlongX _ _ _ 0 0 _ _ eq_refl Hc Hrun)
    as (t & u & cp & m & Et & Eu & Ecp & Em & Hrot).
  assert (gtb m zero = true) as Hm.
  { assert (Ok m = Ok one) as Hone.
    { rewrite <- Em.
      assert (Ok cp = Ok (V3 zero one zero)) as Hcp.
      { rewrite <- Ecp.
        assert (Ok u = Ok (V3 one zero zero)) as Hu.
        { rewrite <- Eu.
          assert (Ok t = Ok (V3 one zero zero)) as Ht
            by (rewrite <- Et; vm_compute; reflexivity).
          injection Ht as ->. vm_compute. reflexivity. }
        injection Hu as ->. vm_compute. reflexivity. }
      injection Hcp as ->. vm_compute. reflexivity. }
    injection Hone as ->. vm_compute. reflexivity. }
  destruct (Hrot Hm)
    as (q & z & rot & sxn2 & x0 & sd2n2 & rot2 & _ & _ & Esx & _ & _ & _ &
        Hall).
  assert (0 <= 1 < elementsCountAround Example.tubeAlongX) as H1
    by (simpl; lia).
  destruct (Hall 1 H1) as (x & d1 & d2 & Ex & _ & _ & Hx & _).
  exists rot, rot2. eexists. exists x. split; [exact Ex | exact Hx].
Defined.
